(** * memcache/cache: a bounded LRU cache with expiry and single-flight Get

    Shallow embedding of [cache/cache.go].  Go pointers [*CacheEntry[V]]
    are addresses into an explicit heap, so that the aliasing between the
    index ([items]) and the doubly-linked recency list ([head], [tail],
    [prev], [next]) is the one of the program.  Every critical section
    (the code between [c.mu.Lock()] and [c.mu.Unlock()]) is one atomic
    transition; [Get], which releases the lock between its sections, is a
    small machine with one program point per section. *)

From stdpp Require Import gmap strings list fin_maps.
From Stdlib Require Import ZArith.

Open Scope Z_scope.

(** A [*CacheEntry[V]]: an address in the heap of entries. *)
Abbreviation ptr := nat (only parsing).

(** [time.Time] as the number of nanoseconds since the zero time instant;
    [t.IsZero()] is [t = 0]. *)
Abbreviation Time := Z (only parsing).

(** The zero value [var x T] of a Go type. *)
Class Zero (T : Type) : Type := zero : T.
#[export] Instance string_zero : Zero string := EmptyString.
#[export] Instance Z_zero : Zero Z := 0.
#[export] Instance nat_zero : Zero nat := 0%nat.

Section cache.

Context {K : Type} `{Countable K} `{!Zero K}.
Context {V : Type} `{!Zero V}.
Context {Err : Type}.

(** ** Data model *)

(** [type CacheEntry[V any] struct].  [ready] is the channel
    [chan struct{}]: [false] while open, [true] once closed. *)
Record CacheEntry : Type := mkEntry {
  value : V;
  expiresAt : Time;
  ready : bool;
  prev : option ptr;
  next : option ptr
}.

(** [type Cache[K comparable, V any] struct] (the mutex is the atomicity
    of the transitions).  [heap] holds the allocated entries and [brk] is
    the next address [&CacheEntry[V]{...}] returns. *)
Record Cache : Type := mkCache {
  heap : gmap ptr CacheEntry;
  brk : ptr;
  items : gmap K ptr;
  capacity : Z;
  head : option ptr;
  tail : option ptr
}.

Definition set_value (v : V) (e : CacheEntry) : CacheEntry :=
  mkEntry v (expiresAt e) (ready e) (prev e) (next e).
Definition set_expiresAt (t : Time) (e : CacheEntry) : CacheEntry :=
  mkEntry (value e) t (ready e) (prev e) (next e).
Definition set_ready (b : bool) (e : CacheEntry) : CacheEntry :=
  mkEntry (value e) (expiresAt e) b (prev e) (next e).
Definition set_prev (q : option ptr) (e : CacheEntry) : CacheEntry :=
  mkEntry (value e) (expiresAt e) (ready e) q (next e).
Definition set_next (q : option ptr) (e : CacheEntry) : CacheEntry :=
  mkEntry (value e) (expiresAt e) (ready e) (prev e) q.

Definition set_heap (h : gmap ptr CacheEntry) (c : Cache) : Cache :=
  mkCache h (brk c) (items c) (capacity c) (head c) (tail c).
Definition set_items (m : gmap K ptr) (c : Cache) : Cache :=
  mkCache (heap c) (brk c) m (capacity c) (head c) (tail c).
Definition set_head (p : option ptr) (c : Cache) : Cache :=
  mkCache (heap c) (brk c) (items c) (capacity c) p (tail c).
Definition set_tail (p : option ptr) (c : Cache) : Cache :=
  mkCache (heap c) (brk c) (items c) (capacity c) (head c) p.

(** [p.field = ...]: a store through the pointer [p]. *)
Definition store (p : ptr) (f : CacheEntry → CacheEntry) (c : Cache) : Cache :=
  set_heap (alter f p (heap c)) c.

(** [p.prev], [p.next], [p.value], [p.expiresAt]: loads through [p]. *)
Definition load_prev (c : Cache) (p : ptr) : option ptr := heap c !! p ≫= prev.
Definition load_next (c : Cache) (p : ptr) : option ptr := heap c !! p ≫= next.
Definition load_value (c : Cache) (p : ptr) : V :=
  from_option value zero (heap c !! p).
Definition load_expiresAt (c : Cache) (p : ptr) : Time :=
  from_option expiresAt 0 (heap c !! p).
Definition load_ready (c : Cache) (p : ptr) : bool :=
  from_option ready false (heap c !! p).

(** [&CacheEntry[V]{...}]: a fresh address holding [e]. *)
Definition alloc (e : CacheEntry) (c : Cache) : ptr * Cache :=
  (brk c,
   mkCache (<[brk c := e]> (heap c)) (S (brk c)) (items c) (capacity c)
           (head c) (tail c)).

(** [func New(capacity int)] *)
Definition New (capacity : Z) : Cache :=
  let capacity := if decide (capacity ≤ 0) then 1000 else capacity in
  mkCache ∅ 0%nat ∅ capacity None None.

(** [len(c.items)] *)
Definition len_items (c : Cache) : Z := Z.of_nat (size (items c)).

(** The two statements that take [entry] out of its neighbours' links
    (cache.go 43-48, again 195-200 and 236-241):
    [if entry.prev != nil { entry.prev.next = entry.next }]
    [if entry.next != nil { entry.next.prev = entry.prev }] *)
Definition detach (entry : ptr) (c : Cache) : Cache :=
  let c := match load_prev c entry with
           | Some q => store q (set_next (load_next c entry)) c
           | None => c
           end in
  match load_next c entry with
  | Some r => store r (set_prev (load_prev c entry)) c
  | None => c
  end.

(** [// Remove from current position] in [moveToFront] (cache.go 42-51) *)
Definition remove_from_position (entry : ptr) (c : Cache) : Cache :=
  let c := detach entry c in
  if decide (Some entry = tail c) then set_tail (load_prev c entry) c else c.

(** [// Add to front] in [moveToFront] (cache.go 53-62) *)
Definition add_to_front (entry : ptr) (c : Cache) : Cache :=
  let c := store entry (set_prev None) c in
  let c := store entry (set_next (head c)) c in
  let c := match head c with
           | Some h => store h (set_prev (Some entry)) c
           | None => c
           end in
  let c := set_head (Some entry) c in
  match tail c with
  | None => set_tail (Some entry) c
  | Some _ => c
  end.

(** [func (c *Cache[K, V]) moveToFront(entry *CacheEntry[V])] *)
Definition moveToFront (entry : ptr) (c : Cache) : Cache :=
  if decide (Some entry = head c) then c
  else add_to_front entry (remove_from_position entry c).

(** The loop of [removeTail]:
    [var key K; for k, v := range c.items { if v == c.tail { key = k; break } }]
    over the pairs of the map in the order [kvs] of the iteration. *)
Definition find_key (kvs : list (K * ptr)) (t : ptr) : K :=
  match list_find (λ kv, kv.2 = t) kvs with
  | Some (_, (k, _)) => k
  | None => zero
  end.

(** [func (c *Cache[K, V]) removeTail()] *)
Definition removeTail (c : Cache) : Cache :=
  match tail c with
  | None => c
  | Some t =>
    let key := find_key (map_to_list (items c)) t in
    let c := set_items (delete key (items c)) c in
    let c := match load_prev c t with
             | Some q => store q (set_next None) c
             | None => c
             end in
    let c := set_tail (load_prev c t) c in
    match tail c with
    | None => set_head None c
    | Some _ => c
    end
  end.

(** [!entry.expiresAt.IsZero() && now.After(entry.expiresAt)] *)
Definition expired (c : Cache) (entry : ptr) (now : Time) : bool :=
  negb (load_expiresAt c entry =? 0) && (load_expiresAt c entry <? now).

(** [if len(c.items) >= c.capacity { c.removeTail() }] *)
Definition evict_if_full (c : Cache) : Cache :=
  if decide (capacity c ≤ len_items c) then removeTail c else c.

(** [func (c *Cache[K, V]) Set(key K, value V, expiration time.Duration)]
    ([Set] is a reserved word here, hence the underscore); [now] is what
    [time.Now()] returns. *)
Definition Set_ (now : Time) (key : K) (v : V) (expiration : Z) (c : Cache)
  : Cache :=
  (* Check if we need to evict *)
  let c := evict_if_full c in
  let '(entry, c) := alloc (mkEntry v 0 false None None) c in
  let c := if decide (0 < expiration)
           then store entry (set_expiresAt (now + expiration)) c else c in
  let c := store entry (set_ready true) c in
  let c := set_items (<[key := entry]> (items c)) c in
  moveToFront entry c.

(** The four statements of [Delete] and [Cleanup] that take [entry] out of
    the list (cache.go 195-206, 236-247). *)
Definition unlink (entry : ptr) (c : Cache) : Cache :=
  let c := detach entry c in
  let c := if decide (Some entry = head c)
           then set_head (load_next c entry) c else c in
  if decide (Some entry = tail c)
  then set_tail (load_prev c entry) c else c.

(** [func (c *Cache[K, V]) Delete(key K)] *)
Definition Delete (key : K) (c : Cache) : Cache :=
  match items c !! key with
  | None => c
  | Some entry =>
    let c := unlink entry c in
    set_items (delete key (items c)) c
  end.

(** [func (c *Cache[K, V]) Clear()] *)
Definition Clear (c : Cache) : Cache :=
  set_tail None (set_head None (set_items ∅ c)).

(** [func (c *Cache[K, V]) Size() int] *)
Definition Size (c : Cache) : Z := len_items c.

(** One iteration of the loop of [Cleanup] at the pair [(key, entry)];
    a key that is no longer in the map is not produced by [range]. *)
Definition Cleanup_visit (now : Time) (c : Cache) (key : K) : Cache :=
  match items c !! key with
  | None => c
  | Some entry =>
    if expired c entry now
    then set_items (delete key (items c)) (unlink entry c)
    else c
  end.

(** [func (c *Cache[K, V]) Cleanup()], with [now] what [time.Now()]
    returns and [order] the order in which [range c.items] produces the
    keys (Go leaves it unspecified). *)
Definition Cleanup_in (now : Time) (order : list K) (c : Cache) : Cache :=
  foldl (Cleanup_visit now) c order.

Definition Cleanup (now : Time) (c : Cache) : Cache :=
  Cleanup_in now (map_to_list (items c)).*1 c.

(** ** Get *)

(** [compute func() (V, error)]: [None] is the nil func, [Some (v, err)] a
    func whose call returns [(v, err)], with [err = None] for a nil error. *)
Definition ComputeFn : Type := option (V * option Err).

(** What a call of [Get] produces: the pair it returns, or the run-time
    panic of Go when a nil func is called. *)
Inductive Outcome : Type :=
| Return (v : V) (err : option Err)
| Panic.

(** The program points of [Get] between which the lock is not held, with
    the local variables live there. *)
Inductive GetPc : Type :=
| AtLookup                                        (* 94-98 *)
| AtAwait (entry : ptr)                           (* 100 *)
| AtExpiry (entry : ptr)                          (* 103 *)
| AtExpiredDelete                                 (* 105-108 *)
| AtPromote (entry : ptr)                         (* 112-114 *)
| AtReturn (entry : ptr)                          (* 116 *)
| AtReserve                                       (* 120-141 *)
| AtReservedAwait (entry : ptr)                   (* 126 *)
| AtReservedReturn (entry : ptr)                  (* 127 *)
| AtCompute (entry : ptr)                         (* 144-145 *)
| AtFailDelete (entry : ptr) (v : V) (err : Err)  (* 147-149 *)
| AtFailClose (entry : ptr) (v : V) (err : Err)   (* 150-151 *)
| AtStore (entry : ptr) (v : V)                   (* 155 *)
| AtClose (entry : ptr) (v : V)                   (* 156-157 *)
| Finished (out : Outcome).

(** What [Get] does under the write lock once the key is found absent
    (cache.go 130-140): evict if full, create the entry that is not ready,
    put it in the index and at the front of the list. *)
Definition reserve (key : K) (c : Cache) : ptr * Cache :=
  (* Check if we need to evict *)
  let c := evict_if_full c in
  (* Create new entry and start computation *)
  let '(entry, c) := alloc (mkEntry zero 0 false None None) c in
  let c := set_items (<[key := entry]> (items c)) c in
  (entry, moveToFront entry c).

(** One transition of [func (c *Cache[K, V]) Get(key K, compute func() (V, error))]
    from the program point [pc]; [None] when the call cannot move: it is
    receiving from a channel nobody has closed, or it has finished.  [now]
    is what [time.Now()] returns if the transition reads the clock. *)
Definition Get_step (now : Time) (key : K) (compute : ComputeFn)
    (c : Cache) (pc : GetPc) : option (Cache * GetPc) :=
  match pc with
  | AtLookup =>
    (* First try a fast path with read lock *)
    match items c !! key with
    | Some entry => Some (c, AtAwait entry)
    | None => Some (c, AtReserve)
    end
  | AtAwait entry =>
    (* Wait for the value to be ready if it's being computed *)
    if load_ready c entry then Some (c, AtExpiry entry) else None
  | AtExpiry entry =>
    (* Check if the entry has expired *)
    if expired c entry now then Some (c, AtExpiredDelete)
    else Some (c, AtPromote entry)
  | AtExpiredDelete =>
    (* Entry expired, remove it and recompute *)
    Some (set_items (delete key (items c)) c, AtLookup)
  | AtPromote entry =>
    (* Move to front of LRU list *)
    Some (moveToFront entry c, AtReturn entry)
  | AtReturn entry =>
    Some (c, Finished (Return (load_value c entry) None))
  | AtReserve =>
    (* Double check after acquiring write lock *)
    match items c !! key with
    | Some entry => Some (c, AtReservedAwait entry)
    | None =>
      let '(entry, c) := reserve key c in
      Some (c, AtCompute entry)
    end
  | AtReservedAwait entry =>
    if load_ready c entry then Some (c, AtReservedReturn entry) else None
  | AtReservedReturn entry =>
    Some (c, Finished (Return (load_value c entry) None))
  | AtCompute entry =>
    (* Compute the value *)
    match compute with
    | None => Some (c, Finished Panic)
    | Some (v, Some err) => Some (c, AtFailDelete entry v err)
    | Some (v, None) => Some (c, AtStore entry v)
    end
  | AtFailDelete entry v err =>
    (* Remove the entry if computation failed *)
    Some (set_items (delete key (items c)) c, AtFailClose entry v err)
  | AtFailClose entry v err =>
    Some (store entry (set_ready true) c, Finished (Return v (Some err)))
  | AtStore entry v =>
    (* Store the computed value *)
    Some (store entry (set_value v) c, AtClose entry v)
  | AtClose entry v =>
    Some (store entry (set_ready true) c, Finished (Return v None))
  | Finished _ => None
  end.

(** [compute()] is called by the transition that leaves [AtCompute] with a
    func that is not nil. *)
Definition calls_compute (compute : ComputeFn) (pc : GetPc) : nat :=
  match pc, compute with
  | AtCompute _, Some _ => 1
  | _, _ => 0
  end.

(** A call of [Get] with no other goroutine running. *)
Inductive GetResult : Type :=
| Done (c : Cache) (out : Outcome) (calls : nat)
| Deadlock (c : Cache)
| OutOfFuel.

Fixpoint Get_run (fuel : nat) (now : Time) (key : K) (compute : ComputeFn)
    (c : Cache) (pc : GetPc) (calls : nat) : GetResult :=
  match pc with
  | Finished out => Done c out calls
  | _ =>
    match fuel with
    | O => OutOfFuel
    | S fuel =>
      match Get_step now key compute c pc with
      | None => Deadlock c
      | Some (c', pc') =>
        Get_run fuel now key compute c' pc' (calls + calls_compute compute pc)
      end
    end
  end.

Definition Get (now : Time) (key : K) (compute : ComputeFn) (c : Cache)
  : GetResult :=
  Get_run 12 now key compute c AtLookup 0.

(** What a call of [Get] that finds the key absent leaves and returns. *)
Definition miss_result (key : K) (compute : ComputeFn) (c : Cache)
  : GetResult :=
  let '(entry, c) := reserve key c in
  match compute with
  | None => Done c Panic 0
  | Some (v, Some err) =>
    Done (store entry (set_ready true) (set_items (delete key (items c)) c))
         (Return v (Some err)) 1
  | Some (v, None) =>
    Done (store entry (set_ready true) (store entry (set_value v) c))
         (Return v None) 1
  end.

(** The outcome and the number of calls of [compute] of a call of [Get]
    that returned or panicked, and the cache it leaves. *)
Definition returned (r : GetResult) : option (Outcome * nat) :=
  match r with
  | Done _ out n => Some (out, n)
  | _ => None
  end.

Definition left_by (r : GetResult) : option Cache :=
  match r with
  | Done c _ _ => Some c
  | Deadlock c => Some c
  | OutOfFuel => None
  end.

(** ** Goroutines *)

(** A call of [Get] in progress in some goroutine. *)
Record GetCall : Type := mkGetCall {
  call_key : K;
  call_compute : ComputeFn;
  call_pc : GetPc
}.

(** What the scheduler lets happen next: the call of [Get] number [i]
    makes its next transition, or some goroutine runs one of the methods
    that hold the lock from entry to exit. *)
Inductive Event : Type :=
| GetStep (i : nat) (now : Time)
| DoSet (now : Time) (key : K) (v : V) (expiration : Z)
| DoDelete (key : K)
| DoClear
| DoCleanup (now : Time) (order : list K).

Record System : Type := mkSystem {
  shared : Cache;
  calls : list GetCall;
  computes : nat          (* how many times a [compute] has been called *)
}.

Definition sys_step (s : System) (ev : Event) : System :=
  match ev with
  | GetStep i now =>
    match calls s !! i with
    | None => s
    | Some g =>
      match Get_step now (call_key g) (call_compute g) (shared s) (call_pc g) with
      | None => s
      | Some (c', pc') =>
        mkSystem c'
          (<[i := mkGetCall (call_key g) (call_compute g) pc']> (calls s))
          (computes s + calls_compute (call_compute g) (call_pc g))
      end
    end
  | DoSet now key v expiration =>
    mkSystem (Set_ now key v expiration (shared s)) (calls s) (computes s)
  | DoDelete key => mkSystem (Delete key (shared s)) (calls s) (computes s)
  | DoClear => mkSystem (Clear (shared s)) (calls s) (computes s)
  | DoCleanup now order =>
    mkSystem (Cleanup_in now order (shared s)) (calls s) (computes s)
  end.

Definition sys_run (s : System) (schedule : list Event) : System :=
  foldl sys_step s schedule.

(** The calls of [Get] on [key] whose [compute] is in flight. *)
Definition computing (pc : GetPc) : bool :=
  match pc with AtCompute _ => true | _ => false end.

Definition in_flight (key : K) (s : System) : nat :=
  length (filter (λ g, call_key g = key ∧ computing (call_pc g)) (calls s)).

(** The outcome of call number [i], once it has returned. *)
Definition outcome_of (s : System) (i : nat) : option Outcome :=
  match call_pc <$> calls s !! i with
  | Some (Finished out) => Some out
  | _ => None
  end.

(** ** The recency list, read off the heap *)

(** The entries met from [p] along [next] (or along [prev]), at most
    [fuel] of them. *)
Fixpoint walk (link : Cache → ptr → option ptr) (c : Cache) (fuel : nat)
    (p : option ptr) : list ptr :=
  match fuel, p with
  | S fuel, Some q => q :: walk link c fuel (link c q)
  | _, _ => []
  end.

(** The recency list from the most to the least recently used entry: from
    [head] along [next]; and the same list read from [tail] along [prev]. *)
Definition recency (c : Cache) : list ptr := walk load_next c (brk c) (head c).
Definition recency_back (c : Cache) : list ptr :=
  walk load_prev c (brk c) (tail c).

(** The entries of the index. *)
Definition indexed (c : Cache) (p : ptr) : Prop := ∃ k, items c !! k = Some p.

(** The invariant of the recency list: it holds exactly the entries of
    the index, without duplicates, [prev] and [next] are paired (the list
    read backwards from [tail] is the list read forwards from [head]), and
    [head] and [tail] are nil exactly when it is empty. *)
Record list_invariant (c : Cache) : Prop := mkListInvariant {
  inv_exact : ∀ p, p ∈ recency c ↔ indexed c p;
  inv_nodup : NoDup (recency c);
  inv_paired : recency_back c = reverse (recency c);
  inv_head : head c = None ↔ recency c = [];
  inv_tail : tail c = None ↔ recency c = []
}.

(** ** The recency list as a list of addresses *)

(** The first of [l], or [after] when [l] is empty; the last of [l], or
    [before] when [l] is empty. *)
Definition first_or (l : list ptr) (after : option ptr) : option ptr :=
  match l with [] => after | q :: _ => Some q end.
Definition last_or (before : option ptr) (l : list ptr) : option ptr :=
  match last l with None => before | Some q => Some q end.

(** The entries [l] are allocated and chained in this order: the [prev] of
    each is the one before it ([before] for the first) and its [next] the
    one after it ([after] for the last). *)
Fixpoint linked (h : gmap ptr CacheEntry) (before : option ptr)
    (l : list ptr) (after : option ptr) : Prop :=
  match l with
  | [] => True
  | p :: l' =>
    prev <$> h !! p = Some before ∧
    next <$> h !! p = Some (first_or l' after) ∧
    linked h (Some p) l' after
  end.

(** [l] is the recency list of [c], most recently used first. *)
Record is_list (c : Cache) (l : list ptr) : Prop := mkIsList {
  list_nodup : NoDup l;
  list_head : head c = hd_error l;
  list_tail : tail c = last l;
  list_linked : linked (heap c) None l None;
  list_alloc : Forall (λ p, (p < brk c)%nat) l
}.

(** What every operation keeps when no other goroutine interferes: the
    recency list is well linked, it holds every entry of the index, and no
    two keys share an entry. *)
Record well_formed (c : Cache) (l : list ptr) : Prop := mkWellFormed {
  wf_list : is_list c l;
  wf_indexed : ∀ k p, items c !! k = Some p → p ∈ l;
  wf_inj : ∀ k1 k2 p, items c !! k1 = Some p → items c !! k2 = Some p → k1 = k2
}.

(** The recency list after the eviction that comes before an insertion. *)
Definition evicted (c : Cache) (l : list ptr) : list ptr :=
  if decide (capacity c ≤ len_items c) then removelast l else l.

(** The payload of an entry: what is not a link of the list. *)
Definition payload (c : Cache) (p : ptr) : option (V * Time * bool) :=
  (λ e, (value e, expiresAt e, ready e)) <$> heap c !! p.

(** An entry of the index that has expired at [now]: what [Cleanup] is to
    remove. *)
Definition stale (c : Cache) (now : Time) (p : ptr) : Prop :=
  p ∈ (map_to_list (items c)).*2 ∧ expired c p now.

#[global] Instance stale_dec c now p : Decision (stale c now p).
Proof. unfold stale. apply _. Defined.

(** The state the specification describes: well formed, and the recency
    list holds only entries of the index. *)
Record exact (c : Cache) (l : list ptr) : Prop := mkExact {
  exact_wf : well_formed c l;
  exact_indexed : ∀ p, p ∈ l → indexed c p
}.

(** An insertion: a [Set], or a [Get] with a [compute] that returns
    [(v, nil)]. *)
Inductive Insertion : Type :=
| BySet (now : Time) (key : K) (v : V) (expiration : Z)
| ByGet (now : Time) (key : K) (v : V).

Definition inserted_key (op : Insertion) : K :=
  match op with
  | BySet _ key _ _ => key
  | ByGet _ key _ => key
  end.

Definition insertion (c : Cache) (op : Insertion) : Cache :=
  match op with
  | BySet now key v expiration => Set_ now key v expiration c
  | ByGet now key v =>
    default c (left_by (Get now key (Some (v, None)) c))
  end.

Definition insertions (ops : list Insertion) (c : Cache) : Cache :=
  foldl insertion c ops.

(** The states a goroutine reaches when it runs the operations one after
    the other, alone. *)
Inductive reachable : Cache → Prop :=
| reach_New capacity : reachable (New capacity)
| reach_Set now key v expiration c :
    reachable c → reachable (Set_ now key v expiration c)
| reach_Get now key compute c c' out n :
    reachable c → Get now key compute c = Done c' out n → reachable c'
| reach_Delete key c : reachable c → reachable (Delete key c)
| reach_Clear c : reachable c → reachable (Clear c)
| reach_Cleanup now order c :
    reachable c → order ≡ₚ (map_to_list (items c)).*1 →
    reachable (Cleanup_in now order c).

(** ** Readiness, runs that avoid the overwriting paths, interleaved calls *)

(** Every entry of the index is ready: its channel has been closed. *)
Definition all_ready (c : Cache) : Prop :=
  ∀ k p, items c !! k = Some p → load_ready c p = true.

(** The states a goroutine reaches, running alone, when no [Set] is on a
    key that is present and every [Get] either finds its key with an entry
    that has not expired, or finds it absent and has a [compute] that
    succeeds. *)
Inductive reachable_in_step : Cache → Prop :=
| in_step_New capacity : reachable_in_step (New capacity)
| in_step_Set now key v expiration c :
    reachable_in_step c → items c !! key = None →
    reachable_in_step (Set_ now key v expiration c)
| in_step_Get_miss now key v c c' out n :
    reachable_in_step c → items c !! key = None →
    Get now key (Some (v, None)) c = Done c' out n →
    reachable_in_step c'
| in_step_Get_hit now key compute c p c' out n :
    reachable_in_step c → items c !! key = Some p →
    expired c p now = false →
    Get now key compute c = Done c' out n →
    reachable_in_step c'
| in_step_Delete key c : reachable_in_step c → reachable_in_step (Delete key c)
| in_step_Clear c : reachable_in_step c → reachable_in_step (Clear c)
| in_step_Cleanup now order c :
    reachable_in_step c → order ≡ₚ (map_to_list (items c)).*1 →
    reachable_in_step (Cleanup_in now order c).

(** A transition of a call of [Get], as opposed to a call of another
    method. *)
Definition is_Get_step (ev : Event) : Prop :=
  match ev with GetStep _ _ => True | _ => False end.

(** Where the call that reserved the entry [e] stands, with [v] what its
    [compute] returns, [x] and [r] the value and the readiness of [e] and
    [n] the number of calls of a [compute] so far. *)
Definition owner_at (e : ptr) (v x : V) (r : bool) (n : nat) (pc : GetPc)
  : Prop :=
  match pc with
  | AtCompute e' => e' = e ∧ r = false ∧ n = 0%nat
  | AtStore e' v' => e' = e ∧ v' = v ∧ r = false ∧ n = 1%nat
  | AtClose e' v' => e' = e ∧ v' = v ∧ r = false ∧ x = v ∧ n = 1%nat
  | Finished out => out = Return v None ∧ r = true ∧ x = v ∧ n = 1%nat
  | _ => False
  end.

(** Where the other calls on the same key stand. *)
Definition waiter_at (e : ptr) (v x : V) (r : bool) (pc : GetPc) : Prop :=
  match pc with
  | AtLookup | AtReserve => True
  | AtAwait e' | AtReservedAwait e' => e' = e
  | AtExpiry e' | AtPromote e' | AtReturn e' | AtReservedReturn e' =>
    e' = e ∧ r = true ∧ x = v
  | Finished out => out = Return v None ∧ r = true ∧ x = v
  | _ => False
  end.

(** What holds while the calls [gs], all of [Get] on [key], run
    interleaved: before one of them has reserved an entry none has gone
    past the second lookup; after, the key keeps the entry [e], which does
    not expire, the call [j] that reserved it is the only one to compute,
    and the others wait for it or read its value. *)
Definition flight (key : K) (gs : list GetCall) (s : System) : Prop :=
  (computes s ≤ 1)%nat
  ∧ length (calls s) = length gs
  ∧ (∀ i g, calls s !! i = Some g →
       ∃ g0, gs !! i = Some g0 ∧ call_key g = key
             ∧ call_compute g = call_compute g0
             ∧ ∃ w, call_compute g = Some (w, None))
  ∧ match items (shared s) !! key with
    | None =>
      computes s = 0%nat
      ∧ ∀ i g, calls s !! i = Some g →
               call_pc g = AtLookup ∨ call_pc g = AtReserve
    | Some e =>
      ∃ j v x r,
        payload (shared s) e = Some (x, 0, r)
        ∧ (r = true → x = v ∧ computes s = 1%nat)
        ∧ (∃ g0, gs !! j = Some g0 ∧ call_compute g0 = Some (v, None))
        ∧ ∀ i g, calls s !! i = Some g →
            if decide (i = j)
            then owner_at e v x r (computes s) (call_pc g)
            else waiter_at e v x r (call_pc g)
    end.

(** What holds of a call of [Get(k, compute)] at [pc] when the calls are
    on any keys and nothing is evicted. *)
Definition call_at (c : Cache) (k : K) (compute : ComputeFn) (pc : GetPc)
  : Prop :=
  match pc with
  | AtLookup | AtReserve => True
  | AtAwait e | AtReservedAwait e => items c !! k = Some e
  | AtExpiry e | AtPromote e | AtReturn e | AtReservedReturn e =>
    items c !! k = Some e ∧ load_ready c e = true
  | AtCompute e => items c !! k = Some e ∧ load_ready c e = false
  | AtStore e v =>
    items c !! k = Some e ∧ compute = Some (v, None) ∧ load_ready c e = false
  | AtClose e v =>
    items c !! k = Some e ∧ compute = Some (v, None)
    ∧ load_value c e = v ∧ load_ready c e = false
  | Finished out =>
    ∃ e, items c !! k = Some e ∧ load_ready c e = true
         ∧ out = Return (load_value c e) None
  | _ => False
  end.

(** The call has reserved the entry of its key and has not closed its
    channel yet. *)
Definition computes_for (pc : GetPc) : bool :=
  match pc with
  | AtCompute _ | AtStore _ _ | AtClose _ _ => true
  | _ => false
  end.

(** What every interleaving of the calls [gs] keeps, in a cache of
    capacity [cap] that has room for their keys. *)
Record flights (cap : Z) (gs : list GetCall) (s : System) : Prop := mkFlights {
  fl_length : length (calls s) = length gs;
  fl_calls : ∀ i g, calls s !! i = Some g →
      ∃ g0, gs !! i = Some g0 ∧ call_key g = call_key g0
            ∧ call_compute g = call_compute g0
            ∧ ∃ w, call_compute g = Some (w, None);
  fl_capacity : capacity (shared s) = cap;
  fl_entry : ∀ k e, items (shared s) !! k = Some e →
      (e < brk (shared s))%nat ∧ k ∈ call_key <$> gs
      ∧ ∃ x r, payload (shared s) e = Some (x, 0, r)
          ∧ (r = true → ∃ j gj, gs !! j = Some gj ∧ call_key gj = k
                                ∧ call_compute gj = Some (x, None));
  fl_injective : ∀ k1 k2 e, items (shared s) !! k1 = Some e →
                            items (shared s) !! k2 = Some e → k1 = k2;
  fl_at : ∀ i g, calls s !! i = Some g →
      call_at (shared s) (call_key g) (call_compute g) (call_pc g);
  fl_owner : ∀ i1 i2 g1 g2,
      calls s !! i1 = Some g1 → calls s !! i2 = Some g2 →
      call_key g1 = call_key g2 →
      computes_for (call_pc g1) = true → computes_for (call_pc g2) = true →
      i1 = i2;
  fl_count :
    (computes s + length (filter (λ g, computing (call_pc g)) (calls s))
     = size (items (shared s)))%nat
}.

End cache.

Arguments insertion {K _ _ _ V _} Err c op.
Arguments insertions {K _ _ _ V _} Err ops c.


(** * Caches from strings to integers, as in the tests of the package *)

Module Scenario.

Definition StrCache : Type := Cache (K:=string) (V:=Z).
Definition StrCompute : Type := ComputeFn (V:=Z) (Err:=string).
Definition StrSystem : Type := System (K:=string) (V:=Z) (Err:=string).
Definition StrEvent : Type := Event (K:=string) (V:=Z).

(** [c.Get(key, compute)] run alone at time [now]. *)
Definition get (now : Time) (key : string) (compute : StrCompute)
    (c : StrCache) : GetResult :=
  Get now key compute c.

(** The cache a call of [Get] leaves, [c] itself if the run is cut. *)
Definition after_get (now : Time) (key : string) (compute : StrCompute)
    (c : StrCache) : StrCache :=
  default c (left_by (get now key compute c)).

(** A [compute] that fails with the error [boom], one that returns it
    next to the value 7, and one that succeeds with 9. *)
Definition fails : StrCompute := Some (0, Some "boom"%string).
Definition fails_with_7 : StrCompute := Some (7, Some "boom"%string).
Definition yields_9 : StrCompute := Some (9, None).

(** [New(2)], then [Set("a", 1, 0)], [Set("a", 2, 0)], [Set("b", 3, 0)],
    [Set("c", 4, 0)]. *)
Definition set_a : StrCache := Set_ 1 "a" 1 0 (New 2).
Definition set_a_twice : StrCache := Set_ 2 "a" 2 0 set_a.
Definition set_a_a_b : StrCache := Set_ 3 "b" 3 0 set_a_twice.
Definition set_a_a_b_c : StrCache := Set_ 4 "c" 4 0 set_a_a_b.

(** [New(2)], then a [Get("a", fails)]. *)
Definition failed_get : StrCache := after_get 1 "a" fails (New 2).

(** [New(2)], [Set("a", 1, 10)] at time 100, then [Get("a", yields_9)]
    at time 200, when the entry has expired. *)
Definition expiring : StrCache := Set_ 100 "a" 1 10 (New 2).
Definition expired_get : StrCache := after_get 200 "a" yields_9 expiring.

(** The sequence of the LRU test: capacity 3, [Set(A,1,0)], [Set(B,2,0)],
    [Set(C,3,0)], [Get(A)], [Set(D,4,0)]. *)
Definition lru_abc : StrCache :=
  Set_ 3 "C" 3 0 (Set_ 2 "B" 2 0 (Set_ 1 "A" 1 0 (New 3))).
Definition lru : StrCache := Set_ 5 "D" 4 0 (after_get 4 "A" None lru_abc).

(** Two goroutines call [Get("k", ...)] on an empty cache; the [compute]
    of the first fails.  The second looks the key up while the first is
    computing, and goes on once the first has returned. *)
Definition two_gets : StrSystem :=
  mkSystem (New 2) [mkGetCall "k" fails AtLookup; mkGetCall "k" yields_9 AtLookup] 0.
Definition two_gets_succeed : StrSystem :=
  mkSystem (New 2)
    [mkGetCall "k" yields_9 AtLookup; mkGetCall "k" (Some (8, None)) AtLookup] 0.
Definition second_arrives : list StrEvent :=
  [GetStep 0 1; GetStep 0 1; GetStep 1 2].
Definition first_fails : list StrEvent :=
  [GetStep 0 3; GetStep 0 3; GetStep 0 3].
Definition second_returns : list StrEvent :=
  [GetStep 1 4; GetStep 1 4; GetStep 1 4; GetStep 1 4].

(** A goroutine calls [Get("a", yields_9)] at time 200 on [expiring] and
    finds the entry expired; before it takes the write lock another
    goroutine runs [Set("a", 2, 0)]. *)
Definition stale_reader : StrSystem :=
  mkSystem expiring [mkGetCall "a" yields_9 AtLookup] 0.
Definition sees_expired : list StrEvent :=
  [GetStep 0 200; GetStep 0 200; GetStep 0 200].
Definition repopulated : list StrEvent := [DoSet 200 "a" 2 0].
Definition deletes : list StrEvent := [GetStep 0 200].

(** A goroutine calls [Get("k", yields_9)] on an empty cache and misses;
    before it takes the write lock others run [Set("k", 5, 10)] and
    [Set("j", 6, 0)] at time 100; it goes on at time 1000. *)
Definition late_writer : StrSystem :=
  mkSystem (New 2) [mkGetCall "k" yields_9 AtLookup] 0.
Definition misses_then_set : list StrEvent :=
  [GetStep 0 100; DoSet 100 "k" 5 10; DoSet 100 "j" 6 0].
Definition rechecks : list StrEvent :=
  [GetStep 0 1000; GetStep 0 1000; GetStep 0 1000].

(** Three entries, the second with a time to live: for [Cleanup]. *)
Definition mixed : StrCache :=
  Set_ 3 "c" 3 0 (Set_ 2 "b" 2 5 (Set_ 1 "a" 1 0 (New 3))).

(** Three insertions of distinct keys, for a cache of capacity 2. *)
Definition three_insertions : list (Insertion (K:=string) (V:=Z)) :=
  [BySet 1 "A" 1 0; BySet 2 "B" 2 0; ByGet 3 "C" 3].

(** A schedule of [two_gets_succeed] in which both calls return. *)
Definition two_gets_run : list StrEvent :=
  [GetStep 0 1; GetStep 1 1; GetStep 0 2; GetStep 1 2; GetStep 0 3;
   GetStep 1 3; GetStep 0 4; GetStep 0 5; GetStep 1 6; GetStep 1 7].

End Scenario.


(** * memo2: a function memoised under a mutex

    Shallow embedding of [memo2/memo2.go].  [Get] holds the mutex from its
    first statement to its last, so the calls of [Get] of any number of
    goroutines run one after the other, in the order in which they take
    the mutex. *)

Module memo2.
Section definitions.
Context {Val Err World : Type}.

(** [type result struct { value interface{}; err error }] *)
Record result : Type := mkResult { value : Val; err : option Err }.

(** [type Func func(key string) (interface{}, error)]: a call may read and
    change what is outside the program, [World]. *)
Definition Func : Type := string → World → result * World.

(** [type Memo struct { f Func; mu sync.Mutex; cache map[string]result }] *)
Record Memo : Type := mkMemo { f : Func; cache : gmap string result }.

(** [func New(f Func) *Memo] *)
Definition New (f : Func) : Memo := mkMemo f ∅.

(** [func (memo *Memo) Get(key string) (interface{}, error)]: the mutex is
    held from the first statement to the last before [return], so calls
    run one after the other. *)
Definition Get (key : string) (memo : Memo) (w : World)
  : result * Memo * World :=
  match cache memo !! key with
  | Some res => (res, memo, w)
  | None =>
    let '(res, w) := f memo key w in
    (res, mkMemo (f memo) (<[key := res]> (cache memo)), w)
  end.

(** Calls of [Get] on [keys], in this order. *)
Fixpoint Gets (keys : list string) (memo : Memo) (w : World)
  : list result * Memo * World :=
  match keys with
  | [] => ([], memo, w)
  | key :: keys =>
    let '(res, memo, w) := Get key memo w in
    let '(rs, memo, w) := Gets keys memo w in
    (res :: rs, memo, w)
  end.

(** Calling [f] on each of [keys] in turn: the table of the results and
    the world after. *)
Fixpoint call_each (f : Func) (keys : list string) (w : World)
  : gmap string result * World :=
  match keys with
  | [] => (∅, w)
  | key :: keys =>
    let '(res, w) := f key w in
    let '(table, w) := call_each f keys w in
    (<[key := res]> table, w)
  end.

(** The keys of [keys] in the order in which they first occur. *)
Fixpoint first_requests (keys : list string) : list string :=
  match keys with
  | [] => []
  | key :: keys => key :: filter (λ k, k ≠ key) (first_requests keys)
  end.

End definitions.
End memo2.


(** * memo4: a function memoised with one entry and one channel per key

    Shallow embedding of the package memo4.  [Get] releases the mutex
    before it calls [f] or waits, so a call is a small machine with one
    program point per critical section, as for [cache.Get]; pointers
    [*entry] are addresses into the list of the entries allocated. *)

Module memo4.
Section definitions.
Context {Val : Type} `{!Zero Val} {Err World : Type}.

(** [type result struct { value interface{}; err error }] *)
Record result : Type := mkResult { value : Val; err : option Err }.

(** [type Func func(key string) (interface{}, error)]: a call may read and
    change what is outside the program, [World]. *)
Definition Func : Type := string → World → result * World.

(** [type entry struct { res result; ready chan struct{} }]; [ready] is
    [true] once the channel has been closed. *)
Record entry : Type := mkEntry { res : result; ready : bool }.

Definition set_res (r : result) (e : entry) : entry := mkEntry r (ready e).
Definition set_ready (b : bool) (e : entry) : entry := mkEntry (res e) b.

(** [type Memo struct { f Func; mu sync.Mutex; cache map[string]*entry }],
    with the entries allocated so far, by address. *)
Record Memo : Type := mkMemo {
  f : Func;
  heap : list entry;
  cache : gmap string nat
}.

(** [func New(f Func) *Memo] *)
Definition New (f : Func) : Memo := mkMemo f [] ∅.

(** The program points of [Get] between which the mutex is not held, with
    the local variable [e] live there. *)
Inductive Pc : Type :=
| AtLock                 (* 32-40, 46 *)
| AtCall (e : nat)       (* 42 *)
| AtClose (e : nat)      (* 43 *)
| AtWait (e : nat)       (* 47 *)
| AtReturn (e : nat)     (* 50 *)
| Returned (r : result).

(** The memo, the world outside, and the calls of [f] made so far with
    their results (a record of what has happened, not a variable of the
    program). *)
Record State : Type := mkState {
  memo : Memo;
  world : World;
  log : list (string * result)
}.

Definition load_ready (m : Memo) (e : nat) : bool :=
  from_option ready false (heap m !! e).
Definition load_res (m : Memo) (e : nat) : result :=
  from_option res (mkResult zero None) (heap m !! e).

(** One transition of [func (memo *Memo) Get(key string) (interface{}, error)]
    from the program point [pc]; [None] when the call cannot move: it is
    receiving from a channel nobody has closed, or it has returned. *)
Definition Get_step (key : string) (s : State) (pc : Pc)
  : option (State * Pc) :=
  let m := memo s in
  match pc with
  | AtLock =>
    match cache m !! key with
    | None =>
      (* This is the first request for this key *)
      let e := length (heap m) in
      let m := mkMemo (f m) (heap m ++ [mkEntry (mkResult zero None) false])
                      (<[key := e]> (cache m)) in
      Some (mkState m (world s) (log s), AtCall e)
    | Some e =>
      (* This is a repeat request for this key *)
      Some (s, AtWait e)
    end
  | AtCall e =>
    let '(r, w) := f m key (world s) in
    let m := mkMemo (f m) (alter (set_res r) e (heap m)) (cache m) in
    Some (mkState m w (log s ++ [(key, r)]), AtClose e)
  | AtClose e =>
    (* broadcast ready condition *)
    let m := mkMemo (f m) (alter (set_ready true) e (heap m)) (cache m) in
    Some (mkState m (world s) (log s), AtReturn e)
  | AtWait e =>
    (* wait for ready condition *)
    if load_ready m e then Some (s, AtReturn e) else None
  | AtReturn e => Some (s, Returned (load_res m e))
  | Returned _ => None
  end.

(** Goroutines that each call [Get] once: the key and the program point
    of each. *)
Record System : Type := mkSystem {
  state : State;
  calls : list (string * Pc)
}.

(** The scheduler lets call number [i] make its next transition. *)
Definition sys_step (s : System) (i : nat) : System :=
  match calls s !! i with
  | None => s
  | Some (key, pc) =>
    match Get_step key (state s) pc with
    | None => s
    | Some (st, pc') => mkSystem st (<[i := (key, pc')]> (calls s))
    end
  end.

Definition sys_run (s : System) (schedule : list nat) : System :=
  foldl sys_step s schedule.

(** Calls of [Get] on [keys], none of which has started, on a new memo. *)
Definition start (f : Func) (w : World) (keys : list string) : System :=
  mkSystem (mkState (New f) w []) ((λ key, (key, AtLock)) <$> keys).

(** What holds of the call on [key] at [pc]. *)
Definition call_ok (s : State) (key : string) (pc : Pc) : Prop :=
  match pc with
  | AtLock => True
  | AtCall e => cache (memo s) !! key = Some e ∧ key ∉ (log s).*1
  | AtClose e => cache (memo s) !! key = Some e ∧ (key, load_res (memo s) e) ∈ log s
  | AtWait e => cache (memo s) !! key = Some e
  | AtReturn e =>
    cache (memo s) !! key = Some e ∧ (key, load_res (memo s) e) ∈ log s
  | Returned r => (key, r) ∈ log s
  end.

(** The call is the one that computes for its key. *)
Definition owns (pc : Pc) : bool :=
  match pc with AtCall _ | AtClose _ => true | _ => false end.

(** Calling [f] on each of [keys] in turn: the record of the calls and
    the world after. *)
Fixpoint call_each (f : Func) (keys : list string) (w : World)
  : list (string * result) * World :=
  match keys with
  | [] => ([], w)
  | key :: keys =>
    let '(r, w) := f key w in
    let '(rs, w) := call_each f keys w in
    ((key, r) :: rs, w)
  end.

(** What every interleaving keeps, from a new memo of [f0] and the world
    [w0]. *)
Record invariant (f0 : Func) (w0 : World) (s : System) : Prop := mkInvariant {
  inv_f : f (memo (state s)) = f0;
  inv_trace : call_each f0 (log (state s)).*1 w0
              = (log (state s), world (state s));
  inv_allocated : ∀ k e, cache (memo (state s)) !! k = Some e →
                         (e < length (heap (memo (state s))))%nat;
  inv_injective : ∀ k1 k2 e, cache (memo (state s)) !! k1 = Some e →
                             cache (memo (state s)) !! k2 = Some e → k1 = k2;
  inv_log : NoDup (log (state s)).*1;
  inv_logged : ∀ k, k ∈ (log (state s)).*1 →
                    is_Some (cache (memo (state s)) !! k);
  inv_ready : ∀ k e, cache (memo (state s)) !! k = Some e →
                     load_ready (memo (state s)) e = true →
                     (k, load_res (memo (state s)) e) ∈ log (state s);
  inv_unready : ∀ k e, cache (memo (state s)) !! k = Some e →
                       load_ready (memo (state s)) e = false →
                       ∃ i pc, calls s !! i = Some (k, pc) ∧ owns pc = true;
  inv_calls : ∀ i k pc, calls s !! i = Some (k, pc) →
                        call_ok (state s) k pc;
  inv_owner : ∀ i1 i2 k pc1 pc2,
      calls s !! i1 = Some (k, pc1) → calls s !! i2 = Some (k, pc2) →
      owns pc1 = true → owns pc2 = true → i1 = i2;
  inv_requested : ∀ k e, cache (memo (state s)) !! k = Some e →
                         k ∈ (calls s).*1
}.

End definitions.
End memo4.


(** A [Func] for the examples: the length of the key, an error on the
    empty key; the world counts the calls. *)
Module MemoScenario.

Definition lengths : memo4.Func (Val:=Z) (Err:=string) (World:=nat) :=
  λ key w,
    (memo4.mkResult (Z.of_nat (String.length key))
                    (if decide (key = "") then Some "empty key" else None),
     S w).

End MemoScenario.


(** Closed decidable facts, by evaluation. *)
Ltac by_evaluation := apply (bool_decide_unpack _); vm_compute; exact I.

(** * Properties *)

Section basics.

Context {K : Type} `{Countable K} `{!Zero K}.
Context {V : Type} `{!Zero V}.
Context {Err : Type}.

Implicit Types (c : Cache (K:=K) (V:=V)) (p q entry : ptr) (key : K).

Lemma load_value_payload c p :
  load_value c p = from_option (λ x, x.1.1) zero (payload c p).
Proof. unfold load_value, payload. by destruct (heap c !! p). Qed.

Lemma load_expiresAt_payload c p :
  load_expiresAt c p = from_option (λ x, x.1.2) 0 (payload c p).
Proof. unfold load_expiresAt, payload. by destruct (heap c !! p). Qed.

Lemma load_ready_payload c p :
  load_ready c p = from_option (λ x, x.2) false (payload c p).
Proof. unfold load_ready, payload. by destruct (heap c !! p). Qed.

Lemma expired_payload c c' p now :
  payload c' p = payload c p → expired c' p now = expired c p now.
Proof. intros E. unfold expired. by rewrite !load_expiresAt_payload, E. Qed.

Lemma payload_store_link c q f p :
  (∀ e, value (f e) = value e ∧ expiresAt (f e) = expiresAt e
        ∧ ready (f e) = ready e) →
  payload (store q f c) p = payload c p.
Proof.
  intros Hf. unfold payload, store; simpl. rewrite lookup_alter.
  case_decide as Hq; [subst q|done].
  destruct (heap c !! p) as [e|]; simpl; [|done].
  destruct (Hf e) as (-> & -> & ->). done.
Qed.

Lemma payload_store_prev c q x p :
  payload (store q (set_prev x) c) p = payload c p.
Proof. by apply payload_store_link. Qed.

Lemma payload_store_next c q x p :
  payload (store q (set_next x) c) p = payload c p.
Proof. by apply payload_store_link. Qed.

Lemma payload_detach c entry p : payload (detach entry c) p = payload c p.
Proof.
  unfold detach.
  destruct (load_prev c entry) as [q|];
    destruct (load_next _ entry) as [r|];
    by rewrite ?payload_store_prev, ?payload_store_next.
Qed.

Lemma items_detach c entry : items (detach entry c) = items c.
Proof.
  unfold detach.
  by destruct (load_prev c entry); destruct (load_next _ entry).
Qed.

Lemma brk_detach c entry : brk (detach entry c) = brk c.
Proof.
  unfold detach.
  by destruct (load_prev c entry); destruct (load_next _ entry).
Qed.

Lemma capacity_detach c entry : capacity (detach entry c) = capacity c.
Proof.
  unfold detach.
  by destruct (load_prev c entry); destruct (load_next _ entry).
Qed.

Lemma payload_unlink c entry p : payload (unlink entry c) p = payload c p.
Proof.
  unfold unlink. repeat case_decide; simpl; apply payload_detach.
Qed.

Lemma items_unlink c entry : items (unlink entry c) = items c.
Proof. unfold unlink. repeat case_decide; simpl; apply items_detach. Qed.

Lemma payload_remove_from_position c entry p :
  payload (remove_from_position entry c) p = payload c p.
Proof.
  unfold remove_from_position. case_decide; apply payload_detach.
Qed.

Lemma items_remove_from_position c entry :
  items (remove_from_position entry c) = items c.
Proof. unfold remove_from_position. case_decide; apply items_detach. Qed.

Lemma capacity_remove_from_position c entry :
  capacity (remove_from_position entry c) = capacity c.
Proof. unfold remove_from_position. case_decide; apply capacity_detach. Qed.

Lemma brk_remove_from_position c entry :
  brk (remove_from_position entry c) = brk c.
Proof. unfold remove_from_position. case_decide; apply brk_detach. Qed.

Lemma payload_add_to_front c entry p :
  payload (add_to_front entry c) p = payload c p.
Proof.
  unfold add_to_front.
  set (c3 := store entry (set_next _) _).
  assert (payload c3 p = payload c p) as <-.
  { subst c3. by rewrite payload_store_next, payload_store_prev. }
  set (c4 := match head c3 with Some _ => _ | None => _ end).
  assert (payload c4 p = payload c3 p) as <-.
  { subst c4. destruct (head c3); [apply payload_store_prev|done]. }
  destruct (tail (set_head _ c4)); reflexivity.
Qed.

Lemma items_add_to_front c entry : items (add_to_front entry c) = items c.
Proof.
  unfold add_to_front.
  set (c3 := store entry (set_next _) _).
  set (c4 := match head c3 with Some _ => _ | None => _ end).
  assert (items c4 = items c) as <-.
  { subst c4. by destruct (head c3). }
  destruct (tail (set_head _ c4)); reflexivity.
Qed.

Lemma capacity_add_to_front c entry :
  capacity (add_to_front entry c) = capacity c.
Proof.
  unfold add_to_front.
  set (c3 := store entry (set_next _) _).
  set (c4 := match head c3 with Some _ => _ | None => _ end).
  assert (capacity c4 = capacity c) as <-.
  { subst c4. by destruct (head c3). }
  destruct (tail (set_head _ c4)); reflexivity.
Qed.

Lemma brk_add_to_front c entry : brk (add_to_front entry c) = brk c.
Proof.
  unfold add_to_front.
  set (c3 := store entry (set_next _) _).
  set (c4 := match head c3 with Some _ => _ | None => _ end).
  assert (brk c4 = brk c) as <-.
  { subst c4. by destruct (head c3). }
  destruct (tail (set_head _ c4)); reflexivity.
Qed.

Lemma payload_moveToFront c entry p :
  payload (moveToFront entry c) p = payload c p.
Proof.
  unfold moveToFront. case_decide; [done|].
  by rewrite payload_add_to_front, payload_remove_from_position.
Qed.

Lemma items_moveToFront c entry : items (moveToFront entry c) = items c.
Proof.
  unfold moveToFront. case_decide; [done|].
  by rewrite items_add_to_front, items_remove_from_position.
Qed.

Lemma capacity_moveToFront c entry :
  capacity (moveToFront entry c) = capacity c.
Proof.
  unfold moveToFront. case_decide; [done|].
  by rewrite capacity_add_to_front, capacity_remove_from_position.
Qed.

Lemma brk_moveToFront c entry : brk (moveToFront entry c) = brk c.
Proof.
  unfold moveToFront. case_decide; [done|].
  by rewrite brk_add_to_front, brk_remove_from_position.
Qed.

Lemma payload_removeTail c p : payload (removeTail c) p = payload c p.
Proof.
  unfold removeTail. destruct (tail c) as [t|]; [|done].
  set (c1 := set_items _ c).
  set (c2 := match load_prev c1 t with Some _ => _ | None => _ end).
  assert (payload c2 p = payload c p) as <-.
  { subst c2. destruct (load_prev c1 t); [rewrite payload_store_next|];
    reflexivity. }
  simpl. destruct (load_prev c2 t); reflexivity.
Qed.

Lemma payload_evict_if_full c p : payload (evict_if_full c) p = payload c p.
Proof. unfold evict_if_full. case_decide; [apply payload_removeTail|done]. Qed.

End basics.

Section lists.
Context {K : Type} `{Countable K} `{!Zero K}.
Context {V : Type} `{!Zero V}.
Context {Err : Type}.
Implicit Types (c : Cache (K:=K) (V:=V)) (p q entry : ptr) (key : K).
Implicit Types (h : gmap ptr (CacheEntry (V:=V))) (l : list ptr).

Lemma linked_ext h h' before l after :
  (∀ p, p ∈ l → prev <$> h' !! p = prev <$> h !! p
                ∧ next <$> h' !! p = next <$> h !! p) →
  linked h before l after → linked h' before l after.
Proof.
  revert before. induction l as [|p l IH]; intros before Hext; [done|].
  simpl. intros (Hp & Hn & Hl).
  destruct (Hext p) as [-> ->]; [left|].
  split_and!; [done..|]. apply IH; [|done].
  intros q Hq. apply Hext. by right.
Qed.

Lemma linked_app h before l1 l2 after :
  linked h before (l1 ++ l2) after ↔
  linked h before l1 (first_or l2 after) ∧ linked h (last_or before l1) l2 after.
Proof.
  revert before. induction l1 as [|p l1 IH]; intros before; simpl.
  - unfold last_or. simpl. tauto.
  - rewrite IH.
    assert (first_or (l1 ++ l2) after = first_or l1 (first_or l2 after)) as ->.
    { by destruct l1. }
    assert (last_or before (p :: l1) = last_or (Some p) l1) as ->.
    { unfold last_or. rewrite last_cons. by destruct (last l1). }
    tauto.
Qed.


Lemma prev_alter_next h q x p :
  prev <$> alter (set_next x) q h !! p = prev <$> h !! p.
Proof.
  rewrite lookup_alter. case_decide; [subst|done]. by destruct (h !! p).
Qed.

Lemma next_alter_prev h q x p :
  next <$> alter (set_prev x) q h !! p = next <$> h !! p.
Proof.
  rewrite lookup_alter. case_decide; [subst|done]. by destruct (h !! p).
Qed.

Lemma next_alter_next_ne h q x p :
  q ≠ p → next <$> alter (set_next x) q h !! p = next <$> h !! p.
Proof. intros. by rewrite lookup_alter_ne. Qed.

Lemma prev_alter_prev_ne h q x p :
  q ≠ p → prev <$> alter (set_prev x) q h !! p = prev <$> h !! p.
Proof. intros. by rewrite lookup_alter_ne. Qed.

Lemma next_alter_next_eq h q x y :
  next <$> h !! q = Some y → next <$> alter (set_next x) q h !! q = Some x.
Proof. rewrite lookup_alter_eq. by destruct (h !! q). Qed.

Lemma prev_alter_prev_eq h q x y :
  prev <$> h !! q = Some y → prev <$> alter (set_prev x) q h !! q = Some x.
Proof. rewrite lookup_alter_eq. by destruct (h !! q). Qed.

Lemma load_prev_linked c p x : prev <$> heap c !! p = Some x → load_prev c p = x.
Proof. unfold load_prev. destruct (heap c !! p); simpl; congruence. Qed.

Lemma load_next_linked c p x : next <$> heap c !! p = Some x → load_next c p = x.
Proof. unfold load_next. destruct (heap c !! p); simpl; congruence. Qed.

(** Storing through an address that is not in the chain leaves it linked. *)
Lemma linked_alter_notin h f q before l after :
  q ∉ l → linked h before l after → linked (alter f q h) before l after.
Proof.
  intros Hq. apply linked_ext. intros p Hp.
  assert (q ≠ p) by (intros ->; done). by rewrite lookup_alter_ne.
Qed.

(** [q.next = x] for the last entry [q] of a chain. *)
Lemma linked_set_next_last h before l q after x :
  q ∉ l → linked h before (l ++ [q]) after →
  linked (alter (set_next x) q h) before (l ++ [q]) x.
Proof.
  intros Hq. rewrite !linked_app. simpl. intros (Hl & Hp & Hn & _).
  split; [by apply linked_alter_notin|].
  split_and!; [by rewrite prev_alter_next|by eapply next_alter_next_eq|done].
Qed.

(** [r.prev = x] for the first entry [r] of a chain. *)
Lemma linked_set_prev_first h before r l after x :
  r ∉ l → linked h before (r :: l) after →
  linked (alter (set_prev x) r h) x (r :: l) after.
Proof.
  intros Hr. simpl. intros (Hp & Hn & Hl).
  split_and!; [by eapply prev_alter_prev_eq|by rewrite next_alter_prev|].
  by apply linked_alter_notin.
Qed.


Lemma last_or_None l : last_or None l = last l.
Proof. unfold last_or. by destruct (last l). Qed.

Lemma first_or_None l : first_or l None = hd_error l.
Proof. by destruct l. Qed.

Lemma heap_store c q f : heap (store q f c) = alter f q (heap c).
Proof. done. Qed.

Lemma load_prev_store_ne c q f p :
  q ≠ p → load_prev (store q f c) p = load_prev c p.
Proof. intros. unfold load_prev. by rewrite heap_store, lookup_alter_ne. Qed.

Lemma load_next_store_ne c q f p :
  q ≠ p → load_next (store q f c) p = load_next c p.
Proof. intros. unfold load_next. by rewrite heap_store, lookup_alter_ne. Qed.

(** Taking [p] out of its neighbours' links chains the rest of the list,
    and leaves the links of [p] itself as they were. *)
Lemma detach_linked c l1 p l2 :
  NoDup (l1 ++ p :: l2) →
  linked (heap c) None (l1 ++ p :: l2) None →
  linked (heap (detach p c)) None (l1 ++ l2) None
  ∧ load_prev (detach p c) p = last l1
  ∧ load_next (detach p c) p = hd_error l2.
Proof.
  intros Hnd Hl.
  apply NoDup_app in Hnd as (Hnd1 & Hdisj & [Hp2 Hnd2]%NoDup_cons).
  assert (p ∉ l1) as Hp1 by (intros Hin; apply (Hdisj p Hin); left).
  apply linked_app in Hl as (Hl1 & Hp & Hn & Hl2). simpl in Hl1.
  rewrite last_or_None in Hp. rewrite first_or_None in Hn.
  apply load_prev_linked in Hp as Hp'. apply load_next_linked in Hn as Hn'.
  unfold detach. rewrite Hp', Hn'.
  destruct (last l1) as [q|] eqn:Hlast.
  - apply last_Some in Hlast as [l1' ->].
    assert (q ≠ p) as Hqp.
    { intros ->. apply Hp1, elem_of_app. right. left. }
    assert (q ∉ l1') as Hq1.
    { apply NoDup_app in Hnd1 as (_ & Hd & _).
      intros Hin. apply (Hd q Hin). left. }
    assert (q ∉ l2) as Hq2.
    { intros Hin. apply (Hdisj q); [apply elem_of_app; right; left|by right]. }
    set (c1 := store q _ c).
    assert (load_prev c1 p = Some q) as Hp1'.
    { subst c1. by rewrite load_prev_store_ne. }
    assert (load_next c1 p = hd_error l2) as Hn1'.
    { subst c1. by rewrite load_next_store_ne. }
    assert (linked (heap c1) None (l1' ++ [q]) (hd_error l2)) as Hl1'.
    { subst c1. rewrite heap_store. by eapply linked_set_next_last. }
    assert (linked (heap c1) (Some p) l2 None) as Hl2'.
    { subst c1. rewrite heap_store. by apply linked_alter_notin. }
    rewrite Hn1'.
    destruct l2 as [|r l2]; cbn [hd_error].
    + by rewrite app_nil_r.
    + rewrite Hp1'.
      assert (r ≠ p) as Hrp by (intros ->; apply Hp2; left).
      assert (r ∉ l1' ++ [q]) as Hr1.
      { intros Hin. apply (Hdisj r Hin). right. left. }
      apply NoDup_cons in Hnd2 as [Hr2 _].
      rewrite load_prev_store_ne, load_next_store_ne by done.
      split_and!; [|done..].
      apply linked_app. rewrite heap_store. split.
      * by apply linked_alter_notin.
      * unfold last_or. rewrite last_snoc.
        by eapply linked_set_prev_first.
  - apply last_None in Hlast as ->. rewrite app_nil_l.
    rewrite Hn'.
    destruct l2 as [|r l2]; cbn [hd_error].
    + done.
    + rewrite Hp'.
      assert (r ≠ p) as Hrp by (intros ->; apply Hp2; left).
      apply NoDup_cons in Hnd2 as [Hr2 _].
      rewrite load_prev_store_ne, load_next_store_ne by done.
      split_and!; [|done..].
      rewrite heap_store. by eapply (linked_set_prev_first _ _ _ _ _ None).
Qed.


Lemma head_detach c entry : head (detach entry c) = head c.
Proof.
  unfold detach.
  by destruct (load_prev c entry); destruct (load_next _ entry).
Qed.

Lemma tail_detach c entry : tail (detach entry c) = tail c.
Proof.
  unfold detach.
  by destruct (load_prev c entry); destruct (load_next _ entry).
Qed.

Lemma heap_unlink c entry : heap (unlink entry c) = heap (detach entry c).
Proof. unfold unlink. by repeat case_decide. Qed.

Lemma brk_unlink c entry : brk (unlink entry c) = brk c.
Proof. unfold unlink. repeat case_decide; simpl; apply brk_detach. Qed.

(** The four statements of [Delete] and [Cleanup] take [p] out of the
    recency list and keep the order of the others. *)
Lemma unlink_is_list c l1 p l2 :
  is_list c (l1 ++ p :: l2) → is_list (unlink p c) (l1 ++ l2).
Proof.
  intros [Hnd Hh Ht Hl Ha].
  destruct (detach_linked c l1 p l2 Hnd Hl) as (Hl' & Hp & Hn).
  pose proof Hnd as Hnd'.
  apply NoDup_app in Hnd' as (Hnd1 & Hdisj & [Hp2 Hnd2]%NoDup_cons).
  assert (p ∉ l1) as Hp1 by (intros Hin; apply (Hdisj p Hin); left).
  split.
  - apply NoDup_app. split_and!; [done| |done].
    intros x Hx1 Hx2. apply (Hdisj x Hx1). by right.
  - unfold unlink. rewrite head_detach, Hh.
    set (c2 := if decide (Some p = hd_error (l1 ++ p :: l2)) then _ else _).
    assert (head c2 = hd_error (l1 ++ l2)) as Hc2.
    { subst c2. destruct l1 as [|q l1]; simpl.
      - rewrite decide_True by done. simpl. by rewrite Hn.
      - rewrite decide_False; [by rewrite head_detach, Hh|].
        intros [= ->]. apply Hp1. left. }
    by case_decide.
  - unfold unlink.
    set (c2 := if decide (Some p = head (detach p c)) then _ else _).
    assert (tail c2 = tail c) as Ht2.
    { subst c2. case_decide; simpl; apply tail_detach. }
    assert (load_prev c2 p = last l1) as Hp'.
    { subst c2. by case_decide. }
    rewrite Ht2, Ht, last_app_cons, last_cons.
    destruct (last l2) as [x|] eqn:Hlast.
    + rewrite decide_False.
      * by rewrite Ht2, Ht, last_app_cons, last_cons, last_app, Hlast.
      * intros [= ->]. apply Hp2. by eapply last_Some_elem_of.
    + rewrite decide_True by done. simpl.
      by rewrite Hp', last_app, Hlast.
  - by rewrite heap_unlink.
  - rewrite brk_unlink. rewrite Forall_app, Forall_cons in Ha.
    apply Forall_app. tauto.
Qed.


Lemma filter_ext_in (P Q : ptr → Prop) `{!∀ x, Decision (P x)}
    `{!∀ x, Decision (Q x)} l :
  (∀ x, x ∈ l → P x ↔ Q x) → filter P l = filter Q l.
Proof.
  induction l as [|x l IH]; intros HPQ; [done|].
  rewrite !filter_cons.
  rewrite IH by (intros y Hy; apply HPQ; by right).
  destruct (decide (P x)) as [HP|HP], (decide (Q x)) as [HQ|HQ]; try done;
    exfalso; apply (HPQ x) in HP || apply (HPQ x) in HQ; try done; left.
Qed.

Lemma filter_all (P : ptr → Prop) `{!∀ x, Decision (P x)} l :
  (∀ x, x ∈ l → P x) → filter P l = l.
Proof.
  induction l as [|x l IH]; intros HP; [done|].
  rewrite filter_cons_True by (apply HP; left).
  f_equal. apply IH. intros y Hy. apply HP. by right.
Qed.

(** The recency list read off the heap is the list of [is_list]. *)
Lemma NoDup_bounded_length l n :
  NoDup l → Forall (λ p, (p < n)%nat) l → (length l ≤ n)%nat.
Proof.
  intros Hnd Hb.
  assert (l ⊆+ seq 0 n) as Hsub.
  { apply NoDup_submseteq; [done|]. intros x Hx.
    rewrite Forall_forall in Hb. apply elem_of_seq. specialize (Hb x Hx). lia. }
  apply submseteq_length in Hsub. by rewrite length_seq in Hsub.
Qed.

Lemma walk_next_linked c before l fuel :
  linked (heap c) before l None → (length l ≤ fuel)%nat →
  walk load_next c fuel (first_or l None) = l.
Proof.
  revert before fuel. induction l as [|p l IH]; intros before fuel Hl Hlen.
  - by destruct fuel.
  - destruct fuel as [|fuel]; [simpl in Hlen; lia|].
    destruct Hl as (_ & Hn & Hl). simpl. f_equal.
    rewrite (load_next_linked _ _ _ Hn). eapply IH; [done|].
    simpl in Hlen. lia.
Qed.

Lemma is_list_recency c l : is_list c l → recency c = l.
Proof.
  intros [Hnd Hh Ht Hl Ha]. unfold recency. rewrite Hh, <- first_or_None.
  eapply walk_next_linked; [done|]. by apply NoDup_bounded_length.
Qed.


Lemma filter_remove_middle (P : ptr → Prop) `{!∀ x, Decision (P x)} l1 p l2 :
  ¬ P p → filter P (l1 ++ p :: l2) = filter P (l1 ++ l2).
Proof. intros HP. by rewrite !filter_app, filter_cons_False. Qed.

(** One iteration of [Cleanup] that removes [key]. *)
Lemma Cleanup_remove_wf c l key p :
  well_formed c l → items c !! key = Some p →
  ∃ l1 l2, l = l1 ++ p :: l2 ∧
    well_formed (set_items (delete key (items c)) (unlink p c)) (l1 ++ l2).
Proof.
  intros [Hlist Hidx Hinj] Hkey.
  destruct (list_elem_of_split l p) as (l1 & l2 & ->); [by eapply Hidx|].
  exists l1, l2. split; [done|].
  pose proof (list_nodup _ _ Hlist) as Hnd.
  apply unlink_is_list in Hlist as [Hnd' Hh Ht Hl Ha].
  split; [by split| |]; simpl.
  - intros k q [Hk Hq]%lookup_delete_Some.
    specialize (Hidx k q Hq).
    apply elem_of_app in Hidx as [Hin|[->|Hin]%elem_of_cons];
      [apply elem_of_app; by left| |apply elem_of_app; by right].
    destruct Hk. by eapply Hinj.
  - intros k1 k2 q [_ Hq1]%lookup_delete_Some [_ Hq2]%lookup_delete_Some.
    by eapply Hinj.
Qed.

Lemma Cleanup_visit_unfold now c key :
  Cleanup_visit now c key =
  match items c !! key with
  | Some p => if expired c p now
              then set_items (delete key (items c)) (unlink p c) else c
  | None => c
  end.
Proof. done. Qed.

(** [Cleanup], whatever the order of the iteration: the keys removed are
    those of the iteration whose entry has expired, the recency list loses
    their entries and keeps the order of the others, and no payload
    changes. *)
Lemma Cleanup_in_spec now order :
  ∀ c l (P : ptr → Prop) `{!∀ x, Decision (P x)},
  NoDup order → well_formed c l →
  (∀ p, p ∈ l →
     P p ↔ ¬ ∃ k, k ∈ order ∧ items c !! k = Some p ∧ expired c p now) →
  well_formed (Cleanup_in now order c) (filter P l)
  ∧ (∀ k p, items (Cleanup_in now order c) !! k = Some p ↔
            items c !! k = Some p ∧ ¬ (k ∈ order ∧ expired c p now))
  ∧ (∀ p, payload (Cleanup_in now order c) p = payload c p).
Proof.
  induction order as [|key order IH]; intros c l P HdecP Hnd Hwf HP.
  - simpl. rewrite filter_all.
    + split_and!; [done| |done]. intros k p. rewrite elem_of_nil. tauto.
    + intros p Hp. apply HP; [done|]. intros (k & []%elem_of_nil & _).
  - apply NoDup_cons in Hnd as [Hkey Hnd].
    unfold Cleanup_in. simpl. fold (Cleanup_in now order (Cleanup_visit now c key)).
    rewrite Cleanup_visit_unfold.
    destruct (items c !! key) as [p|] eqn:Hlook;
      [destruct (expired c p now) eqn:Hexp|].
    + (* the entry of [key] has expired *)
      destruct (Cleanup_remove_wf c l key p Hwf Hlook) as (l1 & l2 & -> & Hwf').
      set (c1 := set_items _ _) in *.
      assert (∀ q, payload c1 q = payload c q) as Hpay.
      { intros q. subst c1. unfold payload. simpl. apply payload_unlink. }
      assert (p ∉ l1 ++ l2) as Hp.
      { pose proof (list_nodup _ _ (wf_list _ _ Hwf)) as Hnd0.
        apply NoDup_app in Hnd0 as (_ & Hd & [Hp2 _]%NoDup_cons).
        intros [Hin|Hin]%elem_of_app; [apply (Hd p Hin); left|done]. }
      destruct (IH c1 (l1 ++ l2) P _ Hnd Hwf') as (IH1 & IH2 & IH3).
      { intros q Hq. rewrite HP
          by (apply elem_of_app in Hq as [?|?]; apply elem_of_app;
              [by left|right; by right]).
        apply not_iff_compat. split.
        - intros (k & [->|Hk]%elem_of_cons & Hkq & He).
          + exfalso. rewrite Hlook in Hkq. by simplify_eq.
          + exists k. split_and!; [done| |by rewrite (expired_payload c)].
            subst c1; simpl. apply lookup_delete_Some. split; [|done].
            by intros ->.
        - intros (k & Hk & Hkq & He). subst c1; simpl in Hkq.
          apply lookup_delete_Some in Hkq as [_ Hkq].
          exists k. rewrite (expired_payload c) in He by done.
          split_and!; [by right|done..]. }
      rewrite filter_remove_middle.
      2:{ rewrite HP by (apply elem_of_app; right; left).
          intros Hno. apply Hno. exists key. rewrite Hexp.
          split_and!; [left|done..]. }
      split_and!; [done| |].
      * intros k q. rewrite IH2. subst c1; simpl.
        rewrite lookup_delete_Some, (expired_payload c) by done.
        rewrite elem_of_cons. split.
        -- intros [[Hk Hq] Hno]. split; [done|]. intros [[->|Hin] He]; tauto.
        -- intros [Hq Hno]. split_and!.
           ++ intros ->. rewrite Hlook in Hq. simplify_eq. apply Hno.
              rewrite Hexp. split; [by left|done].
           ++ done.
           ++ intros [Hin He]. apply Hno. split; [by right|done].
      * intros q. by rewrite IH3.
    + (* not expired *)
      destruct (IH c l P _ Hnd Hwf) as (IH1 & IH2 & IH3).
      { intros q Hq. rewrite HP by done. apply not_iff_compat. split.
        - intros (k & [->|Hk]%elem_of_cons & Hkq & He).
          + exfalso. rewrite Hlook in Hkq. simplify_eq.
            rewrite Hexp in He. done.
          + by exists k.
        - intros (k & Hk & Hkq & He). exists k. split_and!; [by right|done..]. }
      split_and!; [done| |done].
      intros k q. rewrite IH2, elem_of_cons. split.
      * intros [Hq Hno]. split; [done|]. intros [[->|Hin] He]; [|tauto].
        rewrite Hlook in Hq. simplify_eq. rewrite Hexp in He. done.
      * intros [Hq Hno]. split; [done|]. intros [Hin He]. apply Hno. tauto.
    + (* [key] is not in the map *)
      destruct (IH c l P _ Hnd Hwf) as (IH1 & IH2 & IH3).
      { intros q Hq. rewrite HP by done. apply not_iff_compat. split.
        - intros (k & [->|Hk]%elem_of_cons & Hkq & He).
          + exfalso. rewrite Hlook in Hkq. done.
          + by exists k.
        - intros (k & Hk & Hkq & He). exists k. split_and!; [by right|done..]. }
      split_and!; [done| |done].
      intros k q. rewrite IH2, elem_of_cons. split.
      * intros [Hq Hno]. split; [done|]. intros [[->|Hin] He]; [|tauto].
        rewrite Hlook in Hq. done.
      * intros [Hq Hno]. split; [done|]. intros [Hin He]. apply Hno. tauto.
Qed.

End lists.

Section wf.
Context {K : Type} `{Countable K} `{!Zero K}.
Context {V : Type} `{!Zero V}.
Context {Err : Type}.
Implicit Types (c : Cache (K:=K) (V:=V)) (p q entry : ptr) (key : K).
Implicit Types (h : gmap ptr (CacheEntry (V:=V))) (l : list ptr).

Lemma linked_cons h before p l after :
  linked h before (p :: l) after ↔
  prev <$> h !! p = Some before ∧ next <$> h !! p = Some (first_or l after)
  ∧ linked h (Some p) l after.
Proof. done. Qed.

(** Adding an entry that is not in the list at its front. *)
Lemma add_to_front_is_list c l p :
  is_list c l → p ∉ l → is_Some (heap c !! p) → (p < brk c)%nat →
  is_list (add_to_front p c) (p :: l).
Proof.
  intros [Hnd Hh Ht Hl Ha] Hp [e He] Hb.
  unfold add_to_front.
  set (c1 := store p (set_prev None) c).
  set (c2 := store p (set_next (head c1)) c1).
  set (c3 := match head c2 with Some _ => _ | None => _ end).
  assert (head c2 = hd_error l) as Hh2 by done.
  assert (prev <$> heap c2 !! p = Some None) as Hp2.
  { unfold c2, c1. rewrite !heap_store, prev_alter_next.
    eapply prev_alter_prev_eq. by rewrite He. }
  assert (next <$> heap c2 !! p = Some (hd_error l)) as Hn2.
  { unfold c2. rewrite heap_store. change (head c1) with (head c). rewrite Hh.
    eapply next_alter_next_eq.
    unfold c1. rewrite heap_store, next_alter_prev. by rewrite He. }
  assert (linked (heap c2) None l None) as Hl2.
  { unfold c2, c1. rewrite !heap_store. by do 2 (apply linked_alter_notin; [done|]). }
  assert (head c3 = hd_error l ∧ tail c3 = last l ∧ brk c3 = brk c
          ∧ linked (heap c3) None (p :: l) None) as (Hh3 & Ht3 & Hb3 & Hl3).
  { unfold c3. rewrite Hh2. destruct l as [|r l]; cbn [hd_error].
    - split_and!; [done..|]. apply linked_cons. by rewrite Hp2, Hn2.
    - split_and!; [done..|]. apply linked_cons. rewrite heap_store.
      split_and!.
      + rewrite prev_alter_prev_ne; [done|]. intros ->. apply Hp. left.
      + by rewrite next_alter_prev.
      + apply NoDup_cons in Hnd as [Hr _].
        by apply (linked_set_prev_first _ None _ _ None (Some p)). }
  change (tail (set_head (Some p) c3)) with (tail c3). rewrite Ht3.
  assert (NoDup (p :: l)) as Hnd' by (by apply NoDup_cons).
  assert (Forall (λ q, (q < brk c3)%nat) (p :: l)) as Ha'.
  { rewrite Hb3. by apply Forall_cons. }
  destruct (last l) as [x|] eqn:Hlast.
  - split; [done|done| |done|done].
    change (tail c3 = last (p :: l)). by rewrite Ht3, last_cons, Hlast.
  - split; [done|done| |done|done].
    change (Some p = last (p :: l)). by rewrite last_cons, Hlast.
Qed.


Lemma is_Some_payload c p : is_Some (payload c p) ↔ is_Some (heap c !! p).
Proof. unfold payload. apply fmap_is_Some. Qed.

Lemma linked_allocated h before l after p :
  linked h before l after → p ∈ l → is_Some (h !! p).
Proof.
  revert before. induction l as [|q l IH]; intros before Hl Hin.
  - by apply elem_of_nil in Hin.
  - destruct Hl as (Hp & _ & Hl).
    apply elem_of_cons in Hin as [->|Hin]; [|by eapply IH].
    destruct (h !! q); [by eexists|done].
Qed.

Lemma head_not_inside l1 p l2 :
  NoDup (l1 ++ p :: l2) → Some p = hd_error (l1 ++ p :: l2) → l1 = [].
Proof.
  destruct l1 as [|q l1]; [done|]. simpl. intros Hnd [= ->].
  apply NoDup_cons in Hnd as [Hq _]. destruct Hq.
  apply elem_of_app. right. left.
Qed.

Lemma remove_from_position_unlink c p :
  Some p ≠ head c → remove_from_position p c = unlink p c.
Proof.
  intros Hp. unfold remove_from_position, unlink.
  by rewrite head_detach, (decide_False (P:=Some p = head c)).
Qed.

(** [moveToFront] on an entry of the list moves it to the front and keeps
    the order of the others. *)
Lemma moveToFront_member c l1 p l2 :
  is_list c (l1 ++ p :: l2) → is_list (moveToFront p c) (p :: l1 ++ l2).
Proof.
  intros Hlist. unfold moveToFront. case_decide as Hhead.
  - rewrite (list_head _ _ Hlist) in Hhead.
    apply head_not_inside in Hhead as ->; [done|apply Hlist].
  - rewrite remove_from_position_unlink by done.
    pose proof (list_nodup _ _ Hlist) as Hnd.
    apply NoDup_app in Hnd as (_ & Hd & [Hp2 _]%NoDup_cons).
    apply add_to_front_is_list.
    + by apply unlink_is_list.
    + intros [Hin|Hin]%elem_of_app; [apply (Hd p Hin); left|done].
    + rewrite <- is_Some_payload, payload_unlink, is_Some_payload.
      eapply linked_allocated; [apply Hlist|].
      apply elem_of_app. right. left.
    + rewrite brk_unlink.
      pose proof (list_alloc _ _ Hlist) as Ha.
      rewrite Forall_app, Forall_cons in Ha. tauto.
Qed.

(** [moveToFront] on a new entry, not yet in the list, adds it at the
    front. *)
Lemma moveToFront_fresh c l p e :
  is_list c l → p ∉ l → heap c !! p = Some e → prev e = None →
  next e = None → (p < brk c)%nat →
  is_list (moveToFront p c) (p :: l).
Proof.
  intros Hlist Hp He Hprev Hnext Hb.
  assert (remove_from_position p c = c) as Hsame.
  { unfold remove_from_position, detach, load_prev, load_next.
    rewrite He; simpl. rewrite Hprev, He; simpl. rewrite Hnext.
    rewrite decide_False; [done|].
    rewrite (list_tail _ _ Hlist). intros Hlast. apply Hp.
    by eapply last_Some_elem_of. }
  unfold moveToFront. rewrite decide_False.
  - rewrite Hsame. by apply add_to_front_is_list.
  - rewrite (list_head _ _ Hlist). intros Hhead. apply Hp.
    by eapply head_Some_elem_of.
Qed.


(** The loop of [removeTail] finds the key of [t] when [t] has one. *)
Lemma find_key_spec (m : gmap K ptr) t k :
  m !! k = Some t → m !! find_key (map_to_list m) t = Some t.
Proof.
  intros Hk. unfold find_key.
  destruct (list_find _ _) as [[i [k' t']]|] eqn:Hfind.
  - apply list_find_Some in Hfind as (Hi & Ht & _). simpl in Ht. subst t'.
    apply elem_of_map_to_list. by eapply list_elem_of_lookup_2.
  - apply list_find_None in Hfind. rewrite Forall_forall in Hfind.
    destruct (Hfind (k, t)); [by apply elem_of_map_to_list|done].
Qed.

(** When no two keys share an entry, the key found does not depend on the
    order in which [range] produces the pairs. *)
Lemma find_key_any_order (m : gmap K ptr) t kvs :
  (∀ k1 k2 p, m !! k1 = Some p → m !! k2 = Some p → k1 = k2) →
  kvs ≡ₚ map_to_list m → find_key kvs t = find_key (map_to_list m) t.
Proof.
  intros Hinj Hperm. unfold find_key.
  destruct (list_find _ kvs) as [[i [k1 t1]]|] eqn:Hfind1;
    destruct (list_find _ (map_to_list m)) as [[j [k2 t2]]|] eqn:Hfind2.
  - apply list_find_Some in Hfind1 as (Hi & Ht1 & _).
    apply list_find_Some in Hfind2 as (Hj & Ht2 & _).
    simpl in *. subst t1 t2.
    apply list_elem_of_lookup_2 in Hi, Hj. rewrite Hperm in Hi.
    apply elem_of_map_to_list in Hi, Hj. by eapply Hinj.
  - apply list_find_Some in Hfind1 as (Hi & Ht1 & _).
    apply list_find_None in Hfind2. rewrite Forall_forall in Hfind2.
    apply list_elem_of_lookup_2 in Hi. rewrite Hperm in Hi.
    by destruct (Hfind2 _ Hi).
  - apply list_find_Some in Hfind2 as (Hj & Ht2 & _).
    apply list_find_None in Hfind1. rewrite Forall_forall in Hfind1.
    apply list_elem_of_lookup_2 in Hj. rewrite <- Hperm in Hj.
    by destruct (Hfind1 _ Hj).
  - done.
Qed.

Lemma removeTail_wf c l :
  well_formed c l →
  (l = [] ∧ removeTail c = c) ∨
  (∃ l' t, l = l' ++ [t] ∧ tail c = Some t ∧ well_formed (removeTail c) l').
Proof.
  intros [[Hnd Hh Ht Hl Ha] Hidx Hinj]. unfold removeTail.
  destruct (tail c) as [t|] eqn:Htail.
  - right. symmetry in Ht. apply last_Some in Ht as [l' ->].
    exists l', t. split_and!; [done..|].
    set (key := find_key _ t).
    set (c1 := set_items _ c).
    apply NoDup_app in Hnd as (Hnd' & Hd & _).
    assert (t ∉ l') as Ht by (intros Hin; apply (Hd t Hin); left).
    apply linked_app in Hl as (Hl1 & Hp & Hn & _).
    rewrite last_or_None in Hp.
    assert (load_prev c1 t = last l') as Hprev by (by apply load_prev_linked).
    rewrite Hprev.
    set (c2 := match last l' with Some _ => _ | None => _ end).
    assert (load_prev c2 t = last l' ∧ head c2 = head c ∧ brk c2 = brk c
            ∧ items c2 = delete key (items c)
            ∧ linked (heap c2) None l' None) as (Hprev2 & Hh2 & Hb2 & Hi2 & Hl2).
    { unfold c2. destruct (last l') as [q|] eqn:Hlast.
      - apply last_Some in Hlast as [l'' ->].
        assert (q ≠ t) by (intros ->; apply Ht, elem_of_app; right; left).
        rewrite load_prev_store_ne by done. split_and!; [done..|].
        rewrite heap_store. eapply linked_set_next_last; [|exact Hl1].
        apply NoDup_app in Hnd' as (_ & Hd' & _).
        intros Hin. apply (Hd' q Hin). left.
      - apply last_None in Hlast as ->. by split_and!. }
    rewrite Hprev2.
    assert (∀ k p, delete key (items c) !! k = Some p → p ∈ l') as Hidx'.
    { intros k p [Hk Hkp]%lookup_delete_Some.
      apply Hidx in Hkp as Hin.
      apply elem_of_app in Hin as [Hin|Hin%list_elem_of_singleton]; [done|].
      subst p. destruct Hk. eapply Hinj; [|done].
      by eapply find_key_spec. }
    assert (∀ k1 k2 p, delete key (items c) !! k1 = Some p →
              delete key (items c) !! k2 = Some p → k1 = k2) as Hinj'.
    { intros k1 k2 p [_ H1]%lookup_delete_Some [_ H2]%lookup_delete_Some.
      by eapply Hinj. }
    assert (Forall (λ p, (p < brk c)%nat) l') as Ha'.
    { rewrite Forall_app in Ha. tauto. }
    destruct (last l') as [q|] eqn:Hlast.
    + change (well_formed (set_tail (Some q) c2) l').
      split; [split|..].
      * done.
      * change (head c2 = hd_error l'). rewrite Hh2, Hh. by destruct l'.
      * by rewrite Hlast.
      * done.
      * change (Forall (λ p, (p < brk c2)%nat) l'). by rewrite Hb2.
      * change (∀ k p, items c2 !! k = Some p → p ∈ l'). by rewrite Hi2.
      * change (∀ k1 k2 p, items c2 !! k1 = Some p →
                  items c2 !! k2 = Some p → k1 = k2). by rewrite Hi2.
    + apply last_None in Hlast as ->.
      change (well_formed (set_head None (set_tail None c2)) []).
      split; [split|..]; done.
  - left. symmetry in Ht. by apply last_None in Ht.
Qed.


Lemma removeTail_removelast c l :
  well_formed c l → well_formed (removeTail c) (removelast l).
Proof.
  intros Hwf. destruct (removeTail_wf c l Hwf) as [[-> ->]|(l' & t & -> & _ & ?)].
  - done.
  - by rewrite removelast_last.
Qed.

Lemma brk_removeTail c : brk (removeTail c) = brk c.
Proof.
  unfold removeTail. destruct (tail c) as [t|]; [|done].
  set (c1 := set_items _ c).
  set (c2 := match load_prev c1 t with Some _ => _ | None => _ end).
  assert (brk c2 = brk c) as <-.
  { unfold c2. by destruct (load_prev c1 t). }
  simpl. by destruct (load_prev c2 t).
Qed.

Lemma brk_evict_if_full c : brk (evict_if_full c) = brk c.
Proof. unfold evict_if_full. case_decide; [apply brk_removeTail|done]. Qed.

Lemma evict_if_full_wf c l :
  well_formed c l → well_formed (evict_if_full c) (evicted c l).
Proof.
  intros Hwf. unfold evict_if_full, evicted.
  case_decide; [by apply removeTail_removelast|done].
Qed.

Lemma unallocated_not_in_list c l : is_list c l → brk c ∉ l.
Proof.
  intros Hlist Hin. pose proof (list_alloc _ _ Hlist) as Ha.
  rewrite Forall_forall in Ha. specialize (Ha _ Hin). lia.
Qed.

(** A store through [q] that changes no link keeps the list. *)
Lemma store_payload_wf c l q f :
  (∀ e, prev (f e) = prev e ∧ next (f e) = next e) →
  well_formed c l → well_formed (store q f c) l.
Proof.
  intros Hf [[Hnd Hh Ht Hl Ha] Hidx Hinj].
  split; [split|..]; try done.
  rewrite heap_store. eapply linked_ext; [|exact Hl].
  intros p _. rewrite lookup_alter. case_decide; [subst q|done].
  destruct (heap c !! p) as [e|]; [|done]. simpl.
  destruct (Hf e) as [-> ->]. done.
Qed.

Lemma alloc_wf c l e :
  well_formed c l → well_formed (alloc e c).2 l.
Proof.
  intros [Hlist Hidx Hinj].
  pose proof (unallocated_not_in_list _ _ Hlist) as Hfresh.
  destruct Hlist as [Hnd Hh Ht Hl Ha].
  split; [split|..]; try done; simpl.
  - eapply linked_ext; [|exact Hl]. intros p Hp.
    rewrite lookup_insert_ne; [done|]. intros Heq. by rewrite <- Heq in Hp.
  - eapply Forall_impl; [exact Ha|]. simpl. lia.
Qed.

(** Publishing a new entry under [key] and moving it to the front. *)
Lemma publish_wf c l key p e :
  well_formed c l → p ∉ l → heap c !! p = Some e → prev e = None →
  next e = None → (p < brk c)%nat →
  well_formed (moveToFront p (set_items (<[key := p]> (items c)) c)) (p :: l).
Proof.
  intros [Hlist Hidx Hinj] Hp He Hprev Hnext Hb.
  split.
  - eapply moveToFront_fresh; try done.
    destruct Hlist. by split.
  - rewrite items_moveToFront. simpl.
    intros k q [[-> ->]|[_ Hq]]%lookup_insert_Some; [left|right; by eapply Hidx].
  - rewrite items_moveToFront. simpl.
    intros k1 k2 q [[E1 Hq1]|[Hk1 Hq1]]%lookup_insert_Some
                   [[E2 Hq2]|[Hk2 Hq2]]%lookup_insert_Some.
    + congruence.
    + subst q. destruct Hp. by eapply Hidx.
    + subst q. destruct Hp. by eapply Hidx.
    + by eapply Hinj.
Qed.


Lemma New_wf capacity :
  well_formed (New capacity : Cache (K:=K) (V:=V)) [].
Proof.
  split; [split|..]; try done.
  apply NoDup_nil_2.
Qed.

Lemma Clear_wf c l : well_formed c l → well_formed (Clear c) [].
Proof.
  intros _. split; [split|..]; try done.
  apply NoDup_nil_2.
Qed.

Lemma Set_wf now key v expiration c l :
  well_formed c l →
  well_formed (Set_ now key v expiration c) (brk c :: evicted c l).
Proof.
  intros Hwf. apply evict_if_full_wf in Hwf.
  pose proof (unallocated_not_in_list _ _ (wf_list _ _ Hwf)) as Hfresh.
  unfold Set_. rewrite <- (brk_evict_if_full c).
  set (c1 := evict_if_full c) in *.
  set (e0 := mkEntry v 0 false None None).
  change (alloc e0 c1) with (brk c1, (alloc e0 c1).2).
  cbv beta iota.
  apply (alloc_wf _ _ e0) in Hwf.
  set (c2 := (alloc e0 c1).2) in *.
  set (c3 := if decide (0 < expiration) then _ else c2).
  set (c4 := store (brk c1) (set_ready true) c3).
  assert (∃ e, heap c4 !! brk c1 = Some e ∧ prev e = None ∧ next e = None)
    as (e & He & Hprev & Hnext).
  { unfold c4, c3. case_decide; rewrite !heap_store, ?lookup_alter_eq;
      unfold c2; simpl; rewrite lookup_insert_eq; by eexists. }
  assert (well_formed c4 (evicted c l)) as Hwf4.
  { unfold c4, c3. case_decide; repeat apply store_payload_wf; done. }
  eapply publish_wf; try done.
  unfold c4, c3. case_decide; simpl; lia.
Qed.

Lemma Delete_wf key c l :
  well_formed c l →
  well_formed (Delete key c)
    (match items c !! key with Some p => filter (λ q, q ≠ p) l | None => l end).
Proof.
  intros Hwf. unfold Delete.
  destruct (items c !! key) as [p|] eqn:Hkey; [|done].
  destruct (Cleanup_remove_wf c l key p Hwf Hkey) as (l1 & l2 & -> & Hwf').
  rewrite items_unlink.
  pose proof (list_nodup _ _ (wf_list _ _ Hwf)) as Hnd.
  apply NoDup_app in Hnd as (_ & Hd & [Hp2 _]%NoDup_cons).
  rewrite filter_app, filter_cons_False by (intros Hne; by apply Hne).
  rewrite !filter_all; [done|..].
  - intros x Hx ->. done.
  - intros x Hx ->. apply (Hd p Hx). left.
Qed.

End wf.

Section get.
Context {K : Type} `{Countable K} `{!Zero K}.
Context {V : Type} `{!Zero V}.
Context {Err : Type}.
Implicit Types (c : Cache (K:=K) (V:=V)) (p q entry : ptr) (key : K).
Implicit Types (h : gmap ptr (CacheEntry (V:=V))) (l : list ptr).
Implicit Types (compute : ComputeFn (V:=V) (Err:=Err)).

Lemma Get_run_Finished fuel now key compute c out n :
  Get_run fuel now key compute c (Finished out) n = Done c out n.
Proof. by destruct fuel. Qed.

Lemma Get_run_step fuel now key compute c pc c' pc' n :
  Get_step now key compute c pc = Some (c', pc') →
  Get_run (S fuel) now key compute c pc n
  = Get_run fuel now key compute c' pc' (n + calls_compute compute pc).
Proof.
  destruct pc; cbn [Get_run]; intros Hstep; try by rewrite Hstep.
  discriminate Hstep.
Qed.

Lemma Get_run_blocked fuel now key compute c pc n :
  Get_step now key compute c pc = None → (∀ out, pc ≠ Finished out) →
  Get_run (S fuel) now key compute c pc n = Deadlock c.
Proof.
  destruct pc; cbn [Get_run]; intros Hstep Hpc; try by rewrite Hstep.
  by destruct (Hpc out).
Qed.

Lemma Get_run_miss fuel now key compute c :
  items c !! key = None →
  Get_run (S (S (S (S (S fuel))))) now key compute c AtLookup 0
  = miss_result key compute c.
Proof.
  intros Hkey. unfold miss_result.
  erewrite Get_run_step by (cbn [Get_step]; by rewrite Hkey).
  rewrite (Get_run_step _ _ _ _ _ _ (reserve key c).2
             (AtCompute (reserve key c).1))
    by (cbn [Get_step]; rewrite Hkey; by destruct (reserve key c)).
  destruct (reserve key c) as [entry c1]. cbn [fst snd].
  destruct compute as [[v [err|]]|].
  - do 3 (erewrite Get_run_step by done). apply Get_run_Finished.
  - do 3 (erewrite Get_run_step by done). apply Get_run_Finished.
  - erewrite Get_run_step by done. apply Get_run_Finished.
Qed.

Lemma Get_miss now key compute c :
  items c !! key = None → Get now key compute c = miss_result key compute c.
Proof. apply Get_run_miss. Qed.

(** A hit on an entry that is ready and has not expired. *)
Lemma Get_hit now key compute c p :
  items c !! key = Some p → load_ready c p = true → expired c p now = false →
  Get now key compute c
  = Done (moveToFront p c) (Return (load_value (moveToFront p c) p) None) 0.
Proof.
  intros Hkey Hready Hexp. unfold Get.
  erewrite Get_run_step by (cbn [Get_step]; by rewrite Hkey).
  erewrite Get_run_step by (cbn [Get_step]; by rewrite Hready).
  erewrite Get_run_step by (cbn [Get_step]; by rewrite Hexp).
  do 2 (erewrite Get_run_step by done). apply Get_run_Finished.
Qed.

(** A hit on an entry that is ready and has expired: the key is deleted
    from the index and the call starts again, now missing. *)
Lemma Get_expired now key compute c p :
  items c !! key = Some p → load_ready c p = true → expired c p now = true →
  Get now key compute c
  = miss_result key compute (set_items (delete key (items c)) c).
Proof.
  intros Hkey Hready Hexp. unfold Get.
  erewrite Get_run_step by (cbn [Get_step]; by rewrite Hkey).
  erewrite Get_run_step by (cbn [Get_step]; by rewrite Hready).
  erewrite Get_run_step by (cbn [Get_step]; by rewrite Hexp).
  erewrite Get_run_step by done.
  apply Get_run_miss. simpl. apply lookup_delete_eq.
Qed.

(** A hit on an entry nobody will make ready. *)
Lemma Get_not_ready now key compute c p :
  items c !! key = Some p → load_ready c p = false →
  Get now key compute c = Deadlock c.
Proof.
  intros Hkey Hready. unfold Get.
  erewrite Get_run_step by (cbn [Get_step]; by rewrite Hkey).
  apply Get_run_blocked; [|done]. cbn [Get_step]. by rewrite Hready.
Qed.

(** With no other goroutine, [Get] returns, panics or waits for ever:
    the fuel of [Get] is enough. *)
Lemma Get_fuel_enough now key compute c : Get now key compute c ≠ OutOfFuel.
Proof.
  destruct (items c !! key) as [p|] eqn:Hkey.
  - destruct (load_ready c p) eqn:Hready.
    + destruct (expired c p now) eqn:Hexp.
      * rewrite (Get_expired _ _ _ _ p) by done. unfold miss_result.
        destruct (reserve _ _). by destruct compute as [[v [err|]]|].
      * by rewrite (Get_hit _ _ _ _ p).
    + by rewrite (Get_not_ready _ _ _ _ p).
  - rewrite Get_miss by done. unfold miss_result.
    destruct (reserve _ _). by destruct compute as [[v [err|]]|].
Qed.


(** *** What [reserve] and [Set] leave in the index and in the new entry *)

Lemma reserve_fst key c : (reserve key c).1 = brk c.
Proof. unfold reserve. simpl. apply brk_evict_if_full. Qed.

Lemma reserve_items key c :
  items (reserve key c).2 = <[key := brk c]> (items (evict_if_full c)).
Proof.
  unfold reserve. simpl. by rewrite items_moveToFront, brk_evict_if_full.
Qed.

Lemma reserve_payload key c :
  payload (reserve key c).2 (brk c) = Some (zero, 0, false).
Proof.
  unfold reserve. simpl. rewrite payload_moveToFront, brk_evict_if_full.
  unfold payload. simpl. by rewrite lookup_insert_eq.
Qed.

Lemma reserve_wf key c l :
  well_formed c l → well_formed (reserve key c).2 (brk c :: evicted c l).
Proof.
  intros Hwf. apply evict_if_full_wf in Hwf.
  pose proof (unallocated_not_in_list _ _ (wf_list _ _ Hwf)) as Hfresh.
  unfold reserve. rewrite <- (brk_evict_if_full c).
  set (c1 := evict_if_full c) in *.
  set (e0 := mkEntry zero 0 false None None).
  change (alloc e0 c1) with (brk c1, (alloc e0 c1).2).
  cbv beta iota. cbn [snd].
  apply (alloc_wf _ _ e0) in Hwf.
  eapply (publish_wf _ _ _ _ e0); try done.
  - simpl. apply lookup_insert_eq.
  - simpl. lia.
Qed.

Lemma Set_items now key v expiration c :
  items (Set_ now key v expiration c)
  = <[key := brk c]> (items (evict_if_full c)).
Proof.
  unfold Set_. simpl. rewrite items_moveToFront, brk_evict_if_full.
  by case_decide.
Qed.

Lemma payload_store_eq c p f e :
  heap c !! p = Some e →
  payload (store p f c) p
  = Some (value (f e), expiresAt (f e), ready (f e)).
Proof.
  intros He. unfold payload. by rewrite heap_store, lookup_alter_eq, He.
Qed.

Lemma Set_payload now key v expiration c :
  payload (Set_ now key v expiration c) (brk c)
  = Some (v, if decide (0 < expiration) then now + expiration else 0, true).
Proof.
  unfold Set_. simpl. rewrite payload_moveToFront, brk_evict_if_full.
  unfold payload. simpl.
  case_decide; simpl; rewrite ?lookup_alter_eq, lookup_insert_eq; done.
Qed.

(** *** Entries whose [expiresAt] is the zero time *)

Lemma unset_not_expired c p now x :
  payload c p = Some x → x.1.2 = 0 → expired c p now = false.
Proof.
  intros Hp Hx. unfold expired. rewrite load_expiresAt_payload, Hp. simpl.
  by rewrite Hx.
Qed.

Lemma payload_Cleanup_visit now c key p :
  payload (Cleanup_visit now c key) p = payload c p.
Proof.
  unfold Cleanup_visit. destruct (items c !! key) as [q|]; [|done].
  destruct (expired c q now); [|done].
  unfold payload. simpl. apply payload_unlink.
Qed.

Lemma payload_Cleanup_in now order c p :
  payload (Cleanup_in now order c) p = payload c p.
Proof.
  revert c. induction order as [|k order IH]; intros c; [done|].
  unfold Cleanup_in. simpl. fold (Cleanup_in now order (Cleanup_visit now c k)).
  by rewrite IH, payload_Cleanup_visit.
Qed.

(** [Cleanup] keeps a key whose entry has not expired, whatever the order
    of the iteration. *)
Lemma Cleanup_in_keeps now order c key p :
  items c !! key = Some p → expired c p now = false →
  items (Cleanup_in now order c) !! key = Some p.
Proof.
  revert c. induction order as [|k order IH]; intros c Hkey Hexp; [done|].
  unfold Cleanup_in. simpl. fold (Cleanup_in now order (Cleanup_visit now c k)).
  apply IH.
  - unfold Cleanup_visit. destruct (items c !! k) as [q|] eqn:Hk; [|done].
    destruct (expired c q now) eqn:Hq; [|done]. simpl.
    rewrite lookup_delete_ne; [done|]. intros ->. congruence.
  - rewrite (expired_payload c); [done|]. apply payload_Cleanup_visit.
Qed.


(** *** [Get] keeps the state well formed *)

Lemma delete_index_wf c l key :
  well_formed c l → well_formed (set_items (delete key (items c)) c) l.
Proof.
  intros [Hlist Hidx Hinj]. split; simpl.
  - by destruct Hlist.
  - intros k p [_ Hk]%lookup_delete_Some. by eapply Hidx.
  - intros k1 k2 p [_ H1]%lookup_delete_Some [_ H2]%lookup_delete_Some.
    by eapply Hinj.
Qed.

Lemma moveToFront_wf c l p :
  well_formed c l → p ∈ l →
  well_formed (moveToFront p c) (p :: filter (λ q, q ≠ p) l).
Proof.
  intros [Hlist Hidx Hinj] Hp.
  apply list_elem_of_split in Hp as (l1 & l2 & ->).
  pose proof (list_nodup _ _ Hlist) as Hnd.
  apply NoDup_app in Hnd as (_ & Hd & [Hp2 _]%NoDup_cons).
  rewrite filter_app, filter_cons_False by (intros Hne; by apply Hne).
  rewrite !filter_all.
  - split.
    + by apply moveToFront_member.
    + rewrite items_moveToFront. intros k q Hk. apply Hidx in Hk.
      rewrite elem_of_cons, elem_of_app.
      rewrite elem_of_app, elem_of_cons in Hk. tauto.
    + by rewrite items_moveToFront.
  - intros x Hx ->. done.
  - intros x Hx ->. apply (Hd p Hx). left.
Qed.

Lemma miss_result_wf key compute c l c' out n :
  well_formed c l → miss_result key compute c = Done c' out n →
  well_formed c' (brk c :: evicted c l).
Proof.
  intros Hwf. apply (reserve_wf key) in Hwf. unfold miss_result.
  destruct (reserve key c) as [entry c1]. simpl in Hwf.
  destruct compute as [[v [err|]]|]; intros [= <- _ _].
  - apply store_payload_wf; [done|]. by apply delete_index_wf.
  - by do 2 (apply store_payload_wf; [done|]).
  - done.
Qed.

(** Run alone, [Get] keeps the state well formed. *)
Lemma Get_wf now key compute c l c' out n :
  well_formed c l → Get now key compute c = Done c' out n →
  ∃ l', well_formed c' l'.
Proof.
  intros Hwf.
  destruct (items c !! key) as [p|] eqn:Hkey.
  - destruct (load_ready c p) eqn:Hready.
    + destruct (expired c p now) eqn:Hexp.
      * rewrite (Get_expired _ _ _ _ p) by done. intros Hres.
        eexists. eapply miss_result_wf; [|exact Hres].
        by apply delete_index_wf.
      * rewrite (Get_hit _ _ _ _ p) by done. intros [= <- _ _].
        eexists. apply moveToFront_wf; [done|]. by eapply wf_indexed.
    + by rewrite (Get_not_ready _ _ _ _ p).
  - rewrite Get_miss by done. intros Hres.
    eexists. by eapply miss_result_wf.
Qed.

End get.

Section exact.
Context {K : Type} `{Countable K} `{!Zero K}.
Context {V : Type} `{!Zero V}.
Context {Err : Type}.
Implicit Types (c : Cache (K:=K) (V:=V)) (p q entry : ptr) (key : K).
Implicit Types (h : gmap ptr (CacheEntry (V:=V))) (l : list ptr).
Implicit Types (compute : ComputeFn (V:=V) (Err:=Err)).

Lemma walk_prev_linked c l after fuel :
  linked (heap c) None l after → (length l ≤ fuel)%nat →
  walk load_prev c fuel (last l) = reverse l.
Proof.
  revert after fuel. induction l as [|p l IH] using rev_ind;
    intros after fuel Hl Hlen.
  - by destruct fuel.
  - rewrite length_app in Hlen. simpl in Hlen.
    destruct fuel as [|fuel]; [lia|].
    apply linked_app in Hl as (Hl & Hp & _).
    rewrite last_snoc, reverse_snoc. simpl. f_equal.
    rewrite (load_prev_linked _ _ _ Hp), last_or_None.
    eapply IH; [done|lia].
Qed.

Lemma is_list_recency_back c l : is_list c l → recency_back c = reverse l.
Proof.
  intros [Hnd Hh Ht Hl Ha]. unfold recency_back. rewrite Ht.
  eapply walk_prev_linked; [done|]. by apply NoDup_bounded_length.
Qed.

(** An exact state satisfies the invariant of the recency list. *)
Lemma exact_list_invariant c l : exact c l → list_invariant c.
Proof.
  intros [Hwf Hexact].
  pose proof (is_list_recency _ _ (wf_list _ _ Hwf)) as Hrec.
  pose proof (is_list_recency_back _ _ (wf_list _ _ Hwf)) as Hback.
  destruct Hwf as [[Hnd Hh Ht Hl Ha] Hidx Hinj].
  split; rewrite ?Hrec; try done.
  - intros p. split; [apply Hexact|]. intros [k Hk]. by eapply Hidx.
  - rewrite Hh. apply head_None.
  - rewrite Ht. apply last_None.
Qed.


Lemma items_removeTail c t :
  tail c = Some t →
  items (removeTail c) = delete (find_key (map_to_list (items c)) t) (items c).
Proof.
  intros Ht. unfold removeTail. rewrite Ht.
  set (c1 := set_items _ c).
  set (c2 := match load_prev c1 t with Some _ => _ | None => _ end).
  assert (items c2 = items c1) as Hc2.
  { unfold c2. by destruct (load_prev c1 t). }
  simpl. destruct (load_prev c2 t); simpl; by rewrite Hc2.
Qed.

Lemma capacity_removeTail c : capacity (removeTail c) = capacity c.
Proof.
  unfold removeTail. destruct (tail c) as [t|]; [|done].
  set (c1 := set_items _ c).
  set (c2 := match load_prev c1 t with Some _ => _ | None => _ end).
  assert (capacity c2 = capacity c) as <-.
  { unfold c2. by destruct (load_prev c1 t). }
  simpl. by destruct (load_prev c2 t).
Qed.

Lemma capacity_evict_if_full c : capacity (evict_if_full c) = capacity c.
Proof. unfold evict_if_full. case_decide; [apply capacity_removeTail|done]. Qed.

Lemma capacity_Set now key v expiration c :
  capacity (Set_ now key v expiration c) = capacity c.
Proof.
  unfold Set_. simpl. rewrite capacity_moveToFront. simpl.
  case_decide; simpl; apply capacity_evict_if_full.
Qed.

(** On an exact state [removeTail] takes the tail out of the list and its
    key out of the index. *)
Lemma removeTail_exact c l :
  exact c l → l ≠ [] →
  exact (removeTail c) (removelast l)
  ∧ size (items (removeTail c)) = pred (size (items c))
  ∧ (∀ k, items c !! k = None → items (removeTail c) !! k = None).
Proof.
  intros [Hwf Hexact] Hne.
  destruct (removeTail_wf c l Hwf) as [[-> _]|(l' & t & -> & Htail & Hwf')];
    [done|].
  rewrite removelast_last.
  pose proof (items_removeTail c t Htail) as Hitems.
  set (key := find_key _ t) in Hitems.
  assert (items c !! key = Some t) as Hkey.
  { destruct (Hexact t) as [k Hk]; [apply elem_of_app; right; left|].
    by eapply find_key_spec. }
  pose proof (list_nodup _ _ (wf_list _ _ Hwf)) as Hnd.
  apply NoDup_app in Hnd as (_ & Hd & _).
  split_and!.
  - split; [done|]. intros p Hp.
    destruct (Hexact p) as [k Hk]; [apply elem_of_app; by left|].
    exists k. rewrite Hitems. apply lookup_delete_Some. split; [|done].
    intros <-. rewrite Hkey in Hk. injection Hk as ->.
    apply (Hd p Hp). left.
  - rewrite Hitems. apply map_size_delete_Some. by eexists.
  - intros k Hk. rewrite Hitems. apply lookup_delete_None. by right.
Qed.

Lemma exact_nonempty c l k p : exact c l → items c !! k = Some p → l ≠ [].
Proof.
  intros [Hwf _] Hk ->. apply (wf_indexed _ _ Hwf) in Hk.
  by apply elem_of_nil in Hk.
Qed.

Lemma size_pos_lookup (m : gmap K ptr) :
  (0 < size m)%nat → ∃ k p, m !! k = Some p.
Proof.
  intros Hsize. destruct (map_to_list m) as [|[k p] kvs] eqn:Hlist.
  - apply map_to_list_empty_iff in Hlist as ->. rewrite map_size_empty in Hsize. lia.
  - exists k, p. apply elem_of_map_to_list. rewrite Hlist. left.
Qed.

(** The eviction before an insertion, on an exact state within its
    capacity: the state stays exact and there is room for one entry. *)
Lemma evict_if_full_exact c l :
  exact c l → 0 < capacity c → len_items c ≤ capacity c →
  exact (evict_if_full c) (evicted c l)
  ∧ len_items (evict_if_full c) < capacity c
  ∧ (∀ k, items c !! k = None → items (evict_if_full c) !! k = None).
Proof.
  intros Hexact Hcap Hsize. unfold evict_if_full, evicted, len_items in *.
  case_decide as Hfull; [|split_and!; [done|lia|done]].
  destruct (size_pos_lookup (items c)) as (k & p & Hk); [lia|].
  destruct (removeTail_exact c l Hexact) as (Hexact' & Hsize' & Hnone).
  { by eapply exact_nonempty. }
  split_and!; [done|lia|done].
Qed.

(** Publishing a new entry under a key that is absent keeps the state
    exact and adds one entry to the index. *)
Lemma publish_exact c l key p e :
  exact c l → items c !! key = None → p ∉ l → heap c !! p = Some e →
  prev e = None → next e = None → (p < brk c)%nat →
  exact (moveToFront p (set_items (<[key := p]> (items c)) c)) (p :: l)
  ∧ size (items (moveToFront p (set_items (<[key := p]> (items c)) c)))
    = S (size (items c)).
Proof.
  intros [Hwf Hexact] Hkey Hp He Hprev Hnext Hb. split_and!.
  - split; [by eapply publish_wf|].
    intros q Hq. unfold indexed. rewrite items_moveToFront. simpl.
    apply elem_of_cons in Hq as [->|Hq].
    + exists key. apply lookup_insert_eq.
    + destruct (Hexact q Hq) as [k Hk]. exists k.
      rewrite lookup_insert_ne; [done|]. intros <-. congruence.
  - rewrite items_moveToFront. simpl. by apply map_size_insert_None.
Qed.

(** [Set] on a key that is absent, on an exact state within its capacity,
    leaves an exact state within its capacity. *)
Lemma Set_fresh_exact now key v expiration c l :
  exact c l → 0 < capacity c → len_items c ≤ capacity c →
  items c !! key = None →
  exact (Set_ now key v expiration c) (brk c :: evicted c l)
  ∧ len_items (Set_ now key v expiration c) ≤ capacity c
  ∧ (∀ k, k ≠ key → items c !! k = None →
          items (Set_ now key v expiration c) !! k = None).
Proof.
  intros Hexact Hcap Hsize Hkey.
  destruct (evict_if_full_exact c l Hexact Hcap Hsize)
    as (Hexact1 & Hsize1 & Hnone).
  pose proof (unallocated_not_in_list _ _ (wf_list _ _ (exact_wf _ _ Hexact1)))
    as Hfresh.
  pose proof (Hnone key Hkey) as Hnone_key.
  unfold Set_. rewrite <- (brk_evict_if_full c).
  set (c1 := evict_if_full c) in *.
  set (e0 := mkEntry v 0 false None None).
  change (alloc e0 c1) with (brk c1, (alloc e0 c1).2).
  cbv beta iota.
  set (c2 := (alloc e0 c1).2).
  set (c3 := if decide (0 < expiration) then _ else c2).
  set (c4 := store (brk c1) (set_ready true) c3).
  assert (∃ e, heap c4 !! brk c1 = Some e ∧ prev e = None ∧ next e = None)
    as (e & He & Hprev & Hnext).
  { unfold c4, c3. case_decide; rewrite !heap_store, ?lookup_alter_eq;
      unfold c2; simpl; rewrite lookup_insert_eq; by eexists. }
  assert (items c4 = items c1) as Hitems4.
  { unfold c4, c3. by case_decide. }
  assert (exact c4 (evicted c l)) as Hexact4.
  { destruct Hexact1 as [Hwf1 Hidx1]. split.
    - apply (alloc_wf _ _ e0) in Hwf1.
      unfold c4, c3. case_decide; repeat apply store_payload_wf; done.
    - intros p Hp. destruct (Hidx1 p Hp) as [k Hk]. exists k.
      by rewrite Hitems4. }
  destruct (publish_exact c4 (evicted c l) key (brk c1) e) as [Hex Hsz];
    try done.
  { by rewrite Hitems4. }
  { unfold c4, c3. case_decide; simpl; lia. }
  split_and!; [done| |].
  - unfold len_items in *. rewrite Hsz, Hitems4. lia.
  - intros k Hk Hnone_k. rewrite items_moveToFront.
    change (<[key:=brk c1]> (items c4) !! k = None).
    rewrite lookup_insert_ne by done. rewrite Hitems4. by apply Hnone.
Qed.


Lemma exact_store_payload c l q f :
  (∀ e, prev (f e) = prev e ∧ next (f e) = next e) →
  exact c l → exact (store q f c) l.
Proof.
  intros Hf [Hwf Hidx]. split; [by apply store_payload_wf|done].
Qed.

(** [Get] that misses on an absent key and whose [compute] succeeds, on an
    exact state within its capacity, leaves an exact state within its
    capacity. *)
Lemma Get_fresh_exact now key v c l :
  exact c l → 0 < capacity c → len_items c ≤ capacity c →
  items c !! key = None →
  ∃ c', Get (Err:=Err) now key (Some (v, None)) c = Done c' (Return v None) 1
      ∧ exact c' (brk c :: evicted c l)
      ∧ len_items c' ≤ capacity c
      ∧ capacity c' = capacity c
      ∧ (∀ k, k ≠ key → items c !! k = None → items c' !! k = None).
Proof.
  intros Hexact Hcap Hsize Hkey.
  destruct (evict_if_full_exact c l Hexact Hcap Hsize)
    as (Hexact1 & Hsize1 & Hnone).
  pose proof (unallocated_not_in_list _ _ (wf_list _ _ (exact_wf _ _ Hexact1)))
    as Hfresh.
  rewrite Get_miss by done. unfold miss_result, reserve.
  rewrite <- (brk_evict_if_full c).
  pose proof (capacity_evict_if_full c) as Hcap1.
  set (c1 := evict_if_full c) in *.
  set (e0 := mkEntry zero 0 false None None).
  change (alloc e0 c1) with (brk c1, (alloc e0 c1).2).
  cbv beta iota.
  set (c2 := (alloc e0 c1).2).
  assert (exact c2 (evicted c l)) as Hexact2.
  { destruct Hexact1 as [Hwf1 Hidx1]. split; [by apply alloc_wf|done]. }
  destruct (publish_exact c2 (evicted c l) key (brk c1) e0) as [Hex Hsz];
    try done.
  { by apply Hnone. }
  { unfold c2. simpl. apply lookup_insert_eq. }
  { unfold c2. simpl. lia. }
  eexists. split_and!; [done| | | |].
  - by do 2 (apply exact_store_payload; [done|]).
  - unfold len_items in *. simpl. change (items c2) with (items c1) in Hsz.
    rewrite items_moveToFront in *. simpl in *. lia.
  - simpl. rewrite capacity_moveToFront. done.
  - intros k Hk Hnone_k. simpl. rewrite items_moveToFront. simpl.
    rewrite lookup_insert_ne by done. by apply Hnone.
Qed.


Lemma New_exact capacity : exact (New capacity : Cache (K:=K) (V:=V)) [].
Proof. split; [apply New_wf|]. by intros p ?%elem_of_nil. Qed.

Lemma insertion_fresh_exact c l op :
  exact c l → 0 < capacity c → len_items c ≤ capacity c →
  items c !! inserted_key op = None →
  ∃ l', exact (insertion Err c op) l'
      ∧ len_items (insertion Err c op) ≤ capacity c
      ∧ capacity (insertion Err c op) = capacity c
      ∧ (∀ k, k ≠ inserted_key op → items c !! k = None →
              items (insertion Err c op) !! k = None).
Proof.
  intros Hexact Hcap Hsize Hkey. destruct op as [now key v d|now key v].
  - destruct (Set_fresh_exact now key v d c l) as (? & ? & ?); try done.
    eexists. split_and!; try done. apply capacity_Set.
  - destruct (Get_fresh_exact now key v c l) as (c' & Hget & ? & ? & ? & ?);
      try done.
    simpl. rewrite Hget. simpl. eexists. by split_and!.
Qed.

(** Insertions under keys that are absent, each used once, from an exact
    state within its capacity, stay within the capacity. *)
Lemma insertions_fresh_exact ops :
  ∀ c l, exact c l → 0 < capacity c → len_items c ≤ capacity c →
  NoDup (inserted_key <$> ops) →
  (∀ op, op ∈ ops → items c !! inserted_key op = None) →
  ∃ l', exact (insertions Err ops c) l'
      ∧ len_items (insertions Err ops c) ≤ capacity c
      ∧ capacity (insertions Err ops c) = capacity c.
Proof.
  induction ops as [|op ops IH]; intros c l Hexact Hcap Hsize Hnd Hnone.
  - by exists l.
  - rewrite fmap_cons in Hnd. apply NoDup_cons in Hnd as [Hop Hnd].
    destruct (insertion_fresh_exact c l op) as (l1 & Hex1 & Hsz1 & Hcap1 & Hno1);
      try done.
    { apply Hnone. left. }
    unfold insertions. simpl. fold (insertions Err ops (insertion Err c op)).
    destruct (IH (insertion Err c op) l1) as (l' & ? & ? & ?); try done.
    + by rewrite Hcap1.
    + by rewrite Hcap1.
    + intros op' Hop'. apply Hno1.
      * intros Heq. apply Hop. rewrite <- Heq.
        apply list_elem_of_fmap. by exists op'.
      * apply Hnone. by right.
    + exists l'. split_and!; [done|by rewrite <- Hcap1|congruence].
Qed.

(** The capacity bound, where it holds: from [New] with a positive
    capacity, after each of a sequence of [Set]s and of [Get]s whose
    [compute] succeeds, on keys each used once, [Size()] is at most the
    capacity. *)
Lemma Size_within_capacity_on_new_keys capacity ops n :
  0 < capacity → NoDup (inserted_key <$> ops) →
  Size (insertions Err (take n ops) (New capacity)) ≤ capacity.
Proof.
  intros Hcap Hnd.
  destruct (insertions_fresh_exact (take n ops) (New capacity) [])
    as (l' & _ & Hsize & _).
  - apply New_exact.
  - unfold New; simpl. by rewrite decide_False by lia.
  - unfold New, len_items; simpl. rewrite map_size_empty. case_decide; lia.
  - rewrite fmap_take. eapply sublist_NoDup; [done|apply sublist_take].
  - intros op _. unfold New; simpl. apply lookup_empty.
  - unfold New in Hsize at 2; simpl in Hsize.
    by rewrite decide_False in Hsize by lia.
Qed.


(** [Delete] keeps an exact state exact. *)
Lemma Delete_exact key c l :
  exact c l →
  exact (Delete key c)
    (match items c !! key with Some p => filter (λ q, q ≠ p) l | None => l end).
Proof.
  intros [Hwf Hexact]. split; [by apply Delete_wf|].
  unfold Delete. destruct (items c !! key) as [p0|] eqn:Hkey; [|done].
  intros p [Hne Hp]%list_elem_of_filter.
  destruct (Hexact p Hp) as [k Hk]. exists k. simpl.
  rewrite items_unlink. apply lookup_delete_Some. split; [|done].
  intros <-. congruence.
Qed.

(** Run alone, every operation keeps the state well formed. *)
Lemma reachable_well_formed c :
  reachable (Err:=Err) c → ∃ l, well_formed c l.
Proof.
  induction 1 as [capacity|now key v d c _ [l IH]
                 |now key compute c c' out n _ [l IH] Hget
                 |key c _ [l IH]|c _ [l IH]|now order c _ [l IH] Horder].
  - eexists. apply New_wf.
  - eexists. by apply Set_wf.
  - by eapply Get_wf.
  - eexists. by apply Delete_wf.
  - eexists. by eapply Clear_wf.
  - destruct (Cleanup_in_spec now order c l (λ p, ¬ stale c now p))
      as (Hwf & _); [|done| |by eexists].
    + rewrite Horder. apply NoDup_fst_map_to_list.
    + intros p _. apply not_iff_compat. unfold stale. split.
      * intros [Hin He]. apply list_elem_of_fmap in Hin as ([k q] & -> & Hk).
        apply elem_of_map_to_list in Hk. exists k. split_and!; [|done..].
        rewrite Horder. apply list_elem_of_fmap. exists (k, q).
        by rewrite elem_of_map_to_list.
      * intros (k & _ & Hk & He). split; [|done].
        apply list_elem_of_fmap. exists (k, p). by rewrite elem_of_map_to_list.
Qed.

End exact.

Section stable.
Context {K : Type} `{Countable K} `{!Zero K}.
Context {V : Type} `{!Zero V}.
Context {Err : Type}.
Implicit Types (c : Cache (K:=K) (V:=V)) (p q entry : ptr) (key : K).
Implicit Types (compute : ComputeFn (V:=V) (Err:=Err)).

(** *** The payload of an entry that exists is never written again by
    the operations on other entries *)

Lemma payload_store_ne c q f p :
  q ≠ p → payload (store q f c) p = payload c p.
Proof. intros. unfold payload. by rewrite heap_store, lookup_alter_ne. Qed.

Lemma payload_alloc_old c e p :
  (p < brk c)%nat → payload (alloc e c).2 p = payload c p.
Proof.
  intros Hp. unfold payload. simpl. rewrite lookup_insert_ne; [done|lia].
Qed.

Lemma payload_set_items c (m : gmap K ptr) p :
  payload (set_items m c) p = payload c p.
Proof. done. Qed.

Lemma payload_Set_old now key v expiration c p :
  (p < brk c)%nat → payload (Set_ now key v expiration c) p = payload c p.
Proof.
  intros Hp. unfold Set_.
  set (e0 := mkEntry v 0 false None None).
  change (alloc e0 (evict_if_full c))
    with (brk (evict_if_full c), (alloc e0 (evict_if_full c)).2).
  cbv beta iota. rewrite payload_moveToFront, payload_set_items.
  rewrite brk_evict_if_full.
  assert (brk c ≠ p) by lia.
  rewrite <- (payload_evict_if_full c p).
  rewrite <- (payload_alloc_old (evict_if_full c) e0 p)
    by (by rewrite brk_evict_if_full).
  case_decide; by rewrite ?payload_store_ne.
Qed.


Lemma payload_reserve_old key c p :
  (p < brk c)%nat → payload (reserve key c).2 p = payload c p.
Proof.
  intros Hp. unfold reserve.
  set (e0 := mkEntry zero 0 false None None).
  change (alloc e0 (evict_if_full c))
    with (brk (evict_if_full c), (alloc e0 (evict_if_full c)).2).
  cbv beta iota. cbn [snd].
  rewrite payload_moveToFront, payload_set_items.
  rewrite payload_alloc_old by (by rewrite brk_evict_if_full).
  apply payload_evict_if_full.
Qed.

Lemma payload_miss_result_old key compute c p c' out n :
  (p < brk c)%nat → miss_result key compute c = Done c' out n →
  payload c' p = payload c p.
Proof.
  intros Hp. unfold miss_result.
  pose proof (reserve_fst key c) as Hfst.
  pose proof (payload_reserve_old key c p Hp) as Hpay.
  destruct (reserve key c) as [entry c1]. simpl in *. subst entry.
  assert (brk c ≠ p) by lia.
  destruct compute as [[v [err|]]|]; intros [= <- _ _];
    by rewrite ?payload_store_ne, ?payload_set_items.
Qed.

(** Run alone, [Get] leaves the payload of the entries that exist as it
    is, but for the entry it has reserved. *)
Lemma payload_Get_old now key compute c p c' out n :
  (p < brk c)%nat → Get now key compute c = Done c' out n →
  payload c' p = payload c p.
Proof.
  intros Hp.
  destruct (items c !! key) as [q|] eqn:Hkey.
  - destruct (load_ready c q) eqn:Hready.
    + destruct (expired c q now) eqn:Hexp.
      * rewrite (Get_expired _ _ _ _ q) by done. intros Hres.
        by apply (payload_miss_result_old _ _ _ p) in Hres.
      * rewrite (Get_hit _ _ _ _ q) by done. intros [= <- _ _].
        apply payload_moveToFront.
    + by rewrite (Get_not_ready _ _ _ _ q).
  - rewrite Get_miss by done. by apply payload_miss_result_old.
Qed.

Lemma payload_Delete key c p : payload (Delete key c) p = payload c p.
Proof.
  unfold Delete. destruct (items c !! key); [|done].
  rewrite payload_set_items. apply payload_unlink.
Qed.

End stable.

(** * The claims of the specification *)

Section claims.
Context {K : Type} `{Countable K} `{!Zero K}.
Context {V : Type} `{!Zero V}.
Context {Err : Type}.
Implicit Types (c : Cache (K:=K) (V:=V)) (p q entry : ptr) (key : K).
Implicit Types (compute : ComputeFn (V:=V) (Err:=Err)).

Lemma wf_recency c l : well_formed c l → well_formed c (recency c).
Proof. intros Hwf. by rewrite (is_list_recency c l (wf_list _ _ Hwf)). Qed.

Lemma indexed_map_to_list c p :
  indexed c p ↔ p ∈ (map_to_list (items c)).*2.
Proof.
  unfold indexed. rewrite list_elem_of_fmap. split.
  - intros [k Hk]. exists (k, p). by rewrite elem_of_map_to_list.
  - intros ([k q] & -> & Hk). exists k. by apply elem_of_map_to_list.
Qed.

(** C9: [Cleanup] removes from the index and from the recency list exactly
    the entries of the index whose [expiresAt] is set and strictly before
    the one [now] read at its start, in whatever order the map is iterated;
    the other keys keep their entry, no entry changes its value, expiry or
    readiness, and the recency list keeps the order of the entries that
    stay.  When the list holds only entries of the index, what stays is
    what has not expired, and the list still holds only entries of the
    index. *)
Theorem Cleanup_removes_exactly_the_expired c now order :
  well_formed c (recency c) →
  order ≡ₚ (map_to_list (items c)).*1 →
  (∀ k p, items (Cleanup_in now order c) !! k = Some p ↔
          items c !! k = Some p ∧ ¬ expired c p now)
  ∧ (∀ p, payload (Cleanup_in now order c) p = payload c p)
  ∧ recency (Cleanup_in now order c)
    = filter (λ p, ¬ stale c now p) (recency c)
  ∧ well_formed (Cleanup_in now order c) (recency (Cleanup_in now order c))
  ∧ ((∀ p, p ∈ recency c → indexed c p) →
     recency (Cleanup_in now order c)
     = filter (λ p, ¬ expired c p now) (recency c)
     ∧ ∀ p, p ∈ recency (Cleanup_in now order c) →
            indexed (Cleanup_in now order c) p).
Proof.
  intros Hwf Horder.
  assert (NoDup order) as Hnd.
  { rewrite Horder. apply NoDup_fst_map_to_list. }
  assert (∀ k p, items c !! k = Some p → k ∈ order) as Hin.
  { intros k p Hk. rewrite Horder. apply list_elem_of_fmap.
    exists (k, p). by rewrite elem_of_map_to_list. }
  destruct (Cleanup_in_spec now order c (recency c)
              (λ p, ¬ stale c now p) Hnd Hwf) as (Hwf' & Hitems & Hpay).
  { intros p _. apply not_iff_compat. unfold stale.
    rewrite <- indexed_map_to_list. split.
    - intros [[k Hk] He]. exists k. eauto.
    - intros (k & _ & Hk & He). split; [by exists k|done]. }
  pose proof (is_list_recency _ _ (wf_list _ _ Hwf')) as Hrec.
  assert (∀ k p, items (Cleanup_in now order c) !! k = Some p ↔
                 items c !! k = Some p ∧ ¬ expired c p now) as Hitems'.
  { intros k p. rewrite Hitems. split.
    - intros [Hk Hno]. split; [done|]. intros He. apply Hno. eauto.
    - intros [Hk Hno]. split; [done|]. tauto. }
  split_and!; [done|done|done|by rewrite Hrec|].
  intros Hexact.
  assert (filter (λ p, ¬ stale c now p) (recency c)
          = filter (λ p, ¬ expired c p now) (recency c)) as Hfilter.
  { apply filter_ext_in. intros p Hp. apply not_iff_compat. unfold stale.
    rewrite <- indexed_map_to_list. specialize (Hexact p Hp). tauto. }
  rewrite Hrec, Hfilter. split; [done|].
  intros p [Hno Hp]%list_elem_of_filter.
  destruct (Hexact p Hp) as [k Hk]. exists k. by apply Hitems'.
Qed.


(** C10: [Set] with a duration that is zero or negative leaves [expiresAt]
    unset, and an entry whose [expiresAt] is unset is never taken for
    expired: at any later time [Get] returns its value without calling
    [compute] and keeps it in the index, and [Cleanup] keeps it, whatever
    the order of its iteration. *)
Theorem Set_nonpositive_duration_never_expires now key v d c :
  d ≤ 0 →
  ∃ p, items (Set_ now key v d c) !! key = Some p
    ∧ payload (Set_ now key v d c) p = Some (v, 0, true)
    ∧ load_expiresAt (Set_ now key v d c) p = 0
    ∧ ∀ c', items c' !! key = Some p → payload c' p = Some (v, 0, true) →
      ∀ now',
        expired c' p now' = false
        ∧ (∀ compute, ∃ c'',
             Get now' key compute c' = Done c'' (Return v None) 0
             ∧ items c'' !! key = Some p
             ∧ payload c'' p = Some (v, 0, true))
        ∧ (∀ order,
             items (Cleanup_in now' order c') !! key = Some p
             ∧ payload (Cleanup_in now' order c') p = Some (v, 0, true)).
Proof.
  intros Hd. exists (brk c).
  assert (payload (Set_ now key v d c) (brk c) = Some (v, 0, true)) as Hpay.
  { rewrite Set_payload. by rewrite decide_False by lia. }
  split_and!.
  - rewrite Set_items. apply lookup_insert_eq.
  - done.
  - by rewrite load_expiresAt_payload, Hpay.
  - intros c' Hkey Hpay' now'.
    assert (expired c' (brk c) now' = false) as Hexp.
    { by eapply unset_not_expired. }
    split_and!; [done| |].
    + intros compute. eexists. split_and!.
      * rewrite (Get_hit now' key compute c' (brk c)); [|done| |done].
        -- by rewrite load_value_payload, payload_moveToFront, Hpay'.
        -- by rewrite load_ready_payload, Hpay'.
      * by rewrite items_moveToFront.
      * by rewrite payload_moveToFront.
    + intros order. split.
      * by apply Cleanup_in_keeps.
      * by rewrite payload_Cleanup_in.
Qed.

(** C4, as the code has it: when [compute] fails during a [Get], the key is
    deleted from the index before the entry is made ready, [Get] returns
    the value [compute] returned together with its error, the key is left
    absent, and a [Get] that follows with a [compute] that succeeds calls
    it and returns its value. *)
Theorem Get_failure_is_not_cached now key v (err : Err) c :
  items c !! key = None ∨
  (∃ p, items c !! key = Some p ∧ load_ready c p = true
        ∧ expired c p now = true) →
  (∀ c0 entry, ∃ c1,
     Get_step now key (Some (v, Some err)) c0 (AtFailDelete entry v err)
     = Some (c1, AtFailClose entry v err)
     ∧ items c1 !! key = None ∧ load_ready c1 entry = load_ready c0 entry)
  ∧ ∃ c', Get now key (Some (v, Some err)) c = Done c' (Return v (Some err)) 1
     ∧ items c' !! key = None
     ∧ ∀ now' v', ∃ c'' p,
         Get (Err:=Err) now' key (Some (v', None)) c'
         = Done c'' (Return v' None) 1
         ∧ items c'' !! key = Some p
         ∧ payload c'' p = Some (v', 0, true).
Proof.
  intros Hcase. split.
  { intros c0 entry. eexists. split_and!; [done| |done].
    simpl. apply lookup_delete_eq. }
  assert (∀ c0, items c0 !! key = None →
            ∃ c', miss_result key (Some (v, Some err)) c0
                  = Done c' (Return v (Some err)) 1
                  ∧ items c' !! key = None) as Hmiss.
  { intros c0 _. unfold miss_result.
    destruct (reserve key c0) as [entry c1].
    eexists. split; [done|]. simpl. apply lookup_delete_eq. }
  assert (∃ c', Get now key (Some (v, Some err)) c
                = Done c' (Return v (Some err)) 1
                ∧ items c' !! key = None) as (c' & Hget & Hgone).
  { destruct Hcase as [Hkey|(p & Hkey & Hready & Hexp)].
    - rewrite Get_miss by done. by apply Hmiss.
    - rewrite (Get_expired _ _ _ _ p) by done. apply Hmiss.
      simpl. apply lookup_delete_eq. }
  exists c'. split_and!; [done..|].
  intros now' v'. rewrite Get_miss by done. unfold miss_result.
  pose proof (reserve_fst key c') as Hfst.
  pose proof (reserve_items key c') as Hitems.
  pose proof (reserve_payload key c') as Hpay.
  destruct (reserve key c') as [entry c1]. simpl in *. subst entry.
  exists (store (brk c') (set_ready true) (store (brk c') (set_value v') c1)),
         (brk c').
  split_and!; [done| |].
  - simpl. rewrite Hitems. apply lookup_insert_eq.
  - unfold payload in *. rewrite !heap_store, !lookup_alter_eq.
    destruct (heap c1 !! brk c') as [e|]; [|done]. simpl in *.
    injection Hpay as _ He _. by rewrite He.
Qed.


(** An entry of the recency list that no key maps to breaks the invariant
    of the list. *)
Lemma unindexed_breaks_invariant c p :
  p ∈ recency c → p ∉ (map_to_list (items c)).*2 → ¬ list_invariant c.
Proof.
  intros Hin Hno [Hexact _ _ _ _]. apply Hno.
  by apply indexed_map_to_list, Hexact.
Qed.

Lemma list_invariant_intro c l :
  recency c = l → recency_back c = reverse l →
  NoDup l → (∀ p, p ∈ l ↔ p ∈ (map_to_list (items c)).*2) →
  (head c = None ↔ l = []) → (tail c = None ↔ l = []) →
  list_invariant c.
Proof.
  intros Hl Hback Hnd Hexact Hh Ht. split; rewrite Hl; try done.
  intros p. by rewrite indexed_map_to_list.
Qed.

(** With a nil [compute], a [Get] that misses panics, and leaves in the
    index an entry that nobody will make ready. *)
Lemma Get_nil_compute_panics now key c :
  items c !! key = None →
  ∃ c', Get (Err:=Err) now key None c = Done c' Panic 0
      ∧ items c' !! key = Some (brk c)
      ∧ payload c' (brk c) = Some (zero, 0, false).
Proof.
  intros Hkey. rewrite Get_miss by done. unfold miss_result.
  pose proof (reserve_items key c) as Hitems.
  pose proof (reserve_payload key c) as Hpay.
  destruct (reserve key c) as [entry c1]. simpl in *.
  exists c1. split_and!; [done| |done].
  rewrite Hitems. apply lookup_insert_eq.
Qed.

(** The delete on the expired path (cache.go 105-107), on any state: once
    the hit path of [Get] has found the entry expired, the transition
    under the write lock deletes the key from the index whatever the key
    maps to by then, with no test of presence, of identity or of expiry;
    nothing else changes, and the call starts again from the first lookup.
    Run alone, the call then misses and goes on as on a key that is
    absent. *)
Theorem expired_entry_is_deleted_unconditionally now key compute c entry :
  load_ready c entry = true → expired c entry now = true →
  (Get_step now key compute c (AtAwait entry) = Some (c, AtExpiry entry)
   ∧ Get_step now key compute c (AtExpiry entry) = Some (c, AtExpiredDelete))
  ∧ (∀ now' c', ∃ c'',
       Get_step now' key compute c' AtExpiredDelete = Some (c'', AtLookup)
       ∧ items c'' !! key = None
       ∧ (∀ k, k ≠ key → items c'' !! k = items c' !! k)
       ∧ heap c'' = heap c' ∧ head c'' = head c' ∧ tail c'' = tail c')
  ∧ (items c !! key = Some entry →
     Get now key compute c
     = miss_result key compute (set_items (delete key (items c)) c)).
Proof.
  intros Hready Hexp. split_and!.
  - cbn [Get_step]. by rewrite Hready.
  - cbn [Get_step]. by rewrite Hexp.
  - intros now' c'. eexists. split_and!; [done| | |done..]; simpl.
    + apply lookup_delete_eq.
    + intros k Hk. by apply lookup_delete_ne.
  - intros Hkey. by apply Get_expired with entry.
Qed.

End claims.

Import Scenario.

Lemma Cleanup_removes_exactly_the_expired_witness :
  well_formed mixed (recency mixed)
  ∧ (map_to_list (items mixed)).*1 ≡ₚ (map_to_list (items mixed)).*1
  ∧ recency (Cleanup_in 100 (map_to_list (items mixed)).*1 mixed)
    = filter (λ p, ¬ stale mixed 100 p) (recency mixed).
Proof.
  assert (well_formed mixed (recency mixed)) as Hwf.
  { eapply wf_recency. apply Set_wf, Set_wf, Set_wf, New_wf. }
  split_and!; [done..|].
  destruct (Cleanup_removes_exactly_the_expired mixed 100
              (map_to_list (items mixed)).*1 Hwf) as (_ & _ & Hrec & _);
    done.
Defined.

(** [Cleanup] at time 100 on three entries of which "b" expired at 7. *)
Example Cleanup_mixed :
  recency mixed = [2; 1; 0]%nat
  ∧ recency (Cleanup 100 mixed) = [2; 0]%nat
  ∧ items (Cleanup 100 mixed) !! "a" = Some 0%nat
  ∧ items (Cleanup 100 mixed) !! "b" = None
  ∧ items (Cleanup 100 mixed) !! "c" = Some 2%nat
  ∧ Size (Cleanup 100 mixed) = 2.
Proof. vm_compute. split_and!; reflexivity. Qed.

Lemma Set_nonpositive_duration_never_expires_witness :
  -5 ≤ 0 ∧
  ∃ p, items (Set_ 1 "a" 7 (-5) (New 2 : StrCache)) !! "a" = Some p
     ∧ load_expiresAt (Set_ 1 "a" 7 (-5) (New 2 : StrCache)) p = 0.
Proof.
  split; [lia|].
  destruct (Set_nonpositive_duration_never_expires
              (Err:=string) 1 "a" 7 (-5) (New 2 : StrCache))
    as (p & Hkey & _ & Hexp & _); [lia|].
  by exists p.
Defined.

Lemma Get_failure_is_not_cached_witness :
  items (New 2 : StrCache) !! "a" = None
  ∧ ∃ c', get 1 "a" fails_with_7 (New 2) = Done c' (Return 7 (Some "boom")) 1
        ∧ items c' !! "a" = None.
Proof.
  split; [reflexivity|].
  destruct (Get_failure_is_not_cached 1 "a" 7 "boom" (New 2 : StrCache))
    as (_ & c' & Hget & Hgone & _); [by left|].
  by exists c'.
Defined.

(** C1: the capacity is exceeded.  With capacity 2, after [Set("a", 1, 0)],
    [Set("a", 2, 0)] and [Set("b", 3, 0)] the index holds 2 entries and the
    recency list 3, its tail being the entry of "a" that was overwritten;
    [Set("c", 4, 0)] evicts that tail, which no key maps to, before it
    inserts, and the index holds 3 entries. *)
Theorem Set_overwrite_then_capacity_exceeded :
  capacity set_a_a_b_c = 2
  ∧ Size set_a = 1 ∧ Size set_a_twice = 1 ∧ Size set_a_a_b = 2
  ∧ recency set_a_a_b = [2; 1; 0]%nat
  ∧ (map_to_list (items set_a_a_b)).*2 ≡ₚ [1; 2]%nat
  ∧ recency (evict_if_full set_a_a_b) = [2; 1]%nat
  ∧ Size (evict_if_full set_a_a_b) = 2
  ∧ Size set_a_a_b_c = 3.
Proof. vm_compute. split_and!; done. Qed.

Lemma list_invariant_set_a : list_invariant set_a.
Proof.
  apply (list_invariant_intro _ [0%nat]); try by vm_compute.
  apply NoDup_singleton.
Qed.

Lemma list_invariant_expiring : list_invariant expiring.
Proof.
  apply (list_invariant_intro _ [0%nat]); try by vm_compute.
  apply NoDup_singleton.
Qed.

Lemma list_invariant_New : list_invariant (New 2 : StrCache).
Proof.
  apply (list_invariant_intro _ []); try by vm_compute.
  apply NoDup_nil_2.
Qed.

(** C2: three operations leave in the recency list an entry that the
    index no longer holds.  [Set] on a key that is present replaces the
    entry in the index and leaves the old one in the list; [Get] deletes
    an expired entry, and the entry of a [compute] that failed, from the
    index only.  In each case the invariant holds before the call and not
    after it. *)
Theorem recency_list_keeps_entries_the_index_lost :
  (list_invariant set_a ∧ recency set_a_twice = [1; 0]%nat
   ∧ (map_to_list (items set_a_twice)).*2 = [1%nat]
   ∧ ¬ list_invariant set_a_twice)
  ∧ (list_invariant expiring ∧ recency expired_get = [1; 0]%nat
     ∧ (map_to_list (items expired_get)).*2 = [1%nat]
     ∧ ¬ list_invariant expired_get)
  ∧ (list_invariant (New 2 : StrCache) ∧ recency failed_get = [0%nat]
     ∧ (map_to_list (items failed_get)).*2 = []
     ∧ ¬ list_invariant failed_get).
Proof.
  split_and!; try apply list_invariant_set_a;
    try apply list_invariant_expiring; try apply list_invariant_New;
    try (vm_compute; reflexivity);
    apply (unindexed_breaks_invariant _ 0%nat); by_evaluation.
Qed.

(** C3: the callers of one computation do not get the same outcome.  Two
    goroutines call [Get] on the key "k", which is absent; the second
    finds the entry of the first while its [compute] is in flight and
    waits for it.  The [compute] fails: the first call returns the error,
    the second returns the zero value and no error. *)
Theorem waiter_of_a_failed_compute_gets_no_error :
  (call_pc <$> calls (sys_run two_gets second_arrives)
   = [AtCompute 0; AtAwait 0]
   ∧ in_flight "k" (sys_run two_gets second_arrives) = 1%nat)
  ∧ (outcome_of
       (sys_run two_gets (second_arrives ++ first_fails ++ second_returns)) 0
     = Some (Return 0 (Some "boom"%string))
     ∧ outcome_of
         (sys_run two_gets (second_arrives ++ first_fails ++ second_returns)) 1
       = Some (Return 0 None)
     ∧ computes
         (sys_run two_gets (second_arrives ++ first_fails ++ second_returns))
       = 1%nat).
Proof. vm_compute. split_and!; reflexivity. Qed.

(** Where C3 holds: on the same schedule with a [compute] that succeeds,
    [compute] is called once and both calls return its value. *)
Example single_flight_when_compute_succeeds :
  outcome_of
    (sys_run two_gets_succeed (second_arrives ++ first_fails ++ second_returns))
    0 = Some (Return 9 None)
  ∧ outcome_of
      (sys_run two_gets_succeed
         (second_arrives ++ first_fails ++ second_returns)) 1
    = Some (Return 9 None)
  ∧ computes
      (sys_run two_gets_succeed
         (second_arrives ++ first_fails ++ second_returns)) = 1%nat.
Proof. vm_compute. split_and!; reflexivity. Qed.

(** C5: [Get] with a nil [compute] on a key that is missing, or that has
    expired, does not fail with an error: it panics on the call of the nil
    func.  The entry it had put in the index stays there and is never
    ready, so that a [Get] on the same key waits for ever. *)
Theorem Get_nil_compute_on_missing_key_panics :
  returned (get 1 "x" None (New 2)) = Some (Panic, 0%nat)
  ∧ returned (get 200 "a" None expiring) = Some (Panic, 0%nat)
  ∧ items (after_get 1 "x" None (New 2)) !! "x" = Some 0%nat
  ∧ load_ready (after_get 1 "x" None (New 2)) 0 = false
  ∧ returned (get 2 "x" yields_9 (after_get 1 "x" None (New 2))) = None
  ∧ returned (get 1 "x" fails (New 2))
    = Some (Return 0 (Some "boom"%string), 1%nat).
Proof. vm_compute. split_and!; reflexivity. Qed.

(** C6: the delete of an entry seen expired is not conditional, and a
    fresh entry set for the key in between is deleted.  A [Get] on "a"
    finds its entry expired; before it takes the write lock another
    goroutine runs [Set("a", 2, 0)]; the [Get] then deletes "a" from the
    index, that is the new entry, which is ready and does not expire: the
    [Set] is lost, and its entry stays in the recency list with no key. *)
Lemma expired_delete_removes_a_repopulated_entry :
  (call_pc <$> calls (sys_run stale_reader (sees_expired ++ repopulated))
   = [AtExpiredDelete]
   ∧ items (shared (sys_run stale_reader (sees_expired ++ repopulated))) !! "a"
     = Some 1%nat
   ∧ payload (shared (sys_run stale_reader (sees_expired ++ repopulated))) 1
     = Some (2, 0, true))
  ∧ (call_pc <$>
       calls (sys_run stale_reader (sees_expired ++ repopulated ++ deletes))
     = [AtLookup]
     ∧ items (shared (sys_run stale_reader
                        (sees_expired ++ repopulated ++ deletes))) !! "a"
       = None
     ∧ recency (shared (sys_run stale_reader
                          (sees_expired ++ repopulated ++ deletes)))
       = [1; 0]%nat).
Proof. vm_compute. split_and!; reflexivity. Qed.

(** C7: a [Get] that finds the key present at its second look, under the
    write lock, does not go through the hit path.  The entry of "k" has
    expired at time 1000 and is not at the front of the list; the [Get]
    returns its value all the same and leaves the list as it is, where a
    [Get] that finds the key at its first look calls [compute] at time
    1000, and moves the entry to the front at time 105. *)
Theorem second_look_skips_expiry_and_promotion :
  (call_pc <$> calls (sys_run late_writer misses_then_set) = [AtReserve]
   ∧ items (shared (sys_run late_writer misses_then_set)) !! "k" = Some 0%nat
   ∧ expired (shared (sys_run late_writer misses_then_set)) 0 1000 = true
   ∧ recency (shared (sys_run late_writer misses_then_set)) = [1; 0]%nat)
  ∧ (outcome_of (sys_run late_writer (misses_then_set ++ rechecks)) 0
     = Some (Return 5 None)
     ∧ computes (sys_run late_writer (misses_then_set ++ rechecks)) = 0%nat
     ∧ recency (shared (sys_run late_writer (misses_then_set ++ rechecks)))
       = [1; 0]%nat)
  ∧ (returned (get 1000 "k" yields_9
                 (shared (sys_run late_writer misses_then_set)))
     = Some (Return 9 None, 1%nat)
     ∧ returned (get 105 "k" yields_9
                   (shared (sys_run late_writer misses_then_set)))
       = Some (Return 5 None, 0%nat)
     ∧ recency (after_get 105 "k" yields_9
                  (shared (sys_run late_writer misses_then_set)))
       = [0; 1]%nat).
Proof. vm_compute. split_and!; reflexivity. Qed.

(** C8: with capacity 3, after [Set(A,1,0)], [Set(B,2,0)], [Set(C,3,0)],
    [Get(A)], [Set(D,4,0)] the entry evicted is that of B: A, C and D are
    in the index and [Get] returns their values, B is not.  But [Get(B)]
    with no [compute] does not fail with an error: it panics. *)
Theorem lru_evicts_B_and_Get_B_panics :
  returned (get 4 "A" None lru_abc) = Some (Return 1 None, 0%nat)
  ∧ items lru !! "B" = None
  ∧ recency lru = [3; 0; 2]%nat
  ∧ returned (get 6 "A" None lru) = Some (Return 1 None, 0%nat)
  ∧ returned (get 6 "C" None lru) = Some (Return 3 None, 0%nat)
  ∧ returned (get 6 "D" None lru) = Some (Return 4 None, 0%nat)
  ∧ returned (get 6 "B" None lru) = Some (Panic, 0%nat).
Proof. vm_compute. split_and!; reflexivity. Qed.

(** C4 as stated fails: on an empty cache, a [Get] whose [compute] returns
    7 and an error does not return the zero value, and the entry it had
    reserved is still in the recency list. *)
Lemma Get_failure_as_stated_counterexample :
  ¬ (∃ c', get 1 "a" fails_with_7 (New 2)
           = Done c' (Return zero (Some "boom"%string)) 1
         ∧ items c' !! "a" = None
         ∧ recency c' = [])
  ∧ returned (get 1 "a" fails_with_7 (New 2))
    = Some (Return 7 (Some "boom"%string), 1%nat)
  ∧ recency (after_get 1 "a" fails_with_7 (New 2)) = [0%nat]
  ∧ recency (after_get 1 "a" fails (New 2)) = [0%nat].
Proof.
  split_and!; try (vm_compute; reflexivity).
  intros (c' & Hget & _).
  assert (returned (get 1 "a" fails_with_7 (New 2))
          = Some (Return 0 (Some "boom"%string), 1%nat)) as Hret.
  { by rewrite Hget. }
  vm_compute in Hret. discriminate Hret.
Qed.

(** * Further properties of the operations *)

(** ** Set, Get, Delete and Clear, one after the other *)

Section more.
Context {K : Type} `{Countable K} `{!Zero K}.
Context {V : Type} `{!Zero V}.
Context {Err : Type}.
Implicit Types (c : Cache (K:=K) (V:=V)) (p q entry : ptr) (key : K).
Implicit Types (h : gmap ptr (CacheEntry (V:=V))) (l : list ptr).
Implicit Types (compute : ComputeFn (V:=V) (Err:=Err)).

Lemma head_add_to_front c p : head (add_to_front p c) = Some p.
Proof.
  unfold add_to_front.
  set (c3 := store p (set_next _) _).
  set (c4 := match head c3 with Some _ => _ | None => _ end).
  by destruct (tail (set_head (Some p) c4)).
Qed.

Lemma head_moveToFront c p : head (moveToFront p c) = Some p.
Proof.
  unfold moveToFront. case_decide; [done|apply head_add_to_front].
Qed.

Lemma returned_miss_result key compute c :
  returned (miss_result key compute c)
  = match compute with
    | None => Some (Panic, 0%nat)
    | Some (v, err) => Some (Return v err, 1%nat)
    end.
Proof.
  unfold miss_result. destruct (reserve key c) as [entry c1].
  by destruct compute as [[v [err|]]|].
Qed.

(** X1: [Set(key, v, d)] at time [now], then [Get(key, compute)] at time
    [now']: when [d] is not positive, or [now'] is not after [now + d],
    [Get] returns [(v, nil)] and does not call [compute], whatever the
    cache held before, the key itself included; the entry is then the
    most recently used. *)
Theorem Set_then_Get_returns_the_value now now' key v d compute c :
  d ≤ 0 ∨ now' ≤ now + d →
  ∃ c', Get now' key compute (Set_ now key v d c) = Done c' (Return v None) 0
      ∧ items c' !! key = Some (brk c)
      ∧ head c' = Some (brk c).
Proof.
  intros Htime.
  pose proof (Set_items now key v d c) as Hitems.
  pose proof (Set_payload now key v d c) as Hpay.
  assert (items (Set_ now key v d c) !! key = Some (brk c)) as Hkey.
  { rewrite Hitems. apply lookup_insert_eq. }
  assert (expired (Set_ now key v d c) (brk c) now' = false) as Hexp.
  { unfold expired. rewrite load_expiresAt_payload, Hpay. simpl.
    case_decide; [|done]. destruct Htime as [?|?]; [lia|].
    apply andb_false_iff. right. apply Z.ltb_ge. lia. }
  eexists. split_and!.
  - rewrite (Get_hit _ _ _ _ (brk c)); [|done| |done].
    + by rewrite load_value_payload, payload_moveToFront, Hpay.
    + by rewrite load_ready_payload, Hpay.
  - by rewrite items_moveToFront.
  - apply head_moveToFront.
Qed.

(** What a [Get] that misses with a [compute] that succeeds leaves: the key
    maps to a new entry that holds the value, is ready and has no expiry. *)
Lemma miss_result_success key v c :
  ∃ c', miss_result (Err:=Err) key (Some (v, None)) c = Done c' (Return v None) 1
      ∧ items c' !! key = Some (brk c)
      ∧ payload c' (brk c) = Some (v, 0, true).
Proof.
  unfold miss_result.
  pose proof (reserve_fst key c) as Hfst.
  pose proof (reserve_items key c) as Hitems.
  pose proof (reserve_payload key c) as Hpay.
  destruct (reserve key c) as [entry c1]. simpl in *. subst entry.
  eexists. split_and!; [done| |].
  - simpl. rewrite Hitems. apply lookup_insert_eq.
  - unfold payload in *. rewrite !heap_store, !lookup_alter_eq.
    destruct (heap c1 !! brk c) as [e|]; [|done]. simpl in *.
    injection Hpay as _ He _. by rewrite He.
Qed.

(** A hit on an entry with no expiry. *)
Lemma Get_hit_unset now key compute c p v :
  items c !! key = Some p → payload c p = Some (v, 0, true) →
  Get now key compute c = Done (moveToFront p c) (Return v None) 0.
Proof.
  intros Hkey Hpay. rewrite (Get_hit _ _ _ _ p); [|done| |].
  - by rewrite load_value_payload, payload_moveToFront, Hpay.
  - by rewrite load_ready_payload, Hpay.
  - by eapply unset_not_expired.
Qed.

(** X2: the time to live.  [Set(key, v, d)] with [d > 0] at time [now],
    then [Get(key, compute)] at a time after [now + d]: [Get] calls
    [compute] once and returns what it returns; when that is [(v', nil)]
    the value is kept and later calls of [Get] return it at any time
    without calling [compute]: a value that [Get] has computed does not
    expire. *)
Theorem Get_after_the_time_to_live_recomputes now now' key v d v' c :
  0 ≤ now → 0 < d → now + d < now' →
  ∃ c', Get (Err:=Err) now' key (Some (v', None)) (Set_ now key v d c)
        = Done c' (Return v' None) 1
      ∧ ∀ now'' compute, ∃ c'',
          Get now'' key compute c' = Done c'' (Return v' None) 0.
Proof.
  intros Hnow Hd Hlate.
  pose proof (Set_items now key v d c) as Hitems.
  pose proof (Set_payload now key v d c) as Hpay.
  assert (items (Set_ now key v d c) !! key = Some (brk c)) as Hkey.
  { rewrite Hitems. apply lookup_insert_eq. }
  assert (expired (Set_ now key v d c) (brk c) now' = true) as Hexp.
  { unfold expired. rewrite load_expiresAt_payload, Hpay. simpl.
    rewrite decide_True by done. apply andb_true_iff. split.
    - apply negb_true_iff, Z.eqb_neq. lia.
    - apply Z.ltb_lt. lia. }
  rewrite (Get_expired _ _ _ _ (brk c)); [|done| |done].
  2:{ by rewrite load_ready_payload, Hpay. }
  destruct (miss_result_success key v'
              (set_items (delete key (items (Set_ now key v d c)))
                 (Set_ now key v d c))) as (c' & Hres & Hkey' & Hpay').
  exists c'. split; [done|]. intros now'' compute. eexists.
  by eapply Get_hit_unset.
Qed.

(** X3: [Get] on a key that is absent calls [compute] once; when it
    returns [(v, nil)], [Get] returns [(v, nil)], and from then on [Get] on
    the key returns [(v, nil)] at any time without calling [compute]. *)
Theorem Get_computes_once_then_returns_the_cached_value now key v c :
  items c !! key = None →
  ∃ c', Get (Err:=Err) now key (Some (v, None)) c = Done c' (Return v None) 1
      ∧ ∀ now' compute, ∃ c'',
          Get now' key compute c' = Done c'' (Return v None) 0
          ∧ items c'' !! key = items c' !! key.
Proof.
  intros Hkey. rewrite Get_miss by done.
  destruct (miss_result_success key v c) as (c' & Hres & Hkey' & Hpay').
  exists c'. split; [done|]. intros now' compute. eexists. split.
  - by eapply Get_hit_unset.
  - by rewrite items_moveToFront.
Qed.

(** X4: a hit moves the entry to the front of the recency list, keeps the
    order of the others and changes nothing in the index. *)
Theorem Get_hit_moves_the_entry_to_the_front now key compute c p :
  well_formed c (recency c) →
  items c !! key = Some p → load_ready c p = true → expired c p now = false →
  ∃ c', Get now key compute c = Done c' (Return (load_value c p) None) 0
      ∧ recency c' = p :: filter (λ q, q ≠ p) (recency c)
      ∧ items c' = items c
      ∧ well_formed c' (recency c').
Proof.
  intros Hwf Hkey Hready Hexp.
  assert (well_formed (moveToFront p c)
            (p :: filter (λ q, q ≠ p) (recency c))) as Hwf'.
  { apply moveToFront_wf; [done|]. by eapply wf_indexed. }
  pose proof (is_list_recency _ _ (wf_list _ _ Hwf')) as Hrec.
  eexists. split_and!.
  - rewrite (Get_hit _ _ _ _ p) by done.
    by rewrite load_value_payload, payload_moveToFront, <- load_value_payload.
  - done.
  - apply items_moveToFront.
  - by rewrite Hrec.
Qed.


Lemma removelast_recency_removeTail c :
  well_formed c (recency c) →
  recency (removeTail c) = removelast (recency c).
Proof.
  intros Hwf. apply removeTail_removelast in Hwf.
  apply (is_list_recency _ _ (wf_list _ _ Hwf)).
Qed.

(** X5: eviction takes the least recently used.  On a state whose recency
    list holds exactly the entries of the index, [Set] on a full cache
    removes from the index the key of the tail of the list and no other,
    and the list loses its tail and gets the new entry at its front. *)
Theorem Set_on_a_full_cache_evicts_the_least_recently_used
    now key v d c :
  exact c (recency c) → 0 < capacity c → capacity c ≤ Size c →
  ∃ t kt, last (recency c) = Some t ∧ items c !! kt = Some t
    ∧ items (Set_ now key v d c) = <[key := brk c]> (delete kt (items c))
    ∧ recency (Set_ now key v d c) = brk c :: removelast (recency c).
Proof.
  intros Hexact Hcap Hfull. unfold Size, len_items in Hfull.
  pose proof (exact_wf _ _ Hexact) as Hwf.
  destruct (size_pos_lookup (items c)) as (k0 & p0 & Hk0); [lia|].
  assert (recency c ≠ []) as Hne by (by eapply exact_nonempty).
  destruct (removeTail_wf c _ Hwf) as [[Hnil _]|(l' & t & Hl & Htail & _)];
    [done|].
  destruct (exact_indexed _ _ Hexact t) as [k Hk].
  { rewrite Hl. apply elem_of_app. right. left. }
  exists t, (find_key (map_to_list (items c)) t). split_and!.
  - rewrite Hl. apply last_snoc.
  - by eapply find_key_spec.
  - rewrite Set_items. unfold evict_if_full, len_items.
    rewrite decide_True by lia. by rewrite (items_removeTail c t).
  - pose proof (Set_wf now key v d c _ Hwf) as Hwf'.
    rewrite (is_list_recency _ _ (wf_list _ _ Hwf')).
    unfold evicted, len_items. by rewrite decide_True by lia.
Qed.

Lemma evict_if_full_room c :
  len_items c < capacity c → evict_if_full c = c.
Proof. intros Hroom. unfold evict_if_full. by rewrite decide_False by lia. Qed.

Lemma well_formed_allocated c l k p :
  well_formed c l → items c !! k = Some p → (p < brk c)%nat.
Proof.
  intros Hwf Hk. pose proof (list_alloc _ _ (wf_list _ _ Hwf)) as Ha.
  rewrite Forall_forall in Ha. apply Ha. by eapply wf_indexed.
Qed.

(** What [Get] returns depends on the index and on the payload of the
    entry of the key only. *)
Lemma returned_Get_ext now key compute c1 c2 :
  items c1 !! key = items c2 !! key →
  (∀ p, items c1 !! key = Some p → payload c1 p = payload c2 p) →
  returned (Get now key compute c1) = returned (Get now key compute c2).
Proof.
  intros Hitems Hpay.
  destruct (items c1 !! key) as [p|] eqn:Hkey; symmetry in Hitems.
  - specialize (Hpay p eq_refl).
    assert (load_ready c2 p = load_ready c1 p) as Hr.
    { by rewrite !load_ready_payload, Hpay. }
    assert (expired c2 p now = expired c1 p now) as He.
    { by apply expired_payload. }
    destruct (load_ready c1 p) eqn:Hready.
    + destruct (expired c1 p now) eqn:Hexp.
      * rewrite (Get_expired _ _ _ c1 p), (Get_expired _ _ _ c2 p)
          by congruence.
        by rewrite !returned_miss_result.
      * rewrite (Get_hit _ _ _ c1 p), (Get_hit _ _ _ c2 p) by congruence.
        simpl. by rewrite !load_value_payload, !payload_moveToFront, Hpay.
    + by rewrite (Get_not_ready _ _ _ c1 p), (Get_not_ready _ _ _ c2 p)
        by congruence.
  - rewrite !Get_miss by done. by rewrite !returned_miss_result.
Qed.

(** X6: below its capacity [Set] evicts nothing: every other key keeps its
    entry, and [Get] on any other key returns what it would have returned
    without the [Set]. *)
Theorem Set_below_capacity_leaves_the_other_keys now key v d c l :
  well_formed c l → Size c < capacity c →
  ∀ k, k ≠ key →
    items (Set_ now key v d c) !! k = items c !! k
    ∧ ∀ now' compute,
        returned (Get now' k compute (Set_ now key v d c))
        = returned (Get now' k compute c).
Proof.
  intros Hwf Hroom k Hk.
  assert (items (Set_ now key v d c) !! k = items c !! k) as Hitems.
  { rewrite Set_items, evict_if_full_room by done.
    by rewrite lookup_insert_ne. }
  split; [done|]. intros now' compute.
  apply returned_Get_ext; [done|].
  intros p Hp. apply payload_Set_old.
  rewrite Hitems in Hp. by eapply well_formed_allocated.
Qed.

Lemma size_pos_of_lookup (m : gmap K ptr) k p :
  m !! k = Some p → (0 < size m)%nat.
Proof.
  intros Hk. destruct (decide (size m = 0%nat)) as [Hz|]; [|lia].
  apply map_size_empty_iff in Hz. by rewrite Hz in Hk.
Qed.

Lemma size_evict_if_full c :
  (size (items (evict_if_full c)) ≤ size (items c))%nat.
Proof.
  unfold evict_if_full. case_decide; [|done].
  destruct (tail c) as [t|] eqn:Ht.
  - rewrite (items_removeTail c t Ht), map_size_delete.
    destruct (items c !! _); simpl; lia.
  - unfold removeTail. by rewrite Ht.
Qed.

(** X7: [Set] leaves the key in the index and adds at most one entry to
    it: [Size()] is at least 1 and at most one more than before.  [Delete]
    takes one entry out when the key is present and none when it is not. *)
Theorem Size_after_Set_and_Delete now key v d c :
  (1 ≤ Size (Set_ now key v d c) ≤ Size c + 1)
  ∧ Size (Delete key c)
    = match items c !! key with Some _ => Size c - 1 | None => Size c end.
Proof.
  split.
  - unfold Size, len_items. rewrite Set_items, map_size_insert.
    pose proof (size_evict_if_full c).
    destruct (items (evict_if_full c) !! key) eqn:Hkey; simpl; [|lia].
    apply size_pos_of_lookup in Hkey. lia.
  - unfold Size, len_items, Delete.
    destruct (items c !! key) as [p|] eqn:Hkey; [|done].
    simpl. rewrite items_unlink, map_size_delete, Hkey. simpl.
    apply size_pos_of_lookup in Hkey. lia.
Qed.

(** X8: [Delete] removes the key and no other; on a key that is absent it
    changes nothing; a [Get] on the key after it calls [compute]. *)
Theorem Delete_removes_the_key_only key c :
  items (Delete key c) !! key = None
  ∧ (∀ k, k ≠ key → items (Delete key c) !! k = items c !! k)
  ∧ (∀ p, payload (Delete key c) p = payload c p)
  ∧ (items c !! key = None → Delete key c = c)
  ∧ ∀ now compute,
      returned (Get now key compute (Delete key c))
      = match compute with
        | None => Some (Panic, 0%nat)
        | Some (v, err) => Some (Return v err, 1%nat)
        end.
Proof.
  assert (items (Delete key c) !! key = None) as Hgone.
  { unfold Delete. destruct (items c !! key) eqn:Hkey; [|done].
    simpl. apply lookup_delete_eq. }
  split_and!.
  - done.
  - intros k Hk. unfold Delete. destruct (items c !! key); [|done].
    simpl. by rewrite items_unlink, lookup_delete_ne.
  - apply payload_Delete.
  - intros Hkey. unfold Delete. by rewrite Hkey.
  - intros now compute. rewrite Get_miss by done.
    apply returned_miss_result.
Qed.

(** X9: [Delete] takes the entry of the key out of the recency list and
    keeps the order of the others; when the list held exactly the entries
    of the index it still does. *)
Theorem Delete_unlinks_the_entry key c :
  well_formed c (recency c) →
  recency (Delete key c)
  = match items c !! key with
    | Some p => filter (λ q, q ≠ p) (recency c)
    | None => recency c
    end
  ∧ well_formed (Delete key c) (recency (Delete key c))
  ∧ ((∀ p, p ∈ recency c → indexed c p) → list_invariant (Delete key c)).
Proof.
  intros Hwf.
  pose proof (Delete_wf key c _ Hwf) as Hwf'.
  pose proof (is_list_recency _ _ (wf_list _ _ Hwf')) as Hrec.
  split_and!; [done|by rewrite Hrec|].
  intros Hexact. eapply exact_list_invariant.
  by apply Delete_exact.
Qed.

(** X10: [Clear] empties the cache from any state: no key is left, the
    recency list is empty and its invariant holds again, the capacity is
    kept; clearing twice is clearing once, and a [Get] after it calls
    [compute]. *)
Theorem Clear_empties_the_cache c :
  Size (Clear c) = 0
  ∧ (∀ k, items (Clear c) !! k = None)
  ∧ recency (Clear c) = []
  ∧ list_invariant (Clear c)
  ∧ capacity (Clear c) = capacity c
  ∧ Clear (Clear c) = Clear c
  ∧ ∀ now key v, ∃ c',
      Get (Err:=Err) now key (Some (v, None)) (Clear c)
      = Done c' (Return v None) 1.
Proof.
  assert (exact (Clear c) []) as Hexact.
  { split; [|by intros p ?%elem_of_nil].
    split; [split|..]; try done. apply NoDup_nil_2. }
  split_and!; try done.
  - apply (is_list_recency _ _ (wf_list _ _ (exact_wf _ _ Hexact))).
  - by eapply exact_list_invariant.
  - intros now key v. rewrite Get_miss by done.
    destruct (miss_result_success key v (Clear c)) as (c' & Hres & _).
    by exists c'.
Qed.

Lemma exact_recency c l : exact c l → exact c (recency c).
Proof.
  intros Hexact.
  by rewrite (is_list_recency c l (wf_list _ _ (exact_wf _ _ Hexact))).
Qed.

End more.

(** ** Distinct keys: the cache keeps the most recent *)

Section keys.
Context {K : Type} `{Countable K} `{!Zero K}.
Context {V : Type} `{!Zero V}.
Context {Err : Type}.
Implicit Types (c : Cache (K:=K) (V:=V)) (p q entry : ptr) (key : K).
Implicit Types (h : gmap ptr (CacheEntry (V:=V))) (l : list ptr).
Implicit Types (compute : ComputeFn (V:=V) (Err:=Err)).
Implicit Types (ks : list K) (op : Insertion (K:=K) (V:=V)).

Lemma items_insertion c op :
  items c !! inserted_key op = None →
  items (insertion Err c op)
  = <[inserted_key op := brk c]> (items (evict_if_full c)).
Proof.
  intros Hkey. destruct op as [now key v d|now key v]; simpl in *.
  - apply Set_items.
  - rewrite Get_miss by done. unfold miss_result.
    pose proof (reserve_items key c) as Hitems.
    destruct (reserve key c) as [entry c1]. simpl in *. done.
Qed.

Lemma take_app_take {A} (n : nat) (l1 l2 : list A) :
  take n (l1 ++ take n l2) = take n (l1 ++ l2).
Proof.
  rewrite !take_app. f_equal. rewrite take_take. f_equal. lia.
Qed.

(** [ks] are the keys of the entries of the recency list [l], in the same
    order. *)
Lemma keyed_index c l ks k :
  exact c l → Forall2 (λ p k, items c !! k = Some p) l ks →
  is_Some (items c !! k) ↔ k ∈ ks.
Proof.
  intros [Hwf Hexact] Hks. split.
  - intros [p Hp]. pose proof (wf_indexed _ _ Hwf _ _ Hp) as Hin.
    apply list_elem_of_lookup in Hin as [i Hi].
    destruct (Forall2_lookup_l _ _ _ _ _ Hks Hi) as (k' & Hk' & Hp').
    rewrite (wf_inj _ _ Hwf _ _ _ Hp Hp').
    by eapply list_elem_of_lookup_2.
  - intros Hin. apply list_elem_of_lookup in Hin as [i Hi].
    destruct (Forall2_lookup_r _ _ _ _ _ Hks Hi) as (p & _ & Hp).
    by exists p.
Qed.

Lemma insertion_keys c l ks op :
  exact c l → Forall2 (λ p k, items c !! k = Some p) l ks →
  size (items c) = length ks →
  0 < capacity c → len_items c ≤ capacity c →
  items c !! inserted_key op = None →
  let c' := insertion Err c op in
  let ks' := take (Z.to_nat (capacity c)) (inserted_key op :: ks) in
  ∃ l', exact c' l' ∧ Forall2 (λ p k, items c' !! k = Some p) l' ks'
      ∧ size (items c') = length ks'
      ∧ capacity c' = capacity c.
Proof.
  intros Hexact Hks Hlen Hcap Hsize Hkey c' ks'.
  pose proof (items_insertion c op Hkey) as Hitems. fold c' in Hitems.
  assert (exact c' (brk c :: evicted c l) ∧ capacity c' = capacity c)
    as [Hexact' Hcap'].
  { subst c'. destruct op as [now key v d|now key v]; simpl in *.
    - destruct (Set_fresh_exact now key v d c l) as (? & _); try done.
      split; [done|apply capacity_Set].
    - destruct (Get_fresh_exact (Err:=Err) now key v c l)
        as (c1 & -> & ? & _ & ? & _);
        done. }
  exists (brk c :: evicted c l). split; [done|].
  set (key := inserted_key op) in *.
  assert (∀ k p, items c !! k = Some p → k ≠ key) as Hother.
  { intros k p Hk ->. by rewrite Hkey in Hk. }
  unfold evicted, evict_if_full in *.
  destruct (decide (capacity c ≤ len_items c)) as [Hfull|Hroom].
  - assert (len_items c = capacity c) as Hexactly by lia.
    destruct (size_pos_lookup (items c)) as (k0 & p0 & Hk0).
    { unfold len_items in *. lia. }
    pose proof (exact_wf _ _ Hexact) as Hwf.
    destruct (removeTail_wf c l Hwf) as [[-> _]|(l0 & t & -> & Htail & _)].
    { apply (wf_indexed _ _ Hwf) in Hk0. by apply elem_of_nil in Hk0. }
    apply Forall2_app_inv_l in Hks as (ks0 & kt & Hks0 & Hkt & ->).
    apply Forall2_cons_inv_l in Hkt as (kt' & ks1 & Hkt & Hnil & ->).
    apply Forall2_nil_inv_l in Hnil as ->.
    rewrite removelast_last in *.
    pose proof (list_nodup _ _ (wf_list _ _ Hwf)) as Hnd.
    apply NoDup_app in Hnd as (_ & Hnd & _).
    rewrite (items_removeTail c t Htail) in Hitems.
    assert (find_key (map_to_list (items c)) t = kt') as Hfound.
    { eapply (wf_inj _ _ Hwf); [|done]. by eapply find_key_spec. }
    rewrite Hfound in Hitems.
    assert (ks' = key :: ks0) as ->.
    { subst ks'. rewrite length_app in Hlen. simpl in Hlen.
      unfold len_items in *.
      replace (Z.to_nat (capacity c)) with (S (length ks0)) by lia.
      simpl. by rewrite take_app_length. }
    split_and!; [|..|done].
    + constructor; [by rewrite Hitems, lookup_insert_eq|].
      apply Forall2_same_length_lookup. split; [by eapply Forall2_length|].
      intros i p k Hp Hk.
      pose proof (Forall2_lookup_lr _ _ _ _ _ _ Hks0 Hp Hk) as Hpk.
      simpl in Hpk. rewrite Hitems.
      rewrite lookup_insert_ne by (symmetry; by eapply Hother).
      rewrite lookup_delete_ne; [done|].
      intros <-. rewrite Hkt in Hpk. injection Hpk as <-.
      apply (Hnd t); [by eapply list_elem_of_lookup_2|left].
    + unfold len_items in *. rewrite Hitems.
      rewrite map_size_insert_None by (apply lookup_delete_None; by right).
      rewrite map_size_delete, Hkt. rewrite length_app in Hlen.
      simpl in *. lia.
  - assert (ks' = key :: ks) as ->.
    { subst ks'. rewrite take_ge; [done|]. unfold len_items in *.
      simpl. lia. }
    split_and!; [|..|done].
    + constructor; [by rewrite Hitems, lookup_insert_eq|].
      eapply Forall2_impl; [done|]. intros p k Hpk. simpl in *.
      rewrite Hitems. rewrite lookup_insert_ne; [done|].
      symmetry. by eapply Hother.
    + unfold len_items in *. rewrite Hitems.
      rewrite map_size_insert_None by done. simpl. lia.
Qed.

Lemma insertions_keys ops :
  ∀ c l ks,
  exact c l → Forall2 (λ p k, items c !! k = Some p) l ks →
  size (items c) = length ks →
  0 < capacity c → len_items c ≤ capacity c →
  NoDup (inserted_key <$> ops) →
  (∀ op, op ∈ ops → inserted_key op ∉ ks) →
  let c' := insertions Err ops c in
  let ks' := take (Z.to_nat (capacity c))
                  (reverse (inserted_key <$> ops) ++ ks) in
  ∃ l', exact c' l' ∧ Forall2 (λ p k, items c' !! k = Some p) l' ks'
      ∧ capacity c' = capacity c.
Proof.
  induction ops as [|op ops IH];
    intros c l ks Hexact Hks Hlen Hcap Hsize Hnd Hnew; simpl.
  - exists l. split_and!; [done| |done].
    rewrite take_ge; [done|]. unfold len_items in *. lia.
  - rewrite fmap_cons in Hnd. apply NoDup_cons in Hnd as [Hop Hnd].
    assert (items c !! inserted_key op = None) as Hkey.
    { destruct (items c !! inserted_key op) eqn:Hk; [|done].
      destruct (Hnew op); [left|].
      apply (keyed_index c l ks _ Hexact Hks). by eexists. }
    destruct (insertion_keys c l ks op)
      as (l1 & Hex1 & Hks1 & Hlen1 & Hcap1); try done.
    unfold insertions. simpl. fold (insertions Err ops (insertion Err c op)).
    destruct (IH (insertion Err c op) l1 _ Hex1 Hks1 Hlen1)
      as (l' & Hex' & Hks' & Hcap'); try done.
    + by rewrite Hcap1.
    + unfold len_items. rewrite Hcap1, Hlen1, length_take. lia.
    + intros op' Hop' Hin. apply subseteq_take in Hin.
      apply elem_of_cons in Hin as [Heq|Hin].
      * apply Hop. rewrite <- Heq. by apply list_elem_of_fmap_2.
      * apply (Hnew op'); [by right|done].
    + exists l'. rewrite Hcap1 in *. split_and!; [done| |done].
      rewrite reverse_cons, <- app_assoc. simpl.
      by rewrite take_app_take in Hks'.
Qed.

(** X11: with keys that are each inserted once, the cache holds the keys
    inserted last, as many as its capacity allows: after insertions (by
    [Set], or by a [Get] whose [compute] succeeds) of distinct keys into a
    new cache, a key is in the index exactly when it is among the last
    [capacity] keys inserted. *)
Theorem distinct_keys_leave_the_most_recent n ops k :
  NoDup (inserted_key <$> ops) →
  let c := insertions Err ops (New n : Cache (K:=K) (V:=V)) in
  capacity c = (if decide (n ≤ 0) then 1000 else n)
  ∧ (is_Some (items c !! k)
     ↔ k ∈ take (Z.to_nat (capacity c)) (reverse (inserted_key <$> ops))).
Proof.
  intros Hnd c.
  destruct (insertions_keys ops (New n) [] [])
    as (l' & Hexact & Hks & Hcap); try done.
  - apply New_exact.
  - unfold New. simpl. case_decide; lia.
  - unfold New, len_items. simpl. rewrite map_size_empty. case_decide; lia.
  - intros op _. apply not_elem_of_nil.
  - fold c in Hexact, Hks, Hcap. rewrite app_nil_r, <- Hcap in Hks.
    split; [by rewrite Hcap|]. by eapply keyed_index.
Qed.

End keys.

(** ** What the states reached sequentially keep *)

Section seq.
Context {K : Type} `{Countable K} `{!Zero K}.
Context {V : Type} `{!Zero V}.
Context {Err : Type}.
Implicit Types (c : Cache (K:=K) (V:=V)) (p q entry : ptr) (key : K).
Implicit Types (h : gmap ptr (CacheEntry (V:=V))) (l : list ptr).
Implicit Types (compute : ComputeFn (V:=V) (Err:=Err)).

Lemma capacity_unlink c p : capacity (unlink p c) = capacity c.
Proof. unfold unlink. repeat case_decide; simpl; apply capacity_detach. Qed.

Lemma capacity_Delete key c : capacity (Delete key c) = capacity c.
Proof.
  unfold Delete. destruct (items c !! key); [|done].
  simpl. apply capacity_unlink.
Qed.

Lemma capacity_Cleanup_in now order c :
  capacity (Cleanup_in now order c) = capacity c.
Proof.
  revert c. induction order as [|k order IH]; intros c; [done|].
  unfold Cleanup_in. simpl. fold (Cleanup_in now order (Cleanup_visit now c k)).
  rewrite IH. unfold Cleanup_visit. destruct (items c !! k); [|done].
  destruct (expired c _ now); [|done]. simpl. apply capacity_unlink.
Qed.

Lemma capacity_reserve key c : capacity (reserve key c).2 = capacity c.
Proof.
  unfold reserve. simpl. rewrite capacity_moveToFront. simpl.
  apply capacity_evict_if_full.
Qed.

Lemma capacity_miss_result key compute c c' out n :
  miss_result key compute c = Done c' out n → capacity c' = capacity c.
Proof.
  unfold miss_result. pose proof (capacity_reserve key c) as Hcap.
  destruct (reserve key c) as [entry c1]. simpl in Hcap.
  destruct compute as [[v [err|]]|]; intros [= <- _ _]; done.
Qed.

Lemma capacity_Get now key compute c c' out n :
  Get now key compute c = Done c' out n → capacity c' = capacity c.
Proof.
  destruct (items c !! key) as [p|] eqn:Hkey.
  - destruct (load_ready c p) eqn:Hready.
    + destruct (expired c p now) eqn:Hexp.
      * rewrite (Get_expired _ _ _ _ p) by done.
        intros Hres. by apply capacity_miss_result in Hres.
      * rewrite (Get_hit _ _ _ _ p) by done. intros [= <- _ _].
        apply capacity_moveToFront.
    + by rewrite (Get_not_ready _ _ _ _ p).
  - rewrite Get_miss by done. apply capacity_miss_result.
Qed.

Lemma reachable_capacity c : reachable (Err:=Err) c → 0 < capacity c.
Proof.
  induction 1 as [capacity|now key v d c _ IH
                 |now key compute c c' out n _ IH Hget
                 |key c _ IH|c _ IH|now order c _ IH Horder].
  - unfold New. simpl. case_decide; lia.
  - by rewrite capacity_Set.
  - by rewrite (capacity_Get _ _ _ _ _ _ _ Hget).
  - by rewrite capacity_Delete.
  - done.
  - by rewrite capacity_Cleanup_in.
Qed.

Lemma well_formed_size c l :
  well_formed c l → (size (items c) ≤ length l)%nat.
Proof.
  intros [Hlist Hidx Hinj].
  rewrite <- length_map_to_list, <- (length_fmap snd).
  apply submseteq_length, NoDup_submseteq.
  - apply NoDup_fmap_2_strong; [|apply NoDup_map_to_list].
    intros [k1 p1] [k2 p2] H1%elem_of_map_to_list H2%elem_of_map_to_list Heq.
    simpl in Heq. subst p2. f_equal. by eapply Hinj.
  - intros p ([k p'] & -> & Hk%elem_of_map_to_list)%list_elem_of_fmap.
    by eapply Hidx.
Qed.

(** X12: what every state reached by running the operations one after the
    other keeps: the capacity is positive, the recency list has no
    duplicates, read backwards from the tail it is the list read forwards
    from the head, head and tail are nil exactly when it is empty, it
    holds every entry of the index, and no two keys share an entry; so
    the index is never longer than the list. *)
Theorem reachable_states_are_well_linked c :
  reachable (Err:=Err) c →
  0 < capacity c
  ∧ NoDup (recency c)
  ∧ recency_back c = reverse (recency c)
  ∧ (head c = None ↔ recency c = [])
  ∧ (tail c = None ↔ recency c = [])
  ∧ (∀ k p, items c !! k = Some p → p ∈ recency c)
  ∧ (∀ k1 k2 p, items c !! k1 = Some p → items c !! k2 = Some p → k1 = k2)
  ∧ Size c ≤ Z.of_nat (length (recency c)).
Proof.
  intros Hreach. pose proof (reachable_capacity c Hreach) as Hcap.
  apply reachable_well_formed in Hreach as [l Hwf].
  pose proof (well_formed_size c l Hwf) as Hsize.
  pose proof (is_list_recency _ _ (wf_list _ _ Hwf)) as Hrec.
  pose proof (is_list_recency_back _ _ (wf_list _ _ Hwf)) as Hback.
  rewrite Hrec, Hback.
  destruct Hwf as [[Hnd Hh Ht Hl Ha] Hidx Hinj].
  split_and!; try done.
  - rewrite Hh. apply head_None.
  - rewrite Ht. apply last_None.
  - unfold Size, len_items. lia.
Qed.

(** *** Readiness *)

Lemma evict_if_full_lookup c k p :
  items (evict_if_full c) !! k = Some p → items c !! k = Some p.
Proof.
  unfold evict_if_full. case_decide; [|done].
  destruct (tail c) as [t|] eqn:Ht.
  - rewrite (items_removeTail c t Ht). by intros [_ ?]%lookup_delete_Some.
  - unfold removeTail. by rewrite Ht.
Qed.

Lemma all_ready_payload c c' :
  all_ready c →
  (∀ k p, items c' !! k = Some p →
          items c !! k = Some p ∧ payload c' p = payload c p) →
  all_ready c'.
Proof.
  intros Hready Hsame k p Hk. destruct (Hsame k p Hk) as [Hk' Hpay].
  rewrite load_ready_payload, Hpay, <- load_ready_payload. by eapply Hready.
Qed.

Lemma miss_result_all_ready key v err c l :
  well_formed c l → all_ready c →
  ∃ c', miss_result (Err:=Err) key (Some (v, err)) c = Done c' (Return v err) 1
      ∧ all_ready c'.
Proof.
  intros Hwf Hready.
  pose proof (reserve_items key c) as Hitems.
  pose proof (reserve_payload key c) as Hnew.
  pose proof (reserve_fst key c) as Hfst.
  pose proof (payload_reserve_old key c) as Hold.
  unfold miss_result. destruct (reserve key c) as [entry c1].
  simpl in *. subst entry.
  assert (∀ k p, k ≠ key → items c1 !! k = Some p →
            items c !! k = Some p ∧ (p < brk c)%nat) as Hother.
  { intros k p Hne. rewrite Hitems, lookup_insert_ne by done.
    intros Hk%evict_if_full_lookup. split; [done|].
    by eapply well_formed_allocated. }
  destruct err as [err|]; eexists; (split; [done|]).
  - intros k p. simpl. intros [Hne Hk]%lookup_delete_Some.
    destruct (Hother k p (not_eq_sym Hne) Hk) as [Hk' Hp].
    rewrite load_ready_payload, payload_store_ne by lia.
    rewrite payload_set_items, Hold, <- load_ready_payload by done.
    by eapply Hready.
  - intros k p. simpl. intros Hk.
    destruct (decide (k = key)) as [->|Hne].
    + rewrite Hitems, lookup_insert_eq in Hk. injection Hk as <-.
      unfold payload in Hnew.
      destruct (heap c1 !! brk c) as [e|] eqn:He; [|done].
      unfold load_ready, store. simpl.
      by rewrite !lookup_alter_eq, He.
    + destruct (Hother k p Hne Hk) as [Hk' Hp].
      rewrite load_ready_payload, !payload_store_ne by lia.
      rewrite Hold, <- load_ready_payload by done.
      by eapply Hready.
Qed.

(** X13: with one goroutine and funcs that are not nil, [Get] never
    blocks.  When every entry of the index is ready, a [Get] whose
    [compute] is not nil returns, having called [compute] at most once,
    and leaves every entry ready; [Set], [Delete], [Clear] and [Cleanup]
    leave every entry ready too. *)
Theorem Get_returns_when_every_entry_is_ready c l :
  well_formed c l → all_ready c →
  (∀ now key v err, ∃ c' v' err' n,
     Get (Err:=Err) now key (Some (v, err)) c = Done c' (Return v' err') n
     ∧ (n ≤ 1)%nat ∧ all_ready c' ∧ ∃ l', well_formed c' l')
  ∧ (∀ now key v d, all_ready (Set_ now key v d c))
  ∧ (∀ key, all_ready (Delete key c))
  ∧ all_ready (Clear c)
  ∧ (∀ now order, all_ready (Cleanup_in now order c)).
Proof.
  intros Hwf Hready. split_and!.
  - intros now key v err.
    assert (∀ c' v' err' n,
              Get (Err:=Err) now key (Some (v, err)) c
              = Done c' (Return v' err') n →
              ∃ l', well_formed c' l') as Hwf'.
    { intros c' v' err' n Hget. by eapply Get_wf. }
    destruct (items c !! key) as [p|] eqn:Hkey.
    + pose proof (Hready key p Hkey) as Hp.
      destruct (expired c p now) eqn:Hexp.
      * destruct (miss_result_all_ready key v err
                    (set_items (delete key (items c)) c) l)
          as (c' & Hres & Hready').
        { by apply delete_index_wf. }
        { intros k q. simpl. intros [_ Hk]%lookup_delete_Some.
          by apply (Hready k q). }
        rewrite <- (Get_expired now _ _ _ p) in Hres by done.
        exists c', v, err, 1%nat. split_and!; [done|lia|done|by eapply Hwf'].
      * pose proof (Get_hit now key (Some (v, err)) c p Hkey Hp Hexp) as Hget.
        eexists _, _, _, _. split_and!; [exact Hget|lia| |by eapply Hwf'].
        eapply all_ready_payload; [done|]. intros k q.
        rewrite items_moveToFront, payload_moveToFront. by split.
    + destruct (miss_result_all_ready key v err c l Hwf Hready)
        as (c' & Hres & Hready').
      rewrite <- (Get_miss now) in Hres by done.
      exists c', v, err, 1%nat. split_and!; [done|lia|done|by eapply Hwf'].
  - intros now key v d k p. rewrite Set_items. intros Hk.
    destruct (decide (k = key)) as [->|Hne].
    + rewrite lookup_insert_eq in Hk. injection Hk as <-.
      by rewrite load_ready_payload, Set_payload.
    + rewrite lookup_insert_ne in Hk by done.
      apply evict_if_full_lookup in Hk.
      rewrite load_ready_payload, payload_Set_old, <- load_ready_payload.
      * by eapply Hready.
      * by eapply well_formed_allocated.
  - intros key. eapply all_ready_payload; [done|]. intros k p Hk.
    split; [|apply payload_Delete].
    revert Hk. unfold Delete. destruct (items c !! key) eqn:Hkey; [|done].
    simpl. rewrite items_unlink. by intros [_ ?]%lookup_delete_Some.
  - by intros k p.
  - intros now order. eapply all_ready_payload; [done|]. intros k p Hk.
    split; [|apply payload_Cleanup_in].
    clear Hwf Hready. revert c Hk.
    induction order as [|k' order IH]; intros c; [done|].
    unfold Cleanup_in. simpl.
    fold (Cleanup_in now order (Cleanup_visit now c k')).
    intros Hk%IH. revert Hk. unfold Cleanup_visit.
    destruct (items c !! k') as [q|]; [|done].
    destruct (expired c q now); [|done].
    simpl. by intros [_ ?]%lookup_delete_Some.
Qed.

(** *** Cleanup *)

Lemma Cleanup_in_nothing_expired now order c :
  (∀ k p, items c !! k = Some p → expired c p now = false) →
  Cleanup_in now order c = c.
Proof.
  intros Hnone. induction order as [|k order IH]; [done|].
  unfold Cleanup_in. simpl.
  assert (Cleanup_visit now c k = c) as ->; [|exact IH].
  unfold Cleanup_visit. destruct (items c !! k) as [p|] eqn:Hk; [|done].
  by rewrite (Hnone k p Hk).
Qed.

Lemma expired_earlier c p now now' :
  now' ≤ now → expired c p now = false → expired c p now' = false.
Proof.
  unfold expired. intros Hle.
  destruct (load_expiresAt c p =? 0); [done|]. simpl.
  rewrite !Z.ltb_ge. lia.
Qed.

(** X14: [Cleanup] changes nothing when no entry of the index has
    expired; so a second [Cleanup], at the same time or at an earlier
    one, changes nothing, in whatever order the map is iterated. *)
Theorem Cleanup_again_changes_nothing now order c l :
  well_formed c l → order ≡ₚ (map_to_list (items c)).*1 →
  ((∀ k p, items c !! k = Some p → expired c p now = false) →
   Cleanup_in now order c = c)
  ∧ ∀ now' order', now' ≤ now →
      Cleanup_in now' order' (Cleanup_in now order c) = Cleanup_in now order c.
Proof.
  intros Hwf Horder. split; [apply Cleanup_in_nothing_expired|].
  intros now' order' Hle. apply Cleanup_in_nothing_expired.
  intros k p Hk. apply (expired_earlier _ _ now); [done|].
  destruct (Cleanup_in_spec now order c l (λ p, ¬ stale c now p))
    as (_ & Hitems & Hpay).
  - rewrite Horder. apply NoDup_fst_map_to_list.
  - done.
  - intros q _. apply not_iff_compat. unfold stale. split.
    + intros [([k' q'] & -> & Hk')%list_elem_of_fmap Hexp].
      apply elem_of_map_to_list in Hk'. exists k'. split_and!; [|done..].
      rewrite Horder. apply list_elem_of_fmap. exists (k', q').
      split; [done|]. by apply elem_of_map_to_list.
    + intros (k' & _ & Hk' & Hexp). split; [|done].
      apply list_elem_of_fmap. exists (k', q). split; [done|].
      by apply elem_of_map_to_list.
  - apply Hitems in Hk as [Hk Hnot].
    rewrite (expired_payload c _ p now) by apply Hpay.
    destruct (expired c p now) eqn:Hexp; [|done].
    destruct Hnot. split; [|done].
    rewrite Horder. apply list_elem_of_fmap. exists (k, p).
    split; [done|]. by apply elem_of_map_to_list.
Qed.

(** X15: the key that [removeTail] deletes does not depend on the order in
    which [range c.items] produces the pairs (Go leaves it unspecified)
    when no two keys share an entry: in whatever order, the loop finds the
    same key, and it is a key of the tail when the tail has one. *)
Theorem evicted_key_is_the_same_in_any_iteration_order c l t kvs :
  well_formed c l → tail c = Some t → kvs ≡ₚ map_to_list (items c) →
  find_key kvs t = find_key (map_to_list (items c)) t
  ∧ (indexed c t → items c !! find_key kvs t = Some t)
  ∧ items (removeTail c) = delete (find_key kvs t) (items c).
Proof.
  intros Hwf Htail Hperm.
  assert (find_key kvs t = find_key (map_to_list (items c)) t) as Hsame.
  { apply find_key_any_order; [|done]. apply (wf_inj _ _ Hwf). }
  rewrite Hsame. split_and!; [done| |by apply items_removeTail].
  intros [k Hk]. by eapply find_key_spec.
Qed.

End seq.

(** ** Runs that keep the invariant of the recency list *)

Section in_step.
Context {K : Type} `{Countable K} `{!Zero K}.
Context {V : Type} `{!Zero V}.
Context {Err : Type}.
Implicit Types (c : Cache (K:=K) (V:=V)) (p q entry : ptr) (key : K).
Implicit Types (h : gmap ptr (CacheEntry (V:=V))) (l : list ptr).
Implicit Types (compute : ComputeFn (V:=V) (Err:=Err)).

Lemma moveToFront_exact c l p :
  exact c l → p ∈ l → exact (moveToFront p c) (p :: filter (λ q, q ≠ p) l).
Proof.
  intros [Hwf Hexact] Hp. split; [by apply moveToFront_wf|].
  intros q Hq. unfold indexed. rewrite items_moveToFront. apply Hexact.
  apply elem_of_cons in Hq as [->|[_ ?]%list_elem_of_filter]; done.
Qed.

Lemma Cleanup_in_exact now order c l :
  exact c l → order ≡ₚ (map_to_list (items c)).*1 →
  exact (Cleanup_in now order c) (filter (λ p, ¬ stale c now p) l)
  ∧ items (Cleanup_in now order c) ⊆ items c.
Proof.
  intros [Hwf Hexact] Horder.
  assert (∀ k p, items c !! k = Some p → k ∈ order) as Hin.
  { intros k p Hk. rewrite Horder. apply list_elem_of_fmap. exists (k, p).
    split; [done|]. by apply elem_of_map_to_list. }
  destruct (Cleanup_in_spec now order c l (λ p, ¬ stale c now p))
    as (Hwf' & Hitems & Hpay).
  - rewrite Horder. apply NoDup_fst_map_to_list.
  - done.
  - intros q _. apply not_iff_compat. unfold stale. split.
    + intros [([k' q'] & -> & Hk')%list_elem_of_fmap Hexp].
      apply elem_of_map_to_list in Hk'. exists k'.
      split_and!; [by eapply Hin|done..].
    + intros (k' & _ & Hk' & Hexp). split; [|done].
      apply list_elem_of_fmap. exists (k', q). split; [done|].
      by apply elem_of_map_to_list.
  - split_and!; [split; [done|]|].
    + intros p [Hfresh Hp]%list_elem_of_filter.
      destruct (Hexact p Hp) as [k Hk]. exists k. apply Hitems.
      split; [done|]. intros [_ Hexp]. apply Hfresh. split; [|done].
      apply list_elem_of_fmap. exists (k, p). split; [done|].
      by apply elem_of_map_to_list.
    + apply map_subseteq_spec. intros k p Hk. by apply Hitems in Hk as [? _].
Qed.

Lemma size_Delete key c :
  (size (items (Delete key c)) ≤ size (items c))%nat.
Proof.
  unfold Delete. destruct (items c !! key) as [p|] eqn:Hkey; [|done].
  simpl. rewrite items_unlink, map_size_delete, Hkey. simpl. lia.
Qed.

Lemma reachable_in_step_exact c :
  reachable_in_step (Err:=Err) c →
  ∃ l, exact c l ∧ 0 < capacity c ∧ len_items c ≤ capacity c.
Proof.
  induction 1 as [capacity
                 |now key v d c _ (l & Hexact & Hcap & Hsize) Hkey
                 |now key v c c' out n _ (l & Hexact & Hcap & Hsize) Hkey Hget
                 |now key compute c p c' out n _ (l & Hexact & Hcap & Hsize)
                    Hkey Hexp Hget
                 |key c _ (l & Hexact & Hcap & Hsize)
                 |c _ (l & Hexact & Hcap & Hsize)
                 |now order c _ (l & Hexact & Hcap & Hsize) Horder].
  - exists []. split_and!; [apply New_exact|..].
    + unfold New. simpl. case_decide; lia.
    + unfold New, len_items. simpl. rewrite map_size_empty. case_decide; lia.
  - destruct (Set_fresh_exact now key v d c l) as (? & ? & _); try done.
    eexists. rewrite capacity_Set. by split_and!.
  - destruct (Get_fresh_exact (Err:=Err) now key v c l)
      as (c1 & Hget1 & ? & ? & Hcap1 & _); try done.
    rewrite Hget1 in Hget. injection Hget as <- _ _.
    eexists. rewrite Hcap1. by split_and!.
  - destruct (load_ready c p) eqn:Hready.
    + rewrite (Get_hit _ _ _ _ p) in Hget by done. injection Hget as <- _ _.
      eexists. split_and!.
      * apply moveToFront_exact; [done|].
        by eapply (wf_indexed _ _ (exact_wf _ _ Hexact)).
      * by rewrite capacity_moveToFront.
      * unfold len_items. by rewrite items_moveToFront, capacity_moveToFront.
    + by rewrite (Get_not_ready _ _ _ _ p) in Hget.
  - eexists. split_and!; [by apply Delete_exact|by rewrite capacity_Delete|].
    rewrite capacity_Delete. pose proof (size_Delete key c).
    unfold len_items in *. lia.
  - exists []. split_and!; [|done|].
    + split; [by eapply Clear_wf, exact_wf|]. by intros p ?%elem_of_nil.
    + unfold len_items, Clear. simpl. rewrite map_size_empty. lia.
  - destruct (Cleanup_in_exact now order c l Hexact Horder) as [? Hsub].
    eexists. rewrite capacity_Cleanup_in. split_and!; [done..|].
    apply map_subseteq_size in Hsub. unfold len_items in *. lia.
Qed.

End in_step.

Section in_step_thm.
Context {K : Type} `{Countable K} `{!Zero K}.
Context {V : Type} `{!Zero V}.
Context {Err : Type}.
Implicit Types (c : Cache (K:=K) (V:=V)) (p q entry : ptr) (key : K).
Implicit Types (l : list ptr).

Lemma exact_size c l : exact c l → size (items c) = length l.
Proof.
  intros Hexact. apply Nat.le_antisymm.
  - apply well_formed_size, Hexact.
  - rewrite <- length_map_to_list, <- (length_fmap snd).
    apply submseteq_length, NoDup_submseteq.
    + apply (list_nodup c), Hexact.
    + intros p Hp. destruct (exact_indexed _ _ Hexact p Hp) as [k Hk].
      apply list_elem_of_fmap. exists (k, p). split; [done|].
      by apply elem_of_map_to_list.
Qed.

(** X16: outside the paths that leave an entry behind in the list, the
    cache is as described: in every state reached by [New], [Set] on keys
    that are absent, [Get] that hits an entry that has not expired or
    misses with a [compute] that succeeds, [Delete], [Clear] and
    [Cleanup], the invariant of the recency list holds, the list is as
    long as the index, and [Size()] is within the capacity. *)
Theorem in_step_states_keep_the_invariant_and_the_capacity c :
  reachable_in_step (Err:=Err) c →
  list_invariant c
  ∧ Size c = Z.of_nat (length (recency c))
  ∧ 0 < capacity c ∧ Size c ≤ capacity c.
Proof.
  intros (l & Hexact & Hcap & Hsize)%reachable_in_step_exact.
  pose proof (exact_size c l Hexact) as Hlen.
  rewrite (is_list_recency c l (wf_list _ _ (exact_wf _ _ Hexact))).
  split_and!; [by eapply exact_list_invariant| |done..].
  unfold Size, len_items. lia.
Qed.

End in_step_thm.

(** ** Interleaved calls of Get on one key *)

Section flight.
Context {K : Type} `{Countable K} `{!Zero K}.
Context {V : Type} `{!Zero V}.
Context {Err : Type}.
Implicit Types (c : Cache (K:=K) (V:=V)) (p q entry e : ptr) (key : K).
Implicit Types (compute : ComputeFn (V:=V) (Err:=Err)).
Implicit Types (pc : GetPc (V:=V) (Err:=Err)).
Implicit Types (s : System (K:=K) (V:=V) (Err:=Err)).
Implicit Types (gs : list (GetCall (K:=K) (V:=V) (Err:=Err))).

Lemma flight_step_absent now key w c pc c' pc' :
  items c !! key = None → pc = AtLookup ∨ pc = AtReserve →
  Get_step (Err:=Err) now key (Some (w, None)) c pc = Some (c', pc') →
  (c' = c ∧ pc' = AtReserve)
  ∨ (items c' !! key = Some (brk c)
     ∧ payload c' (brk c) = Some (zero, 0, false)
     ∧ pc' = AtCompute (brk c)).
Proof.
  intros Hkey [->| ->]; cbn [Get_step]; rewrite Hkey.
  - intros [= <- <-]. by left.
  - pose proof (reserve_fst key c) as Hfst.
    pose proof (reserve_items key c) as Hitems.
    pose proof (reserve_payload key c) as Hpay.
    destruct (reserve key c) as [e c1]. simpl in *. subst e.
    intros [= <- <-]. right. split_and!; [|done..].
    by rewrite Hitems, lookup_insert_eq.
Qed.

Lemma payload_store_value c e x t r v :
  payload c e = Some (x, t, r) →
  payload (store e (set_value v) c) e = Some (v, t, r).
Proof.
  unfold payload. destruct (heap c !! e) as [e0|] eqn:He; [|done].
  intros [= <- <- <-]. by rewrite heap_store, lookup_alter_eq, He.
Qed.

Lemma payload_store_ready c e x t r :
  payload c e = Some (x, t, r) →
  payload (store e (set_ready true) c) e = Some (x, t, true).
Proof.
  unfold payload. destruct (heap c !! e) as [e0|] eqn:He; [|done].
  intros [= <- <- <-]. by rewrite heap_store, lookup_alter_eq, He.
Qed.

Lemma flight_step_owner now key e v x r n c pc c' pc' :
  items c !! key = Some e → payload c e = Some (x, 0, r) →
  owner_at e v x r n pc →
  Get_step (Err:=Err) now key (Some (v, None)) c pc = Some (c', pc') →
  r = false
  ∧ items c' !! key = Some e
  ∧ ∃ x' r', payload c' e = Some (x', 0, r')
      ∧ owner_at e v x' r' (n + calls_compute (Some (v, None)) pc) pc'
      ∧ (r' = true → x' = v ∧ (n + calls_compute (Some (v, None)) pc = 1)%nat)
      ∧ (n + calls_compute (Some (v, None)) pc ≤ 1)%nat.
Proof.
  intros Hkey Hpay Hown.
  destruct pc; simpl in Hown; try done; cbn [Get_step calls_compute].
  - destruct Hown as (-> & -> & ->). intros [= <- <-].
    split_and!; [done..|]. exists x, false. by split_and!.
  - destruct Hown as (-> & -> & -> & ->). intros [= <- <-].
    split_and!; [done..|]. exists v, false.
    split_and!; [by eapply payload_store_value|done..|lia].
  - destruct Hown as (-> & -> & -> & -> & ->). intros [= <- <-].
    split_and!; [done..|]. exists v, true.
    split_and!; [by eapply payload_store_ready|done..|lia].
Qed.

Lemma waiter_at_later e v x x' r' pc :
  waiter_at e v x false pc → waiter_at e v x' r' pc.
Proof. destruct pc; simpl; try done; by intros (_ & ? & _). Qed.

Lemma flight_step_waiter now key compute e v x r c pc c' pc' :
  items c !! key = Some e → payload c e = Some (x, 0, r) →
  (r = true → x = v) → waiter_at e v x r pc →
  Get_step now key compute c pc = Some (c', pc') →
  items c' !! key = Some e ∧ payload c' e = Some (x, 0, r)
  ∧ waiter_at e v x r pc' ∧ calls_compute compute pc = 0%nat.
Proof.
  intros Hkey Hpay Hrv Hw.
  assert (load_ready c e = r) as Hready.
  { by rewrite load_ready_payload, Hpay. }
  assert (load_value c e = x) as Hvalue.
  { by rewrite load_value_payload, Hpay. }
  assert (expired c e now = false) as Hexp.
  { by eapply unset_not_expired. }
  destruct pc; simpl in Hw; try done; cbn [Get_step calls_compute].
  - rewrite Hkey. by intros [= <- <-].
  - subst entry. rewrite Hready. destruct r; [|done].
    intros [= <- <-]. simpl. split_and!; try done; by apply Hrv.
  - destruct Hw as (-> & -> & ->). rewrite Hexp. by intros [= <- <-].
  - destruct Hw as (-> & -> & ->). intros [= <- <-].
    by rewrite items_moveToFront, payload_moveToFront.
  - destruct Hw as (-> & -> & ->). intros [= <- <-].
    by rewrite Hvalue.
  - rewrite Hkey. by intros [= <- <-].
  - subst entry. rewrite Hready. destruct r; [|done].
    intros [= <- <-]. simpl. split_and!; try done; by apply Hrv.
  - destruct Hw as (-> & -> & ->). intros [= <- <-].
    by rewrite Hvalue.
Qed.

Lemma flight_step key gs s i now :
  flight key gs s → flight key gs (sys_step s (GetStep i now)).
Proof.
  intros (Hn & Hlen & Hcalls & Hphase). cbn [sys_step].
  destruct (calls s !! i) as [g|] eqn:Hg; [|done].
  destruct (Hcalls i g Hg) as (g0 & Hg0 & Hgk & Hgc & w & Hw).
  destruct (Get_step now (call_key g) (call_compute g) (shared s) (call_pc g))
    as [[c' pc']|] eqn:Hstep; [|done].
  rewrite Hgk in Hstep.
  assert (∀ i' g', <[i := mkGetCall (call_key g) (call_compute g) pc']>
                     (calls s) !! i' = Some g' →
            (i' = i ∧ g' = mkGetCall (call_key g) (call_compute g) pc')
            ∨ (i' ≠ i ∧ calls s !! i' = Some g')) as Hupd.
  { intros i' g' [(-> & <- & _)|[? ?]]%list_lookup_insert_Some; auto. }
  assert (∀ i' g', <[i := mkGetCall (call_key g) (call_compute g) pc']>
                     (calls s) !! i' = Some g' →
       ∃ g0, gs !! i' = Some g0 ∧ call_key g' = key
             ∧ call_compute g' = call_compute g0
             ∧ ∃ w, call_compute g' = Some (w, None)) as Hcalls'.
  { intros i' g' [[-> ->]|[_ Hg']]%Hupd; [|by apply Hcalls].
    exists g0. simpl. split_and!; [done..|by exists w]. }
  destruct (items (shared s) !! key) as [e|] eqn:Hkey.
  - destruct Hphase as (j & v & x & r & Hpay & Hrv & Hj & Hroles).
    pose proof (Hroles i g Hg) as Hrole.
    destruct (decide (i = j)) as [->|Hij].
    + destruct Hj as (gj & Hgj & Hv).
      assert (call_compute g = Some (v, None)) as Hcv by congruence.
      rewrite Hcv in Hstep |- *.
      destruct (flight_step_owner _ _ _ _ _ _ _ _ _ _ _ Hkey Hpay Hrole Hstep)
        as (-> & Hkey' & x' & r' & Hpay' & Hown' & Hrv' & Hn').
      split_and!; simpl; [done|by rewrite length_insert| |].
      { rewrite <- Hcv. exact Hcalls'. }
      rewrite Hkey'. exists j, v, x', r'.
      split_and!; [done..|by exists gj|].
      intros i' g'. rewrite <- Hcv. intros [[-> ->]|[Hne Hg']]%Hupd.
      * rewrite decide_True by done. by rewrite Hcv.
      * rewrite decide_False by done.
        specialize (Hroles i' g' Hg'). rewrite decide_False in Hroles by done.
        by eapply waiter_at_later.
    + assert (r = true → x = v) as Hrv0 by (intros Hr; by apply Hrv).
      destruct (flight_step_waiter _ _ _ _ _ _ _ _ _ _ _
                  Hkey Hpay Hrv0 Hrole Hstep)
        as (Hkey' & Hpay' & Hw' & Hzero).
      rewrite Hzero, Nat.add_0_r.
      split_and!; simpl; [done|by rewrite length_insert|done|].
      rewrite Hkey'. exists j, v, x, r. split_and!; [done..|].
      intros i' g' [[-> ->]|[Hne Hg']]%Hupd.
      * by rewrite decide_False by done.
      * by apply Hroles.
  - destruct Hphase as (Hzero & Hpcs).
    rewrite Hw in Hstep.
    assert (calls_compute (call_compute g) (call_pc g) = 0%nat) as Hnone.
    { by destruct (Hpcs i g Hg) as [-> | ->]. }
    rewrite Hnone, Nat.add_0_r.
    destruct (flight_step_absent _ _ _ _ _ _ _ Hkey (Hpcs i g Hg) Hstep)
      as [[-> ->]|(Hkey' & Hpay' & ->)].
    + split_and!; simpl; [done|by rewrite length_insert|done|].
      rewrite Hkey. split; [done|].
      intros i' g' [[-> ->]|[Hne Hg']]%Hupd; [by right|by eapply Hpcs].
    + split_and!; simpl; [done|by rewrite length_insert|done|].
      rewrite Hkey'. exists i, w, zero, false.
      split_and!; [done|done| |].
      { exists g0. split; [done|]. by rewrite <- Hgc. }
      intros i' g' [[-> ->]|[Hne Hg']]%Hupd.
      * rewrite decide_True by done. simpl. by rewrite Hzero.
      * rewrite decide_False by done.
        by destruct (Hpcs i' g' Hg') as [-> | ->].
Qed.

Lemma flight_run key gs sched :
  ∀ s, Forall is_Get_step sched → flight key gs s →
       flight key gs (sys_run s sched).
Proof.
  induction sched as [|ev sched IH]; intros s Hsched Hinv; [done|].
  apply Forall_cons in Hsched as [Hev Hsched].
  unfold sys_run. simpl. fold (sys_run (sys_step s ev) sched).
  apply IH; [done|]. destruct ev; try done. by apply flight_step.
Qed.

Lemma flight_start key c gs :
  items c !! key = None →
  Forall (λ g, call_key g = key ∧ call_pc g = AtLookup
               ∧ ∃ v, call_compute g = Some (v, None)) gs →
  flight key gs (mkSystem c gs 0).
Proof.
  intros Hkey Hgs. rewrite Forall_lookup in Hgs.
  split_and!; simpl; [lia|done| |].
  - intros i g Hg. destruct (Hgs i g Hg) as (? & _ & ?).
    by exists g.
  - rewrite Hkey. split; [done|]. intros i g Hg.
    destruct (Hgs i g Hg) as (_ & ? & _). by left.
Qed.

(** X17: single flight.  Goroutines call [Get] on the same key, absent
    from the cache, each with a [compute] that succeeds, and no other
    method runs meanwhile.  However their transitions are interleaved,
    [compute] is called at most once in all, and every call that has
    returned has returned, with a nil error, the value of one and the
    same [compute], which has been called. *)
Theorem Get_is_single_flight key c gs sched :
  items c !! key = None →
  Forall (λ g, call_key g = key ∧ call_pc g = AtLookup
               ∧ ∃ v, call_compute g = Some (v, None)) gs →
  Forall is_Get_step sched →
  let s := sys_run (mkSystem c gs 0) sched in
  (computes s ≤ 1)%nat
  ∧ ∃ v, ∀ i out, outcome_of s i = Some out →
      out = Return v None ∧ computes s = 1%nat
      ∧ ∃ j g, gs !! j = Some g ∧ call_compute g = Some (v, None).
Proof.
  intros Hkey Hgs Hsched s.
  pose proof (flight_run key gs sched _ Hsched (flight_start key c gs Hkey Hgs))
    as (Hn & _ & _ & Hphase).
  fold s in Hn, Hphase. split; [done|].
  destruct (items (shared s) !! key) as [e|].
  - destruct Hphase as (j & v & x & r & _ & Hrv & (gj & Hgj & Hv) & Hroles).
    exists v. intros i out. unfold outcome_of.
    destruct (calls s !! i) as [g|] eqn:Hg; [|done]. simpl.
    destruct (call_pc g) eqn:Hpc; try done. intros [= ->].
    specialize (Hroles i g Hg). rewrite Hpc in Hroles.
    assert (out = Return v None ∧ r = true) as [-> Hr].
    { destruct (decide (i = j)); simpl in Hroles; by destruct Hroles as (? & ? & _). }
    destruct (Hrv Hr) as [_ ?]. split_and!; [done..|by exists j, gj].
  - destruct Hphase as (_ & Hpcs). exists zero. intros i out.
    unfold outcome_of.
    destruct (calls s !! i) as [g|] eqn:Hg; [|done]. simpl.
    by destruct (Hpcs i g Hg) as [-> | ->].
Qed.

Lemma owner_enabled now key e v x n c pc :
  owner_at e v x false n pc →
  is_Some (Get_step (Err:=Err) now key (Some (v, None)) c pc).
Proof.
  destruct pc; simpl; try done; try (by eexists).
  by intros (_ & [=] & _).
Qed.

Lemma waiter_enabled now key compute e v x c pc :
  items c !! key = Some e → payload c e = Some (x, 0, true) →
  waiter_at e v x true pc → (∀ out, pc ≠ Finished out) →
  is_Some (Get_step now key compute c pc).
Proof.
  intros Hkey Hpay Hw Hpc.
  assert (load_ready c e = true) as Hready.
  { by rewrite load_ready_payload, Hpay. }
  destruct pc; simpl in Hw; try done; cbn [Get_step];
    rewrite ?Hkey; try (subst entry; rewrite Hready);
    try (by eexists); try (by destruct (expired c entry now)).
  by destruct (Hpc out).
Qed.

Lemma absent_enabled now key compute c pc :
  pc = AtLookup ∨ pc = AtReserve →
  is_Some (Get_step now key compute c pc).
Proof.
  intros [-> | ->]; cbn [Get_step]; destruct (items c !! key);
    try (by eexists); by destruct (reserve key c).
Qed.

(** X18: the calls do not block one another for ever.  In the same
    setting, as long as a call has not returned some call can make its
    next transition, whatever the clock shows: the call that reserved the
    entry while it has not returned, any call once it has. *)
Theorem unfinished_Get_calls_can_go_on key c gs sched now :
  items c !! key = None →
  Forall (λ g, call_key g = key ∧ call_pc g = AtLookup
               ∧ ∃ v, call_compute g = Some (v, None)) gs →
  Forall is_Get_step sched →
  let s := sys_run (mkSystem c gs 0) sched in
  ∀ i, (i < length gs)%nat → outcome_of s i = None →
  ∃ i' g, calls s !! i' = Some g
    ∧ is_Some (Get_step now (call_key g) (call_compute g) (shared s)
                        (call_pc g)).
Proof.
  intros Hkey Hgs Hsched s i Hi Hout.
  pose proof (flight_run key gs sched _ Hsched (flight_start key c gs Hkey Hgs))
    as (Hn & Hlen & Hcalls & Hphase).
  fold s in Hn, Hlen, Hcalls, Hphase.
  destruct (lookup_lt_is_Some_2 (calls s) i) as [g Hg]; [by rewrite Hlen|].
  assert (∀ out, call_pc g ≠ Finished out) as Hpc.
  { intros out Hpc. unfold outcome_of in Hout. rewrite Hg in Hout.
    simpl in Hout. by rewrite Hpc in Hout. }
  destruct (Hcalls i g Hg) as (g0 & Hg0 & Hgk & Hgc & w & Hw).
  destruct (items (shared s) !! key) as [e|] eqn:Hitems.
  - destruct Hphase as (j & v & x & r & Hpay & Hrv & (gj & Hgj & Hv) & Hroles).
    destruct r.
    + exists i, g. split; [done|]. rewrite Hgk.
      pose proof (Hroles i g Hg) as Hrole.
      destruct (decide (i = j)).
      * destruct (call_pc g); simpl in Hrole; try done;
          try (by destruct Hrole as (_ & [=] & _));
          try (by destruct Hrole as (_ & _ & [=] & _)).
        by destruct (Hpc out).
      * by eapply waiter_enabled.
    + destruct (lookup_lt_is_Some_2 (calls s) j) as [g' Hg'].
      { rewrite Hlen. by eapply lookup_lt_Some. }
      exists j, g'. split; [done|].
      destruct (Hcalls j g' Hg') as (g0' & Hg0' & -> & Hgc' & _).
      pose proof (Hroles j g' Hg') as Hrole.
      rewrite decide_True in Hrole by done.
      assert (call_compute g' = Some (v, None)) as -> by congruence.
      by eapply owner_enabled.
  - destruct Hphase as (_ & Hpcs). exists i, g. split; [done|].
    apply absent_enabled. by eapply Hpcs.
Qed.

End flight.

(** ** Interleaved calls of Get on any keys *)

Section flights.
Context {K : Type} `{Countable K} `{!Zero K}.
Context {V : Type} `{!Zero V}.
Context {Err : Type}.
Implicit Types (c : Cache (K:=K) (V:=V)) (p q entry e : ptr) (key k : K).
Implicit Types (compute : ComputeFn (V:=V) (Err:=Err)).
Implicit Types (pc : GetPc (V:=V) (Err:=Err)).
Implicit Types (g : GetCall (K:=K) (V:=V) (Err:=Err)).
Implicit Types (s : System (K:=K) (V:=V) (Err:=Err)).
Implicit Types (gs cs : list (GetCall (K:=K) (V:=V) (Err:=Err))).

Lemma call_at_ext c c' k compute pc :
  items c' !! k = items c !! k →
  (∀ e, items c !! k = Some e → payload c' e = payload c e) →
  call_at c k compute pc → call_at c' k compute pc.
Proof.
  intros Hitems Hpay.
  assert (∀ e, items c !! k = Some e →
            load_ready c' e = load_ready c e
            ∧ load_value c' e = load_value c e) as Hload.
  { intros e He. by rewrite !load_ready_payload, !load_value_payload, Hpay. }
  destruct pc; simpl; rewrite ?Hitems; try done.
  - intros [He ?]. destruct (Hload _ He) as [-> _]. done.
  - intros [He ?]. destruct (Hload _ He) as [-> _]. done.
  - intros [He ?]. destruct (Hload _ He) as [-> _]. done.
  - intros [He ?]. destruct (Hload _ He) as [-> _]. done.
  - intros [He ?]. destruct (Hload _ He) as [-> _]. done.
  - intros (He & ? & ?). destruct (Hload _ He) as [-> _]. done.
  - intros (He & ? & ? & ?). destruct (Hload _ He) as [-> ->]. done.
  - intros (e & He & ? & ?). exists e. destruct (Hload _ He) as [-> ->]. done.
Qed.

Lemma length_filter_insert {A} (P : A → Prop) `{!∀ x, Decision (P x)}
    (l : list A) i x y :
  l !! i = Some x →
  (length (filter P (<[i := y]> l)) + (if decide (P x) then 1 else 0)
   = length (filter P l) + (if decide (P y) then 1 else 0))%nat.
Proof.
  revert i. induction l as [|z l IH]; intros [|i] Hi; simplify_eq/=.
  - rewrite !filter_cons. repeat case_decide; simpl; lia.
  - specialize (IH i Hi). rewrite !filter_cons.
    destruct (decide (P z)); simpl; lia.
Qed.

Lemma calls_update cs i g i' g' :
  <[i := g]> cs !! i' = Some g' →
  (i' = i ∧ g' = g) ∨ (i' ≠ i ∧ cs !! i' = Some g').
Proof.
  intros [(-> & <- & _)|[? ?]]%list_lookup_insert_Some; auto.
Qed.

Lemma computing_computes_for pc : computing pc → computes_for pc = true.
Proof. by destruct pc. Qed.

(** A transition that changes neither the index nor the payload of an
    entry, by a call that is not computing. *)
Lemma flights_local cap gs c c' cs n i g pc' :
  flights cap gs (mkSystem c cs n) → cs !! i = Some g →
  items c' = items c → brk c' = brk c → capacity c' = capacity c →
  (∀ p, payload c' p = payload c p) →
  computes_for (call_pc g) = false → computes_for pc' = false →
  call_at c' (call_key g) (call_compute g) pc' →
  flights cap gs
    (mkSystem c' (<[i := mkGetCall (call_key g) (call_compute g) pc']> cs) n).
Proof.
  intros [Hlen Hcalls Hcap Hent Hinj Hat Hown Hcnt] Hi Hitems Hbrk Hcapacity
         Hpay Hg Hpc' Hat'.
  simpl in *. split; simpl.
  - by rewrite length_insert.
  - intros i' g' [[-> ->]|[_ Hi']]%calls_update; [|by apply Hcalls].
    simpl. by apply Hcalls.
  - by rewrite Hcapacity.
  - intros k e. rewrite Hitems, Hbrk, Hpay. apply Hent.
  - intros k1 k2 e. rewrite Hitems. apply Hinj.
  - intros i' g' [[-> ->]|[_ Hi']]%calls_update; [done|].
    eapply call_at_ext; [by rewrite Hitems|by intros; apply Hpay|].
    by eapply Hat.
  - intros i1 i2 g1 g2 H1%calls_update H2%calls_update Hk Ho1 Ho2.
    destruct H1 as [[-> ->]|[_ H1]], H2 as [[-> ->]|[_ H2]];
      simpl in *; try congruence.
    by eapply Hown.
  - rewrite Hitems, <- Hcnt. f_equal.
    pose proof (length_filter_insert (λ g, computing (call_pc g)) cs i g
                  (mkGetCall (call_key g) (call_compute g) pc') Hi) as Hf.
    simpl in Hf.
    rewrite decide_False in Hf.
    2:{ intros Hc%computing_computes_for. congruence. }
    rewrite decide_False in Hf.
    2:{ intros Hc%computing_computes_for. congruence. }
    lia.
Qed.

Lemma brk_reserve key c : brk (reserve key c).2 = S (brk c).
Proof.
  unfold reserve. simpl. rewrite brk_moveToFront. simpl.
  by rewrite brk_evict_if_full.
Qed.

(** There is room for a key of the calls that is not in the index yet. *)
Lemma flights_room cap gs s k :
  flights cap gs s →
  Z.of_nat (size (list_to_set (call_key <$> gs) : gset K)) ≤ cap →
  k ∈ call_key <$> gs → items (shared s) !! k = None →
  len_items (shared s) < capacity (shared s).
Proof.
  intros Hfl Hroom Hk Hnone. rewrite (fl_capacity _ _ _ Hfl).
  unfold len_items. rewrite <- size_dom.
  assert (dom (items (shared s)) ⊂ (list_to_set (call_key <$> gs) : gset K))
    as Hsub.
  { split.
    - intros k' [e He]%elem_of_dom. apply elem_of_list_to_set.
      by destruct (fl_entry _ _ _ Hfl k' e He) as (_ & ? & _).
    - intros Hall. specialize (Hall k).
      rewrite elem_of_list_to_set, elem_of_dom in Hall.
      destruct (Hall Hk) as [e He]. congruence. }
  apply subset_size in Hsub. lia.
Qed.

(** While the entry of [k] is not ready, the calls on [k] that do not
    compute are at a lookup or wait for the entry. *)
Lemma call_at_waiting c c' k e compute pc :
  items c !! k = Some e → load_ready c e = false →
  call_at c k compute pc → computes_for pc = false →
  items c' !! k = Some e → call_at c' k compute pc.
Proof.
  intros Hk Hr Hat Hpc Hk'.
  destruct pc; simpl in *; try done; try congruence.
  all: try (destruct Hat as [He Hr']; congruence).
  destruct Hat as (e' & ? & ? & _). congruence.
Qed.

Lemma flights_key cap gs s i g :
  flights cap gs s → calls s !! i = Some g → call_key g ∈ call_key <$> gs.
Proof.
  intros Hfl Hi.
  destruct (fl_calls _ _ _ Hfl i g Hi) as (g0 & Hg0 & -> & _).
  apply list_elem_of_fmap. exists g0. split; [done|].
  by eapply list_elem_of_lookup_2.
Qed.

Lemma flights_reserve cap gs c cs n i g :
  flights cap gs (mkSystem c cs n) →
  Z.of_nat (size (list_to_set (call_key <$> gs) : gset K)) ≤ cap →
  cs !! i = Some g → call_pc g = AtReserve →
  items c !! call_key g = None →
  flights cap gs
    (mkSystem (reserve (call_key g) c).2
       (<[i := mkGetCall (call_key g) (call_compute g) (AtCompute (brk c))]> cs)
       n).
Proof.
  intros Hfl Hroom Hi Hpc Hnone.
  pose proof (flights_key _ _ _ _ _ Hfl Hi) as Hin.
  pose proof (flights_room _ _ _ _ Hfl Hroom Hin Hnone) as Hfree.
  destruct Hfl as [Hlen Hcalls Hcap Hent Hinj Hat Hown Hcnt].
  cbn [shared calls computes] in *.
  pose proof (reserve_items (call_key g) c) as Hitems.
  rewrite (evict_if_full_room c Hfree) in Hitems.
  pose proof (reserve_payload (call_key g) c) as Hnew.
  pose proof (payload_reserve_old (call_key g) c) as Hold.
  pose proof (brk_reserve (call_key g) c) as Hbrk.
  pose proof (capacity_reserve (call_key g) c) as Hcapacity.
  remember (call_key g) as k eqn:Hk0 in *.
  remember (reserve k c).2 as c1 eqn:Hc1 in *.
  assert (∀ k' e', items c !! k' = Some e' → (e' < brk c)%nat) as Hlt.
  { intros k' e' He'. by destruct (Hent k' e' He') as [? _]. }
  split; cbn [shared calls computes].
  - by rewrite length_insert.
  - intros i' g' [[-> ->]|[_ Hi']]%calls_update; [|by apply Hcalls].
    simpl. rewrite Hk0. by apply Hcalls.
  - by rewrite Hcapacity.
  - intros k' e'. rewrite Hitems, Hbrk.
    intros [[<- <-]|[Hne He']]%lookup_insert_Some.
    + split_and!; [lia|done|]. exists zero, false. by split.
    + destruct (Hent k' e' He') as (? & ? & x & r & ? & ?).
      split_and!; [lia|done|]. exists x, r. by rewrite Hold.
  - intros k1 k2 e'. rewrite Hitems.
    intros [[<- <-]|[? H1]]%lookup_insert_Some
           [[<- He]|[? H2]]%lookup_insert_Some; try done.
    + apply Hlt in H2. lia.
    + apply Hlt in H1. lia.
    + by eapply Hinj.
  - intros i' g' [[-> ->]|[_ Hi']]%calls_update.
    + simpl. rewrite Hitems, lookup_insert_eq. split; [done|].
      by rewrite load_ready_payload, Hnew.
    + specialize (Hat i' g' Hi').
      destruct (decide (call_key g' = k)) as [Hsame|Hne].
      * rewrite Hsame in *.
        destruct (call_pc g'); simpl in *; try done; try congruence.
        all: try (destruct Hat as [He Hr']; congruence).
        destruct Hat as (e' & ? & _). congruence.
      * eapply call_at_ext; [|  |exact Hat].
        -- by rewrite Hitems, lookup_insert_ne.
        -- intros e' He'. apply Hold. by eapply Hlt.
  - intros i1 i2 g1 g2 H1%calls_update H2%calls_update Hk Ho1 Ho2.
    assert (∀ i' g', cs !! i' = Some g' → call_key g' = k →
              computes_for (call_pc g') = true → False) as Hno.
    { intros i' g' Hi' Hk' Ho'. specialize (Hat i' g' Hi').
      rewrite Hk' in Hat.
      destruct (call_pc g'); simpl in *; try done;
        destruct Hat as [He ?]; congruence. }
    destruct H1 as [[-> ->]|[_ H1]], H2 as [[-> ->]|[_ H2]];
      simpl in *; try done.
    + destruct (Hno i2 g2 H2); done.
    + destruct (Hno i1 g1 H1); done.
    + by eapply Hown.
  - rewrite Hitems, map_size_insert_None by done.
    pose proof (length_filter_insert (λ g, computing (call_pc g)) cs i g
                  (mkGetCall k (call_compute g) (AtCompute (brk c))) Hi) as Hf.
    simpl in Hf. rewrite Hpc in Hf. simpl in Hf. lia.
Qed.

Lemma flights_compute cap gs c cs n i g e w :
  flights cap gs (mkSystem c cs n) →
  cs !! i = Some g → call_pc g = AtCompute e →
  call_compute g = Some (w, None) →
  flights cap gs
    (mkSystem c (<[i := mkGetCall (call_key g) (call_compute g) (AtStore e w)]> cs)
       (n + 1)).
Proof.
  intros [Hlen Hcalls Hcap Hent Hinj Hat Hown Hcnt] Hi Hpc Hw.
  cbn [shared calls computes] in *.
  pose proof (Hat i g Hi) as Hme. rewrite Hpc in Hme. simpl in Hme.
  destruct Hme as [Hk Hr].
  split; cbn [shared calls computes]; try done.
  - by rewrite length_insert.
  - intros i' g' [[-> ->]|[_ Hi']]%calls_update; [|by apply Hcalls].
    simpl. by apply Hcalls.
  - intros i' g' [[-> ->]|[_ Hi']]%calls_update; [done|]. by eapply Hat.
  - intros i1 i2 g1 g2 H1%calls_update H2%calls_update Hkey Ho1 Ho2.
    destruct H1 as [[-> ->]|[? H1]], H2 as [[-> ->]|[? H2]];
      simpl in *; try done.
    + eapply (Hown i i2 g g2); try done. by rewrite Hpc.
    + eapply (Hown i1 i g1 g); try done. by rewrite Hpc.
    + by eapply Hown.
  - pose proof (length_filter_insert (λ g, computing (call_pc g)) cs i g
                  (mkGetCall (call_key g) (call_compute g) (AtStore e w)) Hi)
      as Hf.
    simpl in Hf. rewrite Hpc in Hf. simpl in Hf. lia.
Qed.

Lemma flights_store cap gs c cs n i g e v :
  flights cap gs (mkSystem c cs n) →
  cs !! i = Some g → call_pc g = AtStore e v →
  flights cap gs
    (mkSystem (store e (set_value v) c)
       (<[i := mkGetCall (call_key g) (call_compute g) (AtClose e v)]> cs) n).
Proof.
  intros [Hlen Hcalls Hcap Hent Hinj Hat Hown Hcnt] Hi Hpc.
  cbn [shared calls computes] in *.
  pose proof (Hat i g Hi) as Hme. rewrite Hpc in Hme. simpl in Hme.
  destruct Hme as (Hk & Hv & Hr).
  destruct (Hent _ _ Hk) as (Hlt & Hin & x & r & Hpay & Hdone).
  assert (r = false) as ->.
  { by rewrite load_ready_payload, Hpay in Hr. }
  pose proof (payload_store_value c e x 0 false v Hpay) as Hpay'.
  set (c' := store e (set_value v) c) in *.
  assert (∀ p, p ≠ e → payload c' p = payload c p) as Hother.
  { intros p Hp. by apply payload_store_ne. }
  assert (items c' = items c) as Hitems by done.
  split; cbn [shared calls computes]; try done.
  - by rewrite length_insert.
  - intros i' g' [[-> ->]|[_ Hi']]%calls_update; [|by apply Hcalls].
    simpl. by apply Hcalls.
  - intros k' e' He'.
    destruct (Hent k' e' He') as (? & ? & x' & r' & ? & ?).
    split_and!; [done..|].
    destruct (decide (e' = e)) as [->|Hne].
    + exists v, false. split; [done|]. by intros ?.
    + exists x', r'. by rewrite Hother.
  - intros i' g' [[-> ->]|[Hne Hi']]%calls_update.
    + simpl. split_and!; try done.
      * by rewrite load_value_payload, Hpay'.
      * by rewrite load_ready_payload, Hpay'.
    + pose proof (Hat i' g' Hi') as Hat'.
      destruct (decide (call_key g' = call_key g)) as [Hsame|Hdiff].
      * rewrite Hsame in *.
        eapply (call_at_waiting c); [exact Hk|exact Hr|exact Hat'| |exact Hk].
        destruct (computes_for (call_pc g')) eqn:Ho; [|done].
        destruct Hne. eapply (Hown i' i g' g); try done. by rewrite Hpc.
      * eapply (call_at_ext c); [done| |done].
        intros e' He'. apply Hother. intros ->. apply Hdiff. by eapply Hinj.
  - intros i1 i2 g1 g2 H1%calls_update H2%calls_update Hkey Ho1 Ho2.
    destruct H1 as [[-> ->]|[? H1]], H2 as [[-> ->]|[? H2]];
      simpl in *; try done.
    + eapply (Hown i i2 g g2); try done. by rewrite Hpc.
    + eapply (Hown i1 i g1 g); try done. by rewrite Hpc.
    + by eapply Hown.
  - pose proof (length_filter_insert (λ g, computing (call_pc g)) cs i g
                  (mkGetCall (call_key g) (call_compute g) (AtClose e v)) Hi)
      as Hf.
    simpl in Hf. rewrite Hpc in Hf. simpl in Hf. rewrite Hitems. lia.
Qed.

Lemma flights_close cap gs c cs n i g e v :
  flights cap gs (mkSystem c cs n) →
  cs !! i = Some g → call_pc g = AtClose e v →
  flights cap gs
    (mkSystem (store e (set_ready true) c)
       (<[i := mkGetCall (call_key g) (call_compute g)
                 (Finished (Return v None))]> cs) n).
Proof.
  intros [Hlen Hcalls Hcap Hent Hinj Hat Hown Hcnt] Hi Hpc.
  cbn [shared calls computes] in *.
  pose proof (Hat i g Hi) as Hme. rewrite Hpc in Hme. simpl in Hme.
  destruct Hme as (Hk & Hv & Hx & Hr).
  destruct (Hent _ _ Hk) as (Hlt & Hin & x & r & Hpay & Hdone).
  assert (x = v) as ->.
  { by rewrite load_value_payload, Hpay in Hx. }
  pose proof (payload_store_ready c e v 0 r Hpay) as Hpay'.
  set (c' := store e (set_ready true) c) in *.
  assert (∀ p, p ≠ e → payload c' p = payload c p) as Hother.
  { intros p Hp. by apply payload_store_ne. }
  assert (items c' = items c) as Hitems by done.
  split; cbn [shared calls computes]; try done.
  - by rewrite length_insert.
  - intros i' g' [[-> ->]|[_ Hi']]%calls_update; [|by apply Hcalls].
    simpl. by apply Hcalls.
  - intros k' e' He'.
    destruct (Hent k' e' He') as (? & ? & x' & r' & ? & ?).
    split_and!; [done..|].
    destruct (decide (e' = e)) as [->|Hne].
    + exists v, true. split; [done|]. intros _.
      destruct (Hcalls i g Hi) as (g0 & Hg0 & Hkey0 & Hc0 & _).
      exists i, g0. split_and!; [done| |congruence].
      rewrite <- Hkey0. by eapply Hinj.
    + exists x', r'. by rewrite Hother.
  - intros i' g' [[-> ->]|[Hne Hi']]%calls_update.
    + simpl. exists e. split_and!; try done.
      * by rewrite load_ready_payload, Hpay'.
      * by rewrite load_value_payload, Hpay'.
    + pose proof (Hat i' g' Hi') as Hat'.
      destruct (decide (call_key g' = call_key g)) as [Hsame|Hdiff].
      * rewrite Hsame in *.
        eapply (call_at_waiting c); [exact Hk|exact Hr|exact Hat'| |exact Hk].
        destruct (computes_for (call_pc g')) eqn:Ho; [|done].
        destruct Hne. eapply (Hown i' i g' g); try done. by rewrite Hpc.
      * eapply (call_at_ext c); [done| |done].
        intros e' He'. apply Hother. intros ->. apply Hdiff. by eapply Hinj.
  - intros i1 i2 g1 g2 H1%calls_update H2%calls_update Hkey Ho1 Ho2.
    destruct H1 as [[-> ->]|[? H1]], H2 as [[-> ->]|[? H2]];
      simpl in *; try done.
    by eapply Hown.
  - pose proof (length_filter_insert (λ g, computing (call_pc g)) cs i g
                  (mkGetCall (call_key g) (call_compute g)
                     (Finished (Return v None))) Hi) as Hf.
    simpl in Hf. rewrite Hpc in Hf. simpl in Hf. rewrite Hitems. lia.
Qed.

Lemma flights_step cap gs s i now :
  Z.of_nat (size (list_to_set (call_key <$> gs) : gset K)) ≤ cap →
  flights cap gs s → flights cap gs (sys_step s (GetStep i now)).
Proof.
  intros Hroom Hfl. cbn [sys_step].
  destruct (calls s !! i) as [g|] eqn:Hi; [|done].
  destruct (fl_calls _ _ _ Hfl i g Hi) as (g0 & Hg0 & Hk0 & Hc0 & w & Hw).
  pose proof (fl_at _ _ _ Hfl i g Hi) as Hat.
  destruct s as [c cs n]. cbn [shared calls computes] in *.
  assert (∀ c' pc',
            items c' = items c → brk c' = brk c → capacity c' = capacity c →
            (∀ p, payload c' p = payload c p) →
            computes_for (call_pc g) = false → computes_for pc' = false →
            call_at c' (call_key g) (call_compute g) pc' →
            flights cap gs
              (mkSystem c'
                 (<[i := mkGetCall (call_key g) (call_compute g) pc']> cs)
                 (n + 0))) as Hlocal.
  { intros c' pc' ???????. rewrite Nat.add_0_r. by eapply flights_local. }
  destruct (call_pc g) as [|e|e|  |e|e|  |e|e|e|e v err|e v err|e v|e v|out]
    eqn:Hpc; cbn [Get_step calls_compute]; simpl in Hat; try done.
  - (* the first lookup *)
    destruct (items c !! call_key g) as [e|] eqn:Hk; by apply Hlocal.
  - (* waiting for the entry found *)
    destruct (load_ready c e) eqn:Hr; [|done]. by apply Hlocal.
  - (* the expiry test *)
    destruct Hat as [Hk Hr].
    destruct (fl_entry _ _ _ Hfl _ _ Hk) as (_ & _ & x & r & Hpay & _).
    cbn [shared] in Hpay.
    rewrite (unset_not_expired c e now _ Hpay) by done.
    by apply Hlocal.
  - (* the promotion *)
    destruct Hat as [Hk Hr]. apply Hlocal; try done.
    + apply items_moveToFront.
    + apply brk_moveToFront.
    + apply capacity_moveToFront.
    + apply payload_moveToFront.
    + simpl. rewrite items_moveToFront. split; [done|].
      by rewrite load_ready_payload, payload_moveToFront, <- load_ready_payload.
  - (* the return of the value found *)
    destruct Hat as [Hk Hr]. apply Hlocal; try done. simpl. by exists e.
  - (* the second lookup, under the write lock *)
    destruct (items c !! call_key g) as [e|] eqn:Hk; [by apply Hlocal|].
    pose proof (reserve_fst (call_key g) c) as Hfst.
    destruct (reserve (call_key g) c) as [e c1] eqn:Hres. simpl in Hfst.
    subst e. rewrite Nat.add_0_r.
    replace c1 with (reserve (call_key g) c).2 by (by rewrite Hres).
    by apply flights_reserve.
  - destruct (load_ready c e) eqn:Hr; [|done]. by apply Hlocal.
  - destruct Hat as [Hk Hr]. apply Hlocal; try done. simpl. by exists e.
  - (* the call of compute *)
    rewrite Hw. cbv beta iota. rewrite <- Hw. by eapply flights_compute.
  - rewrite Nat.add_0_r. by apply flights_store.
  - rewrite Nat.add_0_r. by apply flights_close.
Qed.

Lemma flights_run cap gs sched :
  Z.of_nat (size (list_to_set (call_key <$> gs) : gset K)) ≤ cap →
  ∀ s, Forall is_Get_step sched → flights cap gs s →
       flights cap gs (sys_run s sched).
Proof.
  intros Hroom.
  induction sched as [|ev sched IH]; intros s Hsched Hfl; [done|].
  apply Forall_cons in Hsched as [Hev Hsched].
  unfold sys_run. simpl. fold (sys_run (sys_step s ev) sched).
  apply IH; [done|]. destruct ev; try done. by apply flights_step.
Qed.

Lemma flights_start c gs :
  items c = ∅ →
  Forall (λ g, call_pc g = AtLookup ∧ ∃ v, call_compute g = Some (v, None)) gs →
  flights (capacity c) gs (mkSystem c gs 0).
Proof.
  intros Hempty Hgs. rewrite Forall_lookup in Hgs.
  split; cbn [shared calls computes]; try done.
  - intros i g Hg. destruct (Hgs i g Hg) as [_ ?]. by exists g.
  - intros k e. by rewrite Hempty, lookup_empty.
  - intros k1 k2 e. by rewrite Hempty, lookup_empty.
  - intros i g Hg. destruct (Hgs i g Hg) as [-> _]. done.
  - intros i1 i2 g1 g2 H1 _ _ Ho. destruct (Hgs i1 g1 H1) as [Hpc _].
    by rewrite Hpc in Ho.
  - rewrite Hempty, map_size_empty. simpl.
    assert (filter (λ g, computing (call_pc g)) gs = []) as ->; [|done].
    clear Hempty. induction gs as [|g gs IH]; [done|].
    rewrite filter_cons_False.
    + apply IH. intros i g' Hi. by apply (Hgs (S i)).
    + destruct (Hgs 0%nat g eq_refl) as [-> _]. by intros ?.
Qed.

(** X23: calls of [Get] on any keys.  Goroutines call [Get] on a cache
    whose index is empty and whose capacity is at least the number of
    their keys, each with a [compute] that succeeds, and no other method
    runs meanwhile.  However their transitions are interleaved, the index
    holds only keys of the calls, the calls of [compute] are at most as
    many as the keys in the index, every call that has returned has
    returned, with a nil error, the value of the [compute] of a call on
    its key, and two calls on the same key have returned the same. *)
Theorem Get_calls_on_any_keys_compute_once_for_each_key c gs sched :
  items c = ∅ →
  Z.of_nat (size (list_to_set (call_key <$> gs) : gset K)) ≤ capacity c →
  Forall (λ g, call_pc g = AtLookup ∧ ∃ v, call_compute g = Some (v, None)) gs →
  Forall is_Get_step sched →
  let s := sys_run (mkSystem c gs 0) sched in
  (computes s ≤ size (items (shared s)))%nat
  ∧ Size (shared s) ≤ capacity c
  ∧ dom (items (shared s)) ⊆ (list_to_set (call_key <$> gs) : gset K)
  ∧ (∀ i g out, gs !! i = Some g → outcome_of s i = Some out →
       ∃ j gj v, gs !! j = Some gj ∧ call_key gj = call_key g
                 ∧ call_compute gj = Some (v, None) ∧ out = Return v None)
  ∧ (∀ i1 i2 g1 g2 out1 out2,
       gs !! i1 = Some g1 → gs !! i2 = Some g2 → call_key g1 = call_key g2 →
       outcome_of s i1 = Some out1 → outcome_of s i2 = Some out2 →
       out1 = out2).
Proof.
  intros Hempty Hroom Hgs Hsched s.
  pose proof (flights_run (capacity c) gs sched Hroom _ Hsched
                (flights_start c gs Hempty Hgs)) as Hfl.
  fold s in Hfl.
  destruct Hfl as [Hlen Hcalls Hcap Hent Hinj Hat Hown Hcnt].
  assert (∀ i g out, gs !! i = Some g → outcome_of s i = Some out →
            ∃ e, items (shared s) !! call_key g = Some e
                 ∧ load_ready (shared s) e = true
                 ∧ out = Return (load_value (shared s) e) None) as Hout.
  { intros i g out Hg. unfold outcome_of.
    destruct (calls s !! i) as [g'|] eqn:Hi; [|done]. simpl.
    destruct (call_pc g') eqn:Hpc; try done. intros [= ->].
    pose proof (Hat i g' Hi) as Hat'. rewrite Hpc in Hat'. simpl in Hat'.
    destruct (Hcalls i g' Hi) as (g0 & Hg0 & Hk0 & _).
    assert (g0 = g) as -> by congruence. by rewrite <- Hk0. }
  assert (dom (items (shared s)) ⊆ (list_to_set (call_key <$> gs) : gset K))
    as Hdom.
  { intros k [e He]%elem_of_dom. apply elem_of_list_to_set.
    by destruct (Hent k e He) as (_ & ? & _). }
  split_and!.
  - lia.
  - apply subseteq_size in Hdom. rewrite size_dom in Hdom.
    unfold Size, len_items. lia.
  - done.
  - intros i g out Hg Hi.
    destruct (Hout i g out Hg Hi) as (e & He & Hr & ->).
    destruct (Hent _ e He) as (_ & _ & x & r & Hpay & Hdone).
    assert (r = true) as -> by (by rewrite load_ready_payload, Hpay in Hr).
    destruct (Hdone eq_refl) as (j & gj & ? & ? & ?).
    exists j, gj, x. split_and!; try done.
    by rewrite load_value_payload, Hpay.
  - intros i1 i2 g1 g2 out1 out2 Hg1 Hg2 Hk H1 H2.
    destruct (Hout i1 g1 out1 Hg1 H1) as (e1 & He1 & _ & ->).
    destruct (Hout i2 g2 out2 Hg2 H2) as (e2 & He2 & _ & ->).
    rewrite Hk in He1. congruence.
Qed.

End flights.

(** ** A call of Get overtaken by a Delete *)

Section overtaken.
Context {K : Type} `{Countable K} `{!Zero K}.
Context {V : Type} `{!Zero V}.
Context {Err : Type}.
Implicit Types (c : Cache (K:=K) (V:=V)) (p q entry : ptr) (key : K).
Implicit Types (l : list ptr).
Implicit Types (compute : ComputeFn (V:=V) (Err:=Err)).

Lemma head_in_recency c p :
  head c = Some p → (p < brk c)%nat → p ∈ recency c.
Proof.
  intros Hhead Hp. unfold recency. rewrite Hhead.
  destruct (brk c) as [|n]; [lia|]. simpl. left.
Qed.

(** X22: a [Get] overtaken by a [Delete].  A call of [Get] finds its key
    with an entry that is ready and has not expired; before it takes the
    write lock to promote the entry, another goroutine deletes the key.
    The call moves the deleted entry to the front of the recency list all
    the same and returns its value with a nil error: the key is absent
    from the index, its entry is at the head of the list, and the
    invariant of the list does not hold. *)
Theorem Get_overtaken_by_Delete_puts_the_entry_back now key compute c l p :
  well_formed c l → items c !! key = Some p →
  load_ready c p = true → expired c p now = false →
  let s := sys_run (mkSystem c [mkGetCall key compute AtLookup] 0)
             [GetStep 0 now; GetStep 0 now; GetStep 0 now; DoDelete key;
              GetStep 0 now; GetStep 0 now] in
  outcome_of s 0 = Some (Return (load_value c p) None)
  ∧ computes s = 0%nat
  ∧ items (shared s) !! key = None
  ∧ head (shared s) = Some p
  ∧ ¬ indexed (shared s) p
  ∧ ¬ list_invariant (shared s).
Proof.
  intros Hwf Hkey Hready Hexp s.
  assert (s = mkSystem (moveToFront p (Delete key c))
                [mkGetCall key compute
                   (Finished (Return (load_value (moveToFront p (Delete key c)) p)
                                     None))] 0) as ->.
  { unfold s, sys_run. cbn [foldl sys_step calls shared computes].
    cbn [lookup list_lookup call_key call_compute call_pc Get_step].
    rewrite Hkey. cbn [lookup list_lookup call_key call_compute call_pc
                       Get_step calls shared computes insert list_insert
                       calls_compute Nat.add].
    rewrite Hready. cbn [lookup list_lookup call_key call_compute call_pc
                       Get_step calls shared computes insert list_insert
                       calls_compute Nat.add].
    rewrite Hexp. cbn [lookup list_lookup call_key call_compute call_pc
                       Get_step calls shared computes insert list_insert
                       calls_compute Nat.add].
    reflexivity. }
  assert (items (moveToFront p (Delete key c)) !! key = None) as Hgone.
  { rewrite items_moveToFront. unfold Delete. rewrite Hkey. simpl.
    apply lookup_delete_eq. }
  assert (¬ indexed (moveToFront p (Delete key c)) p) as Hnot.
  { intros [k Hk]. rewrite items_moveToFront in Hk.
    unfold Delete in Hk. rewrite Hkey in Hk. simpl in Hk.
    rewrite items_unlink in Hk.
    apply lookup_delete_Some in Hk as [Hne Hk].
    destruct Hne. by eapply (wf_inj _ _ Hwf). }
  assert (head (moveToFront p (Delete key c)) = Some p) as Hhead.
  { apply head_moveToFront. }
  split_and!; simpl; try done.
  - unfold outcome_of. simpl.
    by rewrite !load_value_payload, payload_moveToFront, payload_Delete.
  - intros Hinv. apply Hnot, (inv_exact _ Hinv).
    apply head_in_recency; [done|].
    rewrite brk_moveToFront.
    assert (brk (Delete key c) = brk c) as ->.
    { unfold Delete. rewrite Hkey. simpl. apply brk_unlink. }
    pose proof (list_alloc _ _ (wf_list _ _ Hwf)) as Ha.
    rewrite Forall_forall in Ha. apply Ha. by eapply wf_indexed.
Qed.

End overtaken.

(** ** memo2 and memo4 *)

Section memo2_properties.
Context {Val Err World : Type}.
Implicit Types (f : memo2.Func (Val:=Val) (Err:=Err) (World:=World)).
Implicit Types (memo : memo2.Memo (Val:=Val) (Err:=Err) (World:=World)).
Implicit Types (keys : list string) (w : World).

(** The general step: from a memo whose table is [table], the calls on
    [keys] are calls of [f] on the keys not in [table], in the order of
    their first request. *)
Lemma memo2_Gets_spec keys :
  ∀ f (table : gmap string memo2.result) w,
  let fresh := filter (λ k, table !! k = None) (memo2.first_requests keys) in
  let '(rs, memo', w') := memo2.Gets keys (memo2.mkMemo f table) w in
  let '(new, w'') := memo2.call_each f fresh w in
  memo2.f memo' = f ∧ w' = w''
  ∧ memo2.cache memo' = new ∪ table
  ∧ Forall2 (λ k r, (new ∪ table) !! k = Some r) keys rs
  ∧ dom new = list_to_set fresh.
Proof.
  induction keys as [|key keys IH]; intros f table w; simpl.
  - split_and!; try done. by rewrite (left_id_L ∅ (∪)).
  - unfold memo2.Get at 1. simpl.
    destruct (table !! key) as [res|] eqn:Hkey.
    + rewrite filter_cons_False by (rewrite Hkey; by intros ?).
      specialize (IH f table w). simpl in IH.
      destruct (memo2.Gets keys _ w) as [[rs memo'] w'].
      assert (filter (λ k, table !! k = None)
                (filter (λ k, k ≠ key) (memo2.first_requests keys))
              = filter (λ k, table !! k = None) (memo2.first_requests keys))
        as ->.
      { rewrite list_filter_filter. apply list_filter_iff. intros x.
        split; [tauto|]. intros Hx. split; [done|]. intros ->. congruence. }
      destruct (memo2.call_each f _ w) as [new w''].
      destruct IH as (? & ? & ? & Hrs & Hdom). split_and!; try done.
      constructor; [|done].
      apply lookup_union_Some_raw. right. split; [|done].
      apply not_elem_of_dom. rewrite Hdom. rewrite elem_of_list_to_set.
      intros [Hnone _]%list_elem_of_filter. congruence.
    + rewrite filter_cons_True by done. simpl.
      destruct (f key w) as [res w1] eqn:Hf.
      specialize (IH f (<[key := res]> table) w1). simpl in IH.
      destruct (memo2.Gets keys _ w1) as [[rs memo'] w'].
      assert (filter (λ k, <[key := res]> table !! k = None)
                (memo2.first_requests keys)
              = filter (λ k, table !! k = None)
                  (filter (λ k, k ≠ key) (memo2.first_requests keys)))
        as Heq.
      { rewrite list_filter_filter. apply list_filter_iff. intros x.
        rewrite lookup_insert_None. split; [intros [? ?]|intros [? ?]]; done. }
      rewrite Heq in IH.
      destruct (memo2.call_each f _ w1) as [new w''].
      destruct IH as (? & ? & Hcache & Hrs & Hdom).
      assert (new !! key = None) as Hnew.
      { apply not_elem_of_dom. rewrite Hdom, elem_of_list_to_set.
        intros [_ [? _]%list_elem_of_filter]%list_elem_of_filter. done. }
      assert (new ∪ <[key := res]> table = <[key := res]> new ∪ table) as Hu.
      { rewrite <- insert_union_r by done. by rewrite insert_union_l. }
      rewrite Hu in *.
      split_and!; try done.
      * constructor; [|done].
        apply lookup_union_Some_raw. left. apply lookup_insert_eq.
      * rewrite dom_insert_L, Hdom. set_solver.
Qed.

Lemma memo2_filter_empty keys :
  filter (λ k, (∅ : gmap string (memo2.result (Val:=Val) (Err:=Err))) !! k
               = None) keys = keys.
Proof.
  induction keys as [|k keys IH]; [done|].
  rewrite filter_cons_True by apply lookup_empty. by rewrite IH.
Qed.

(** X19: memo2.  Calls of [Get] on a new [Memo], one after the other,
    call [f] once on each key, in the order in which the keys are first
    requested: the world after is the world after these calls of [f], the
    cache holds their results, errors included, and every call of [Get]
    returns the result of the one call of [f] on its key. *)
Theorem memo2_Gets_call_f_once_on_each_key f keys w :
  let '(rs, memo', w') := memo2.Gets keys (memo2.New f) w in
  let '(table, w'') := memo2.call_each f (memo2.first_requests keys) w in
  w' = w''
  ∧ memo2.cache memo' = table
  ∧ Forall2 (λ k r, table !! k = Some r) keys rs
  ∧ dom table = list_to_set keys.
Proof.
  pose proof (memo2_Gets_spec keys f ∅ w) as Hspec. simpl in Hspec.
  unfold memo2.New.
  destruct (memo2.Gets keys _ w) as [[rs memo'] w'].
  rewrite memo2_filter_empty in Hspec.
  destruct (memo2.call_each f _ w) as [table w''].
  rewrite (right_id_L ∅ (∪)) in Hspec.
  destruct Hspec as (_ & ? & ? & ? & Hdom). split_and!; try done.
  rewrite Hdom. clear. apply set_eq. intros k.
  rewrite !elem_of_list_to_set.
  induction keys as [|key keys IH]; [done|]. simpl.
  rewrite !elem_of_cons, list_elem_of_filter, IH.
  destruct (decide (k = key)); tauto.
Qed.

End memo2_properties.

Section memo4_properties.
Context {Val : Type} `{!Zero Val} {Err World : Type}.
Abbreviation Func := (memo4.Func (Val:=Val) (Err:=Err) (World:=World)).
Abbreviation Memo := (memo4.Memo (Val:=Val) (Err:=Err) (World:=World)).
Abbreviation State := (memo4.State (Val:=Val) (Err:=Err) (World:=World)).
Abbreviation System := (memo4.System (Val:=Val) (Err:=Err) (World:=World)).
Abbreviation Pc := (memo4.Pc (Val:=Val) (Err:=Err)).
Abbreviation result := (memo4.result (Val:=Val) (Err:=Err)).
Implicit Types (f : Func) (m : Memo) (st : State) (s : System) (pc : Pc).
Implicit Types (k key : string) (e i : nat) (r : result) (w : World).

Lemma memo4_call_each_snoc f keys key w :
  memo4.call_each f (keys ++ [key]) w
  = let '(rs, w1) := memo4.call_each f keys w in
    let '(r, w2) := f key w1 in
    (rs ++ [(key, r)], w2).
Proof.
  revert w. induction keys as [|k keys IH]; intros w; simpl.
  - by destruct (f key w).
  - destruct (f k w) as [r w1]. rewrite IH.
    destruct (memo4.call_each f keys w1) as [rs w2].
    by destruct (f key w2).
Qed.

Lemma memo4_load_ready_set_res f h c r e e' :
  memo4.load_ready (memo4.mkMemo f (alter (memo4.set_res r) e h) c) e'
  = memo4.load_ready (memo4.mkMemo f h c) e'.
Proof.
  unfold memo4.load_ready. simpl.
  destruct (decide (e = e')) as [->|Hne].
  - rewrite list_lookup_alter_eq. by destruct (h !! e').
  - by rewrite list_lookup_alter_ne.
Qed.

Lemma memo4_load_res_set_res f h c r e e' :
  (e < length h)%nat →
  memo4.load_res (memo4.mkMemo f (alter (memo4.set_res r) e h) c) e'
  = if decide (e' = e) then r else memo4.load_res (memo4.mkMemo f h c) e'.
Proof.
  intros He. unfold memo4.load_res. simpl. case_decide as Heq.
  - subst e'. rewrite list_lookup_alter_eq.
    destruct (lookup_lt_is_Some_2 h e He) as [x ->]. done.
  - by rewrite list_lookup_alter_ne.
Qed.

Lemma memo4_load_res_set_ready f h c b e e' :
  memo4.load_res (memo4.mkMemo f (alter (memo4.set_ready b) e h) c) e'
  = memo4.load_res (memo4.mkMemo f h c) e'.
Proof.
  unfold memo4.load_res. simpl.
  destruct (decide (e = e')) as [->|Hne].
  - rewrite list_lookup_alter_eq. by destruct (h !! e').
  - by rewrite list_lookup_alter_ne.
Qed.

Lemma memo4_load_ready_set_ready f h c e e' :
  (e < length h)%nat →
  memo4.load_ready (memo4.mkMemo f (alter (memo4.set_ready true) e h) c) e'
  = if decide (e' = e) then true else memo4.load_ready (memo4.mkMemo f h c) e'.
Proof.
  intros He. unfold memo4.load_ready. simpl. case_decide as Heq.
  - subst e'. rewrite list_lookup_alter_eq.
    destruct (lookup_lt_is_Some_2 h e He) as [x ->]. done.
  - by rewrite list_lookup_alter_ne.
Qed.

Lemma memo4_load_app f h c c' x e :
  (e < length h)%nat →
  memo4.load_ready (memo4.mkMemo f (h ++ [x]) c) e
  = memo4.load_ready (memo4.mkMemo f h c') e
  ∧ memo4.load_res (memo4.mkMemo f (h ++ [x]) c) e
    = memo4.load_res (memo4.mkMemo f h c') e.
Proof.
  intros He. unfold memo4.load_ready, memo4.load_res. simpl.
  by rewrite lookup_app_l.
Qed.

Lemma memo4_calls_update (cs : list (string * Pc)) i key pc i' k' pc' :
  <[i := (key, pc)]> cs !! i' = Some (k', pc') →
  (i' = i ∧ k' = key ∧ pc' = pc) ∨ (i' ≠ i ∧ cs !! i' = Some (k', pc')).
Proof.
  intros [(-> & [= <- <-] & _)|[? ?]]%list_lookup_insert_Some; auto.
Qed.

Lemma memo4_keys_insert (cs : list (string * Pc)) i key pc pc' :
  cs !! i = Some (key, pc) → (<[i := (key, pc')]> cs).*1 = cs.*1.
Proof.
  intros Hi. rewrite list_fmap_insert. simpl.
  apply list_insert_id. by rewrite list_lookup_fmap, Hi.
Qed.

(** A transition that changes neither the state nor who computes. *)
Lemma memo4_invariant_local f0 w0 st cs i key pc pc' :
  memo4.invariant f0 w0 (memo4.mkSystem st cs) →
  cs !! i = Some (key, pc) →
  memo4.owns pc = false → memo4.owns pc' = false →
  memo4.call_ok st key pc' →
  memo4.invariant f0 w0 (memo4.mkSystem st (<[i := (key, pc')]> cs)).
Proof.
  intros [Hf Htr Hal Hinj Hnd Hlog Hrd Hun Hcalls Hown Hreq] Hi Hpc Hpc' Hok.
  simpl in *. split; simpl; try done.
  - intros k e Hk Hr. destruct (Hun k e Hk Hr) as (i' & pc1 & Hi' & Ho).
    exists i', pc1. split; [|done].
    rewrite list_lookup_insert_ne; [done|]. intros ->. congruence.
  - intros i' k' pc1 [(? & ? & ?)|[_ Hi']]%memo4_calls_update;
      [by subst|eauto].
  - intros i1 i2 k pc1 pc2
      [(? & ? & ?)|[_ H1]]%memo4_calls_update
      [(? & ? & ?)|[_ H2]]%memo4_calls_update; subst; try congruence.
    by eapply Hown.
  - intros k e Hk. erewrite memo4_keys_insert by done. by eapply Hreq.
Qed.

Lemma memo4_invariant_step f0 w0 s i :
  memo4.invariant f0 w0 s → memo4.invariant f0 w0 (memo4.sys_step s i).
Proof.
  intros Hinv. unfold memo4.sys_step.
  destruct (memo4.calls s !! i) as [[key pc]|] eqn:Hi; [|done].
  destruct s as [[m w lg] cs]. simpl in Hi |- *.
  pose proof (memo4.inv_calls _ _ _ Hinv i key pc Hi) as Hok.
  destruct pc as [|e|e|e|e|r]; cbn [memo4.Get_step]; simpl in Hok |- *.
  - (* the lookup under the mutex *)
    destruct (memo4.cache m !! key) as [e|] eqn:Hkey.
    + by eapply memo4_invariant_local.
    + destruct Hinv as [Hf Htr Hal Hinj Hnd Hlog Hrd Hun Hcalls Hown Hreq].
      simpl in *. destruct m as [f h c]. simpl in *.
      set (x := memo4.mkEntry (memo4.mkResult zero None) false).
      assert (∀ k e, c !! k = Some e → k ≠ key) as Hother.
      { intros k e Hk ->. congruence. }
      split; simpl.
      * done.
      * done.
      * intros k e [[-> <-]|[_ Hk]]%lookup_insert_Some;
          rewrite length_app; simpl; [lia|].
        apply Hal in Hk. lia.
      * intros k1 k2 e [[-> <-]|[? H1]]%lookup_insert_Some
                       [[-> He]|[? H2]]%lookup_insert_Some; try done.
        -- apply Hal in H2. lia.
        -- apply Hal in H1. lia.
        -- by eapply Hinj.
      * done.
      * intros k Hk. destruct (Hlog k Hk) as [e He].
        exists e. rewrite lookup_insert_ne; [done|].
        intros <-. congruence.
      * intros k e [[-> <-]|[_ Hk]]%lookup_insert_Some.
        -- unfold memo4.load_ready. simpl.
           by rewrite lookup_app_r, Nat.sub_diag by lia.
        -- pose proof (Hal k e Hk) as He.
           destruct (memo4_load_app f h (<[key:=length h]> c) c x e He)
             as [-> ->].
           apply (Hrd k e Hk).
      * intros k e [[-> <-]|[Hne Hk]]%lookup_insert_Some.
        -- intros _. exists i, (memo4.AtCall (length h)). split; [|done].
           apply list_lookup_insert_eq. by eapply lookup_lt_Some.
        -- pose proof (Hal k e Hk) as He.
           destruct (memo4_load_app f h (<[key:=length h]> c) c x e He)
             as [-> _].
           intros Hr. destruct (Hun k e Hk Hr) as (i' & pc1 & Hi' & Ho).
           exists i', pc1. split; [|done].
           rewrite list_lookup_insert_ne; [done|]. intros ->. congruence.
      * intros i' k' pc1 [(? & ? & ?)|[_ Hi']]%memo4_calls_update.
        -- subst. simpl. split; [apply lookup_insert_eq|].
           intros Hin. destruct (Hlog key Hin). congruence.
        -- specialize (Hcalls i' k' pc1 Hi').
           assert (∀ e, c !! k' = Some e →
                     <[key := length h]> c !! k' = Some e
                     ∧ memo4.load_res
                         (memo4.mkMemo f (h ++ [x]) (<[key:=length h]> c)) e
                       = memo4.load_res (memo4.mkMemo f h c) e) as Hsame.
           { intros e He. split.
             - rewrite lookup_insert_ne; [done|]. intros <-. congruence.
             - by apply memo4_load_app, (Hal k'). }
           destruct pc1; simpl in Hcalls |- *; try done.
           ++ destruct Hcalls as [Hc ?]. by destruct (Hsame _ Hc).
           ++ destruct Hcalls as [Hc ?]. destruct (Hsame _ Hc) as [? ->]. done.
           ++ by destruct (Hsame _ Hcalls).
           ++ destruct Hcalls as [Hc ?]. destruct (Hsame _ Hc) as [? ->]. done.
      * intros i1 i2 k pc1 pc2
          [(? & ? & ?)|[_ H1]]%memo4_calls_update
          [(? & ? & ?)|[_ H2]]%memo4_calls_update Ho1 Ho2; subst; try done.
        -- specialize (Hcalls i2 key pc2 H2).
           destruct pc2; simpl in *; try done;
             destruct Hcalls as [? _]; congruence.
        -- specialize (Hcalls i1 key pc1 H1).
           destruct pc1; simpl in *; try done;
             destruct Hcalls as [? _]; congruence.
        -- by eapply Hown.
      * intros k e Hk. erewrite memo4_keys_insert by done.
        apply lookup_insert_Some in Hk as [[<- _]|[_ Hk]]; [|by eapply Hreq].
        apply list_elem_of_fmap. exists (key, memo4.AtLock).
        split; [done|]. by eapply list_elem_of_lookup_2.
  - (* the call of f *)
    destruct Hok as [Hkey Hnew].
    destruct Hinv as [Hf Htr Hal Hinj Hnd Hlog Hrd Hun Hcalls Hown Hreq].
    simpl in *. destruct m as [f h c]. simpl in *. subst f0.
    destruct (f key w) as [r w'] eqn:Hcall.
    pose proof (Hal key e Hkey) as He.
    split; simpl.
    + done.
    + rewrite fmap_app. simpl. rewrite memo4_call_each_snoc, Htr.
      by rewrite Hcall.
    + intros k e' Hk. rewrite length_alter. by eapply Hal.
    + done.
    + rewrite fmap_app. simpl. apply NoDup_app. split_and!; [done| |].
      * intros k Hk Hin. apply list_elem_of_singleton in Hin. by subst k.
      * apply NoDup_singleton.
    + intros k. rewrite fmap_app. simpl.
      intros [Hk|Hk%list_elem_of_singleton]%elem_of_app; [by apply Hlog|].
      subst k. by eexists.
    + intros k e' Hk. rewrite memo4_load_ready_set_res.
      rewrite memo4_load_res_set_res by done. intros Hr.
      apply elem_of_app. case_decide as Heq.
      * subst e'. right. rewrite (Hinj k key e Hk Hkey). left.
      * left. by apply Hrd.
    + intros k e' Hk. rewrite memo4_load_ready_set_res. intros Hr.
      destruct (Hun k e' Hk Hr) as (i' & pc1 & Hi' & Ho).
      destruct (decide (i' = i)) as [->|Hne].
      * exists i, (memo4.AtClose e). split; [|done].
        assert (k = key) as -> by congruence.
        apply list_lookup_insert_eq. by eapply lookup_lt_Some.
      * exists i', pc1. split; [|done]. by rewrite list_lookup_insert_ne.
    + intros i' k' pc1 [(? & ? & ?)|[Hne Hi']]%memo4_calls_update.
      * subst. simpl. split; [done|]. rewrite memo4_load_res_set_res by done.
        rewrite decide_True by done. apply elem_of_app. right. left.
      * specialize (Hcalls i' k' pc1 Hi').
        assert (k' = key → memo4.owns pc1 = false) as Hnot.
        { intros ->. destruct (memo4.owns pc1) eqn:Ho; [|done].
          destruct Hne. by eapply (Hown i' i key pc1 (memo4.AtCall e)). }
        assert (∀ e', c !! k' = Some e' → e' = e → k' = key) as Hsame.
        { intros e' Hk' ->. by eapply Hinj. }
        destruct pc1 as [|e'|e'|e'|e'|r']; simpl in Hcalls |- *; try done.
        -- destruct Hcalls as [Hc Hn]. split; [done|].
           rewrite fmap_app. simpl.
           intros [?|Hk%list_elem_of_singleton]%elem_of_app; [done|].
           by specialize (Hnot Hk).
        -- destruct Hcalls as [Hc Hin]. split; [done|].
           rewrite memo4_load_res_set_res by done. case_decide as Heq.
           ++ by specialize (Hnot (Hsame _ Hc Heq)).
           ++ apply elem_of_app. by left.
        -- destruct Hcalls as [Hc Hin]. split; [done|].
           rewrite memo4_load_res_set_res by done. case_decide as Heq.
           ++ destruct Hnew. rewrite <- (Hsame _ Hc Heq).
              apply list_elem_of_fmap. by eexists (_, _).
           ++ apply elem_of_app. by left.
        -- apply elem_of_app. by left.
    + intros i1 i2 k pc1 pc2
        [(? & ? & ?)|[? H1]]%memo4_calls_update
        [(? & ? & ?)|[? H2]]%memo4_calls_update Ho1 Ho2; subst; try done.
      all: try (eapply Hown; eauto).
    + intros k e' Hk. erewrite memo4_keys_insert by done. by eapply Hreq.
  - (* closing the channel *)
    destruct Hok as [Hkey Hin].
    destruct Hinv as [Hf Htr Hal Hinj Hnd Hlog Hrd Hun Hcalls Hown Hreq].
    simpl in *. destruct m as [f h c]. simpl in *.
    pose proof (Hal key e Hkey) as He.
    split; simpl.
    + done.
    + done.
    + intros k e' Hk. rewrite length_alter. by eapply Hal.
    + done.
    + done.
    + done.
    + intros k e' Hk. rewrite memo4_load_res_set_ready.
      rewrite memo4_load_ready_set_ready by done. case_decide as Heq.
      * subst e'. by rewrite (Hinj k key e Hk Hkey).
      * by apply Hrd.
    + intros k e' Hk. rewrite memo4_load_ready_set_ready by done.
      case_decide as Heq; [done|]. intros Hr.
      destruct (Hun k e' Hk Hr) as (i' & pc1 & Hi' & Ho).
      exists i', pc1. split; [|done].
      rewrite list_lookup_insert_ne; [done|]. intros ->.
      assert (k = key) as -> by congruence. congruence.
    + intros i' k' pc1 [(? & ? & ?)|[Hne Hi']]%memo4_calls_update.
      * subst. simpl. by rewrite memo4_load_res_set_ready.
      * specialize (Hcalls i' k' pc1 Hi').
        destruct pc1; simpl in Hcalls |- *;
          by rewrite ?memo4_load_res_set_ready.
    + intros i1 i2 k pc1 pc2
        [(? & ? & ?)|[? H1]]%memo4_calls_update
        [(? & ? & ?)|[? H2]]%memo4_calls_update Ho1 Ho2; subst; try done.
      by eapply Hown.
    + intros k e' Hk. erewrite memo4_keys_insert by done. by eapply Hreq.
  - (* waiting for the channel *)
    destruct (memo4.load_ready m e) eqn:Hr; [|done].
    eapply memo4_invariant_local; try done. simpl. split; [done|].
    by apply (memo4.inv_ready _ _ _ Hinv).
  - (* reading the result *)
    eapply memo4_invariant_local; try done. simpl. by destruct Hok.
  - done.
Qed.

Lemma memo4_invariant_start f w keys :
  memo4.invariant f w (memo4.start f w keys).
Proof.
  split; simpl; try done.
  - apply NoDup_nil_2.
  - by intros k ?%elem_of_nil.
  - intros i k pc. rewrite list_lookup_fmap.
    destruct (keys !! i); simpl; [|done]. by intros [= <- <-].
  - intros i1 i2 k pc1 pc2. rewrite list_lookup_fmap.
    destruct (keys !! i1); simpl; [|done]. by intros [= <- <-].
Qed.

Lemma memo4_invariant_run f w schedule :
  ∀ s, memo4.invariant f w s → memo4.invariant f w (memo4.sys_run s schedule).
Proof.
  induction schedule as [|i schedule IH]; intros s Hinv; [done|].
  unfold memo4.sys_run. simpl.
  apply IH. by apply memo4_invariant_step.
Qed.

Lemma memo4_keys_step s i :
  (memo4.calls (memo4.sys_step s i)).*1 = (memo4.calls s).*1.
Proof.
  unfold memo4.sys_step.
  destruct (memo4.calls s !! i) as [[key pc]|] eqn:Hi; [|done].
  destruct (memo4.Get_step key (memo4.state s) pc) as [[st pc']|]; [|done].
  simpl. by eapply memo4_keys_insert.
Qed.

Lemma memo4_keys_run schedule :
  ∀ s, (memo4.calls (memo4.sys_run s schedule)).*1 = (memo4.calls s).*1.
Proof.
  induction schedule as [|i schedule IH]; intros s; [done|].
  unfold memo4.sys_run. simpl. fold (memo4.sys_run (memo4.sys_step s i) schedule).
  by rewrite IH, memo4_keys_step.
Qed.

Lemma memo4_logged_once (lg : list (string * result)) k r1 r2 :
  NoDup lg.*1 → (k, r1) ∈ lg → (k, r2) ∈ lg → r1 = r2.
Proof.
  induction lg as [|[k' r'] lg IH]; [by intros _ ?%elem_of_nil|].
  rewrite fmap_cons. simpl. intros [Hk Hnd]%NoDup_cons.
  intros [[= ? ?]|H1]%elem_of_cons [[= ? ?]|H2]%elem_of_cons; subst.
  - done.
  - destruct Hk. apply list_elem_of_fmap. by exists (k', r2).
  - destruct Hk. apply list_elem_of_fmap. by exists (k', r1).
  - by apply IH.
Qed.

(** X20: memo4.  Goroutines call [Get] on a new [Memo], on any keys;
    however their transitions are interleaved, [f] has been called at
    most once on each key, the world outside is what these calls of [f]
    leave, and every call of [Get] that has returned has returned the
    result, value and error, of the call of [f] on its key; so two calls
    on the same key return the same. *)
Theorem memo4_Get_calls_f_once_on_each_key f w keys schedule :
  let s := memo4.sys_run (memo4.start f w keys) schedule in
  let called := memo4.log (memo4.state s) in
  (memo4.calls s).*1 = keys
  ∧ NoDup called.*1
  ∧ called.*1 ⊆ keys
  ∧ memo4.call_each f called.*1 w = (called, memo4.world (memo4.state s))
  ∧ (∀ i k r, memo4.calls s !! i = Some (k, memo4.Returned r) →
              (k, r) ∈ called)
  ∧ (∀ i1 i2 k r1 r2,
       memo4.calls s !! i1 = Some (k, memo4.Returned r1) →
       memo4.calls s !! i2 = Some (k, memo4.Returned r2) → r1 = r2).
Proof.
  intros s called.
  pose proof (memo4_invariant_run f w schedule _
                (memo4_invariant_start f w keys)) as Hinv.
  fold s in Hinv.
  assert ((memo4.calls s).*1 = keys) as Hkeys.
  { unfold s. rewrite memo4_keys_run. simpl.
    rewrite <- list_fmap_compose. apply list_fmap_id. }
  destruct Hinv as [Hf Htr Hal Hinj Hnd Hlog Hrd Hun Hcalls Hown Hreq].
  assert (∀ i k r, memo4.calls s !! i = Some (k, memo4.Returned r) →
                   (k, r) ∈ called) as Hret.
  { intros i k r Hi. apply (Hcalls i k _ Hi). }
  split_and!; try done.
  - intros k Hk. destruct (Hlog k Hk) as [e He].
    rewrite <- Hkeys. by eapply Hreq.
  - intros i1 i2 k r1 r2 H1 H2.
    eapply memo4_logged_once; [exact Hnd|by eapply Hret..].
Qed.

(** X21: memo4 does not deadlock.  In every state reached by any
    interleaving, as long as some call of [Get] has not returned, some
    call can make its next transition: a call that waits on a channel
    waits for a call that is computing for its key, and that call can go
    on. *)
Theorem memo4_unfinished_calls_can_go_on f w keys schedule :
  let s := memo4.sys_run (memo4.start f w keys) schedule in
  ∀ i k pc, memo4.calls s !! i = Some (k, pc) →
            (∀ r, pc ≠ memo4.Returned r) →
  ∃ i' k' pc', memo4.calls s !! i' = Some (k', pc')
    ∧ is_Some (memo4.Get_step k' (memo4.state s) pc').
Proof.
  intros s i k pc Hi Hpc.
  pose proof (memo4_invariant_run f w schedule _
                (memo4_invariant_start f w keys)) as Hinv.
  fold s in Hinv.
  assert (∀ k' pc', memo4.owns pc' = true →
            is_Some (memo4.Get_step k' (memo4.state s) pc')) as Howner.
  { intros k' pc' Ho. destruct pc' as [|e|e|e|e|r]; simpl in Ho; try done;
      cbn [memo4.Get_step]; try (destruct (memo4.f _ k' _)); by eexists. }
  destruct pc as [|e|e|e|e|r].
  - exists i, k, memo4.AtLock. split; [done|]. cbn [memo4.Get_step].
    destruct (memo4.cache _ !! k); by eexists.
  - exists i, k, (memo4.AtCall e). split; [done|]. by apply Howner.
  - exists i, k, (memo4.AtClose e). split; [done|]. by apply Howner.
  - pose proof (memo4.inv_calls _ _ _ Hinv i k _ Hi) as Hk. simpl in Hk.
    destruct (memo4.load_ready (memo4.memo (memo4.state s)) e) eqn:Hr.
    + exists i, k, (memo4.AtWait e). split; [done|]. cbn [memo4.Get_step].
      rewrite Hr. by eexists.
    + destruct (memo4.inv_unready _ _ _ Hinv k e Hk Hr)
        as (i' & pc' & Hi' & Ho).
      exists i', k, pc'. split; [done|]. by apply Howner.
  - exists i, k, (memo4.AtReturn e). split; [done|]. by eexists.
  - by destruct (Hpc r).
Qed.

End memo4_properties.

(** ** Instances *)

Lemma Set_then_Get_returns_the_value_witness :
  (0 ≤ 0 ∨ 5 ≤ 1 + 0)
  ∧ ∃ c', get 5 "a" None set_a = Done c' (Return 1 None) 0.
Proof.
  split; [left; lia|].
  destruct (Set_then_Get_returns_the_value
              1 5 "a" 1 0 (None : StrCompute) (New 2 : StrCache))
    as (c' & Hget & _); [left; lia|].
  by exists c'.
Defined.

Lemma Get_after_the_time_to_live_recomputes_witness :
  0 ≤ 100 ∧ 0 < 10 ∧ 100 + 10 < 200
  ∧ ∃ c', get 200 "a" yields_9 expiring = Done c' (Return 9 None) 1.
Proof.
  split_and!; [lia..|].
  destruct (Get_after_the_time_to_live_recomputes
              (Err:=string) 100 200 "a" 1 10 9 (New 2 : StrCache))
    as (c' & Hget & _); [lia..|].
  by exists c'.
Defined.

Lemma Get_computes_once_then_returns_the_cached_value_witness :
  items (New 2 : StrCache) !! "a" = None
  ∧ ∃ c', get 1 "a" yields_9 (New 2) = Done c' (Return 9 None) 1
        ∧ ∃ c'', get 2 "a" None c' = Done c'' (Return 9 None) 0.
Proof.
  split; [reflexivity|].
  destruct (Get_computes_once_then_returns_the_cached_value
              (Err:=string) 1 "a" 9 (New 2 : StrCache))
    as (c' & Hget & Hagain); [reflexivity|].
  exists c'. split; [done|].
  destruct (Hagain 2 None) as (c'' & Hget' & _). by exists c''.
Defined.

Lemma Get_hit_moves_the_entry_to_the_front_witness :
  well_formed lru_abc (recency lru_abc)
  ∧ items lru_abc !! "A" = Some 0%nat
  ∧ load_ready lru_abc 0 = true ∧ expired lru_abc 0 4 = false
  ∧ ∃ c', get 4 "A" None lru_abc = Done c' (Return 1 None) 0
        ∧ recency c' = [0; 2; 1]%nat.
Proof.
  assert (well_formed lru_abc (recency lru_abc)) as Hwf.
  { eapply wf_recency. apply Set_wf, Set_wf, Set_wf, New_wf. }
  split_and!; [done|reflexivity..|].
  destruct (Get_hit_moves_the_entry_to_the_front
              4 "A" (None : StrCompute) lru_abc 0%nat Hwf)
    as (c' & Hget & Hrec & _); [reflexivity..|].
  exists c'. split; [done|]. by rewrite Hrec.
Defined.

Lemma exact_lru_abc : exact lru_abc (recency lru_abc).
Proof.
  eapply exact_recency.
  do 3 (eapply Set_fresh_exact; [|done|by vm_compute|reflexivity]).
  apply New_exact.
Qed.

Lemma Set_on_a_full_cache_evicts_the_least_recently_used_witness :
  exact lru_abc (recency lru_abc)
  ∧ 0 < capacity lru_abc ∧ capacity lru_abc ≤ Size lru_abc
  ∧ ∃ t (kt : string),
      last (recency lru_abc) = Some t ∧ items lru_abc !! kt = Some t
      ∧ items (Set_ 5 "D" 4 0 lru_abc)
        = <["D" := brk lru_abc]> (delete kt (items lru_abc)).
Proof.
  assert (0 < capacity lru_abc) as Hcap by (by vm_compute).
  assert (capacity lru_abc ≤ Size lru_abc) as Hfull by (by vm_compute).
  split_and!; [apply exact_lru_abc|exact Hcap|exact Hfull|].
  destruct (Set_on_a_full_cache_evicts_the_least_recently_used
              5 "D" 4 0 lru_abc exact_lru_abc Hcap Hfull)
    as (t & kt & Hlast & Hkt & Hitems & _).
  exists t, kt. split_and!; assumption.
Defined.

Lemma Set_below_capacity_leaves_the_other_keys_witness :
  well_formed set_a (recency set_a) ∧ Size set_a < capacity set_a
  ∧ "a" ≠ "b"
  ∧ items (Set_ 2 "b" 2 0 set_a) !! "a" = items set_a !! "a".
Proof.
  assert (well_formed set_a (recency set_a)) as Hwf.
  { eapply wf_recency. apply Set_wf, New_wf. }
  assert (Size set_a < capacity set_a) as Hroom by (by vm_compute).
  assert ("a" ≠ "b") as Hne by discriminate.
  split_and!; [assumption..|].
  destruct (Set_below_capacity_leaves_the_other_keys
              (Err:=string) 2 "b" 2 0 set_a _ Hwf Hroom "a" Hne)
    as [Hitems _].
  exact Hitems.
Defined.

Lemma Delete_unlinks_the_entry_witness :
  well_formed lru_abc (recency lru_abc)
  ∧ recency (Delete "B" lru_abc) = [2; 0]%nat.
Proof.
  assert (well_formed lru_abc (recency lru_abc)) as Hwf.
  { apply (exact_wf _ _ exact_lru_abc). }
  split; [exact Hwf|].
  destruct (Delete_unlinks_the_entry "B" lru_abc Hwf) as (Hrec & _).
  rewrite Hrec. vm_compute. reflexivity.
Defined.

Lemma distinct_keys_leave_the_most_recent_witness :
  NoDup (inserted_key <$> three_insertions)
  ∧ is_Some (items (insertions string three_insertions (New 2)) !! "C")
  ∧ ¬ is_Some (items (insertions string three_insertions (New 2)) !! "A").
Proof.
  assert (NoDup (inserted_key <$> three_insertions)) as Hnd.
  { by_evaluation. }
  split; [exact Hnd|]. split.
  - destruct (distinct_keys_leave_the_most_recent
                (Err:=string) 2 three_insertions "C" Hnd) as [Hcap Hiff].
    apply Hiff. rewrite Hcap. vm_compute. left.
  - destruct (distinct_keys_leave_the_most_recent
                (Err:=string) 2 three_insertions "A" Hnd) as [Hcap Hiff].
    rewrite Hiff, Hcap. vm_compute.
    intros Hin. repeat (apply elem_of_cons in Hin as [[=]|Hin]).
    by apply elem_of_nil in Hin.
Defined.

Lemma reachable_lru_abc : reachable (Err:=string) lru_abc.
Proof. do 3 apply reach_Set. apply reach_New. Qed.

Lemma reachable_states_are_well_linked_witness :
  reachable (Err:=string) lru_abc
  ∧ NoDup (recency lru_abc)
  ∧ recency_back lru_abc = reverse (recency lru_abc).
Proof.
  split; [exact reachable_lru_abc|].
  destruct (reachable_states_are_well_linked lru_abc reachable_lru_abc)
    as (_ & Hnd & Hback & _).
  split; assumption.
Defined.

Lemma Get_returns_when_every_entry_is_ready_witness :
  well_formed (New 2 : StrCache) [] ∧ all_ready (New 2 : StrCache)
  ∧ all_ready set_a
  ∧ ∃ c' v' err' n,
      get 1 "a" fails_with_7 (New 2) = Done c' (Return v' err') n
      ∧ all_ready c'.
Proof.
  assert (all_ready (New 2 : StrCache)) as Hready by (by intros k p).
  split; [apply New_wf|]. split; [exact Hready|].
  destruct (Get_returns_when_every_entry_is_ready
              (Err:=string) (New 2 : StrCache) [] (New_wf 2) Hready)
    as (Hget & Hset & _).
  split; [apply Hset|].
  destruct (Hget 1 "a" 7 (Some "boom"))
    as (c' & v' & err' & n & Hres & _ & Hready' & _).
  by exists c', v', err', n.
Defined.

Lemma Cleanup_again_changes_nothing_witness :
  well_formed mixed (recency mixed)
  ∧ (map_to_list (items mixed)).*1 ≡ₚ (map_to_list (items mixed)).*1
  ∧ 50 ≤ 100
  ∧ Cleanup_in 50 ["a"; "b"; "c"] (Cleanup 100 mixed) = Cleanup 100 mixed.
Proof.
  assert (well_formed mixed (recency mixed)) as Hwf.
  { eapply wf_recency. apply Set_wf, Set_wf, Set_wf, New_wf. }
  assert (50 ≤ 100) as Hle by lia.
  split_and!; [exact Hwf|reflexivity|exact Hle|].
  destruct (Cleanup_again_changes_nothing 100 (map_to_list (items mixed)).*1
              mixed _ Hwf (reflexivity _)) as [_ Hagain].
  exact (Hagain 50 ["a"; "b"; "c"] Hle).
Defined.

Lemma evicted_key_is_the_same_in_any_iteration_order_witness :
  well_formed lru_abc (recency lru_abc) ∧ tail lru_abc = Some 0%nat
  ∧ reverse (map_to_list (items lru_abc)) ≡ₚ map_to_list (items lru_abc)
  ∧ find_key (reverse (map_to_list (items lru_abc))) 0%nat
    = find_key (map_to_list (items lru_abc)) 0%nat.
Proof.
  assert (well_formed lru_abc (recency lru_abc)) as Hwf.
  { eapply wf_recency. apply Set_wf, Set_wf, Set_wf, New_wf. }
  assert (tail lru_abc = Some 0%nat) as Htail by reflexivity.
  split_and!; [exact Hwf|exact Htail|apply reverse_Permutation|].
  destruct (evicted_key_is_the_same_in_any_iteration_order lru_abc _ 0%nat
              (reverse (map_to_list (items lru_abc))) Hwf Htail
              (reverse_Permutation _)) as [Hsame _].
  exact Hsame.
Defined.

Lemma reachable_in_step_lru_abc : reachable_in_step (Err:=string) lru_abc.
Proof.
  do 3 (apply in_step_Set; [|reflexivity]). apply in_step_New.
Qed.

Lemma in_step_states_keep_the_invariant_and_the_capacity_witness :
  reachable_in_step (Err:=string) lru_abc
  ∧ list_invariant lru_abc ∧ Size lru_abc ≤ capacity lru_abc.
Proof.
  split; [exact reachable_in_step_lru_abc|].
  destruct (in_step_states_keep_the_invariant_and_the_capacity lru_abc
              reachable_in_step_lru_abc) as (Hinv & _ & _ & Hsize).
  split; assumption.
Defined.

Lemma two_gets_succeed_calls :
  Forall (λ g : GetCall (K:=string) (V:=Z) (Err:=string),
            call_key g = "k" ∧ call_pc g = AtLookup
            ∧ ∃ v, call_compute g = Some (v, None))
         (calls two_gets_succeed).
Proof.
  repeat constructor; simpl; eauto.
Qed.

Lemma two_gets_run_steps : Forall is_Get_step two_gets_run.
Proof. repeat constructor. Qed.

Lemma Get_is_single_flight_witness :
  items (New 2 : StrCache) !! "k" = None
  ∧ (computes (sys_run two_gets_succeed two_gets_run) ≤ 1)%nat
  ∧ outcome_of (sys_run two_gets_succeed two_gets_run) 0
    = outcome_of (sys_run two_gets_succeed two_gets_run) 1
  ∧ is_Some (outcome_of (sys_run two_gets_succeed two_gets_run) 1).
Proof.
  assert (items (New 2 : StrCache) !! "k" = None) as Hkey by reflexivity.
  destruct (Get_is_single_flight "k" (New 2 : StrCache)
              (calls two_gets_succeed) two_gets_run Hkey
              two_gets_succeed_calls two_gets_run_steps)
    as [Hn (v & Hout)].
  split_and!; [exact Hkey|exact Hn| |vm_compute; by eexists].
  assert (is_Some (outcome_of (sys_run two_gets_succeed two_gets_run) 0))
    as [out0 H0] by (vm_compute; by eexists).
  assert (is_Some (outcome_of (sys_run two_gets_succeed two_gets_run) 1))
    as [out1 H1] by (vm_compute; by eexists).
  rewrite H0, H1.
  destruct (Hout 0%nat out0 H0) as [-> _].
  destruct (Hout 1%nat out1 H1) as [-> _].
  reflexivity.
Defined.

Lemma unfinished_Get_calls_can_go_on_witness :
  items (New 2 : StrCache) !! "k" = None
  ∧ outcome_of (sys_run two_gets_succeed second_arrives) 1 = None
  ∧ ∃ i' g, calls (sys_run two_gets_succeed second_arrives) !! i' = Some g
      ∧ is_Some (Get_step 9 (call_key g) (call_compute g)
                   (shared (sys_run two_gets_succeed second_arrives))
                   (call_pc g)).
Proof.
  assert (items (New 2 : StrCache) !! "k" = None) as Hkey by reflexivity.
  assert (outcome_of (sys_run two_gets_succeed second_arrives) 1 = None)
    as Hout by reflexivity.
  split_and!; [exact Hkey|exact Hout|].
  apply (unfinished_Get_calls_can_go_on "k" (New 2 : StrCache)
           (calls two_gets_succeed) second_arrives 9 Hkey
           two_gets_succeed_calls) with (i := 1%nat).
  - repeat constructor.
  - simpl. lia.
  - exact Hout.
Defined.

Lemma Get_overtaken_by_Delete_puts_the_entry_back_witness :
  well_formed set_a (recency set_a) ∧ items set_a !! "a" = Some 0%nat
  ∧ load_ready set_a 0 = true ∧ expired set_a 0 5 = false
  ∧ outcome_of
      (sys_run (mkSystem set_a [mkGetCall "a" (None : StrCompute) AtLookup] 0)
         [GetStep 0 5; GetStep 0 5; GetStep 0 5; DoDelete "a";
          GetStep 0 5; GetStep 0 5]) 0
    = Some (Return 1 None)
  ∧ ¬ list_invariant
        (shared
           (sys_run
              (mkSystem set_a [mkGetCall "a" (None : StrCompute) AtLookup] 0)
              [GetStep 0 5; GetStep 0 5; GetStep 0 5; DoDelete "a";
               GetStep 0 5; GetStep 0 5])).
Proof.
  assert (well_formed set_a (recency set_a)) as Hwf.
  { eapply wf_recency. apply Set_wf, New_wf. }
  assert (items set_a !! "a" = Some 0%nat) as Hkey by reflexivity.
  assert (load_ready set_a 0 = true) as Hready by reflexivity.
  assert (expired set_a 0 5 = false) as Hexp by reflexivity.
  destruct (Get_overtaken_by_Delete_puts_the_entry_back
              5 "a" (None : StrCompute) set_a _ 0%nat Hwf Hkey Hready Hexp)
    as (Hout & _ & _ & _ & _ & Hinv).
  split_and!; [exact Hwf|exact Hkey|exact Hready|exact Hexp|exact Hout|exact Hinv].
Defined.

Lemma Get_calls_on_any_keys_compute_once_for_each_key_witness :
  items (New 2 : StrCache) = ∅
  ∧ (computes (sys_run two_gets_succeed two_gets_run) ≤ 1)%nat
  ∧ outcome_of (sys_run two_gets_succeed two_gets_run) 0
    = outcome_of (sys_run two_gets_succeed two_gets_run) 1.
Proof.
  assert (items (New 2 : StrCache) = ∅) as Hempty by reflexivity.
  assert (Z.of_nat (size (list_to_set (call_key <$> calls two_gets_succeed)
                            : gset string))
          ≤ capacity (New 2 : StrCache)) as Hroom.
  { by_evaluation. }
  assert (Forall (λ g : GetCall (K:=string) (V:=Z) (Err:=string),
                    call_pc g = AtLookup
                    ∧ ∃ v, call_compute g = Some (v, None))
                 (calls two_gets_succeed)) as Hcalls.
  { repeat constructor; simpl; eauto. }
  assert (Forall is_Get_step two_gets_run) as Hrun by (repeat constructor).
  destruct (Get_calls_on_any_keys_compute_once_for_each_key
              (New 2 : StrCache) (calls two_gets_succeed) two_gets_run
              Hempty Hroom Hcalls Hrun)
    as (Hn & _ & _ & _ & Hsame).
  split_and!; [exact Hempty| |].
  - etransitivity; [exact Hn|]. vm_compute. lia.
  - assert (is_Some (outcome_of (sys_run two_gets_succeed two_gets_run) 0))
      as [out0 H0] by (vm_compute; by eexists).
    assert (is_Some (outcome_of (sys_run two_gets_succeed two_gets_run) 1))
      as [out1 H1] by (vm_compute; by eexists).
    rewrite H0, H1. f_equal.
    by eapply (Hsame 0%nat 1%nat _ _ out0 out1).
Defined.

Lemma memo4_unfinished_calls_can_go_on_witness :
  memo4.calls (memo4.sys_run (memo4.start MemoScenario.lengths 0%nat ["a"; "a"])
                 [0; 1]%nat) !! 1%nat
  = Some ("a", memo4.AtWait 0)
  ∧ (∀ r, memo4.AtWait 0 ≠ memo4.Returned (Val:=Z) (Err:=string) r)
  ∧ ∃ i' k' pc',
      memo4.calls (memo4.sys_run
                     (memo4.start MemoScenario.lengths 0%nat ["a"; "a"])
                     [0; 1]%nat) !! i' = Some (k', pc')
      ∧ is_Some (memo4.Get_step k'
                   (memo4.state (memo4.sys_run
                      (memo4.start MemoScenario.lengths 0%nat ["a"; "a"])
                      [0; 1]%nat)) pc').
Proof.
  assert (memo4.calls
            (memo4.sys_run (memo4.start MemoScenario.lengths 0%nat ["a"; "a"])
               [0; 1]%nat) !! 1%nat
          = Some ("a", memo4.AtWait 0)) as Hcall by reflexivity.
  assert (∀ r, memo4.AtWait 0 ≠ memo4.Returned (Val:=Z) (Err:=string) r)
    as Hpc by discriminate.
  split_and!; [exact Hcall|exact Hpc|].
  exact (memo4_unfinished_calls_can_go_on MemoScenario.lengths 0%nat
           ["a"; "a"] [0; 1]%nat 1%nat "a" (memo4.AtWait 0) Hcall Hpc).
Defined.
